(** * storey/flow.py: the execution core of the dataflow pipeline

    A shallow embedding of [storey/flow.py] and the properties of its
    fan-out / termination protocol, of the [Source] admission queue, of
    the [JoinWithHttp] consumer task, of the V3IO access settings and
    table join built on it, and of [build_flow].  The parser of V3IO
    responses ([_v3io_parse_response]) is a parameter of the table join.

    Conventions of the embedding.
    - A Python value is a [PyVal]; an exception is an [Exn]; a call that
      may raise returns a [Res].
    - A node object is identified by its position in the tree (the list
      of outlet indices leading to it from the source).  The mutable
      attributes of the node objects live in a [Store] keyed by that
      position; the wiring ([_outlets]) and the constructor arguments are
      the immutable [Flow] term.
    - User callables are functions [PyVal -> Res PyVal]: the value a
      coroutine function yields once awaited is the value of the call, so
      [_is_async] does not appear.
    - The tasks that [_do_downstream] creates for the outlets of a node
      work on disjoint sub-trees; the embedding runs them one after the
      other, in outlet order, which is also the order in which they are
      awaited.
    - When a call raises, the store is not returned: what the nodes hold
      after a failure is not modelled, and no statement reads it.
    - The producer thread and the loop thread of a [Source], and the
      caller, the worker and the transport of a [JoinWithHttp] node, are
      run as transition systems whose steps interleave freely.  The
      runs of a source have one producer thread, except where several
      are named ([threads_step]). *)

From Stdlib Require Import ZArith Lia.
From stdpp Require Import gmap strings list pretty.

Set Default Proof Using "Type".
Set Warnings "-register-all".

(** ** Python values *)

Inductive PyVal : Type :=
| PyNone
| PyBool (b : bool)
| PyInt (z : Z)
| PyStr (s : string)
| PyList (l : list PyVal).

(** [bool(v)]: the test of [if v:]. *)
Definition truthy (v : PyVal) : bool :=
  match v with
  | PyNone => false
  | PyBool b => b
  | PyInt z => negb (z =? 0)%Z
  | PyStr s => match s with EmptyString => false | String _ _ => true end
  | PyList l => match l with [] => false | _ :: _ => true end
  end.

(** ** Exceptions and results *)

Inductive Exn : Type :=
| IndexError
| TypeError
| ValueError
| AssertionError
| NotImplementedError
| Exception (msg : string)
| FlowError (cause : option Exn).

Inductive Res (A : Type) : Type :=
| Ok (a : A)
| Raise (ex : Exn).
Arguments Ok {A} a.
Arguments Raise {A} ex.

(** [for x in v]: a list yields its elements, a string its characters;
    the other values are not iterable. *)
Fixpoint chars (s : string) : list PyVal :=
  match s with
  | EmptyString => []
  | String c s' => PyStr (String c EmptyString) :: chars s'
  end.

Definition py_iter (v : PyVal) : Res (list PyVal) :=
  match v with
  | PyList l => Ok l
  | PyStr s => Ok (chars s)
  | _ => Raise TypeError
  end.

(** ** Events and the termination signal *)

(** [Event = collections.namedtuple('Event', 'element key time')] *)
Record Event : Type := mkEvent { element : PyVal; key : PyVal; time : PyVal }.

(** What travels through the tree: an [Event] or the module-level
    sentinel [_termination_obj], told apart by [event is _termination_obj]. *)
Inductive Item : Type :=
| _termination_obj
| Ev (event : Event).

Definition is_termination (it : Item) : bool :=
  match it with _termination_obj => true | Ev _ => false end.

(** ** The store of node attributes *)

Definition path : Type := list nat.

(** [_result]: the accumulator of the [Reduce] object at each position
    (absent until the first assignment after [__init__]).
    [calls]: the arguments of every call of [_do], oldest first.  No
    branch of the code reads it; the statements about what a node
    receives do. *)
Record Store : Type := mkStore {
  _result : gmap path PyVal;
  calls : list (path * Item)
}.

Definition empty_store : Store := mkStore ∅ [].

(** ** The monad of node code: state and exceptions *)

Definition M (A : Type) : Type := Store -> Res (A * Store).

Definition ret {A} (a : A) : M A := fun st => Ok (a, st).

Definition bind {A B} (m : M A) (k : A -> M B) : M B :=
  fun st =>
    match m st with
    | Ok (a, st') => k a st'
    | Raise ex => Raise ex
    end.

Definition raise {A} (ex : Exn) : M A := fun _ => Raise ex.

Definition lift {A} (r : Res A) : M A :=
  fun st => match r with Ok a => Ok (a, st) | Raise ex => Raise ex end.

Declare Scope flow_scope.
Delimit Scope flow_scope with flow.
Notation "x <- m ;; k" := (bind m (fun x => k))
  (at level 100, m at level 99, k at level 200, right associativity) : flow_scope.
Notation "m ;; k" := (bind m (fun _ => k))
  (at level 100, k at level 200, right associativity) : flow_scope.
Local Open Scope flow_scope.

Definition record_call (p : path) (it : Item) : M unit :=
  fun st => Ok (tt, mkStore (_result st) (calls st ++ [(p, it)])).

Definition get_result (p : path) (inital_value : PyVal) : M PyVal :=
  fun st => Ok (default inital_value (_result st !! p), st).

Definition set_result (p : path) (v : PyVal) : M unit :=
  fun st => Ok (tt, mkStore (<[p := v]> (_result st)) (calls st)).

(** ** The node tree *)

Definition Combiner : Type := PyVal -> PyVal -> Res PyVal.

(** [Flow.__init__(self, termination_result_fn=lambda x, y: None)] *)
Definition default_termination_result_fn : Combiner := fun _ _ => Ok PyNone.

(** The three subclasses of [UnaryFunctionFlow]. *)
Inductive UnaryClass : Type := Map | Filter | FlatMap.

Inductive Flow : Type :=
| UnaryFunctionFlow (cls : UnaryClass) (_fn : PyVal -> Res PyVal)
    (_termination_result_fn : Combiner) (_outlets : list Flow)
| Reduce (inital_value : PyVal) (_fn : PyVal -> PyVal -> Res PyVal).

(** ** [Flow._do_downstream] *)

Section Downstream.
(** [outlet._do], for an outlet at a given position. *)
Variable outlet_do : Flow -> path -> Item -> M PyVal.
Variable _termination_result_fn : Combiner.
Variable p : path.

(** [for i in range(1, len(self._outlets))]: the outlet is called, then
    the combiner. *)
Fixpoint combine_from (outlets : list Flow) (i : nat) (termination_result : PyVal)
  : M PyVal :=
  match outlets with
  | [] => ret termination_result
  | o :: rest =>
      r <- outlet_do o (p ++ [i]) _termination_obj ;;
      termination_result' <- lift (_termination_result_fn termination_result r) ;;
      combine_from rest (S i) termination_result'
  end.

(** The tasks of the outlets, awaited in turn. *)
Fixpoint broadcast (outlets : list Flow) (i : nat) (event : Event) : M unit :=
  match outlets with
  | [] => ret tt
  | o :: rest =>
      outlet_do o (p ++ [i]) (Ev event) ;;
      broadcast rest (S i) event
  end.

Definition do_downstream (outlets : list Flow) (it : Item) : M PyVal :=
  match it with
  | _termination_obj =>
      match outlets with
      | [] => raise IndexError
      | o :: rest =>
          termination_result <- outlet_do o (p ++ [0]) _termination_obj ;;
          combine_from rest 1 termination_result
      end
  | Ev event => broadcast outlets 0 event ;; ret PyNone
  end.
End Downstream.

(** ** [UnaryFunctionFlow._do_internal] of the three subclasses *)

Section Internal.
(** [self._do_downstream] of the node. *)
Variable downstream : Item -> M PyVal.

Fixpoint forward_each (event : Event) (mapped_elements : list PyVal) : M unit :=
  match mapped_elements with
  | [] => ret tt
  | mapped_element :: rest =>
      downstream (Ev (mkEvent mapped_element (key event) (time event))) ;;
      forward_each event rest
  end.

Definition _do_internal (cls : UnaryClass) (event : Event) (fn_result : PyVal)
  : M unit :=
  match cls with
  | Map =>
      downstream (Ev (mkEvent fn_result (key event) (time event))) ;; ret tt
  | Filter =>
      if truthy fn_result then downstream (Ev event) ;; ret tt else ret tt
  | FlatMap =>
      mapped_elements <- lift (py_iter fn_result) ;;
      forward_each event mapped_elements
  end.
End Internal.

(** ** [_do] of every node class *)

Fixpoint _do (n : Flow) (p : path) (it : Item) : M PyVal :=
  record_call p it ;;
  match n with
  | UnaryFunctionFlow cls fn termination_result_fn outlets =>
      let downstream := do_downstream _do termination_result_fn p outlets in
      match it with
      | _termination_obj => downstream _termination_obj
      | Ev event =>
          fn_result <- lift (fn (element event)) ;;
          _do_internal downstream cls event fn_result ;;
          ret PyNone
      end
  | Reduce inital_value fn =>
      match it with
      | _termination_obj => get_result p inital_value
      | Ev event =>
          acc <- get_result p inital_value ;;
          res <- lift (fn acc (element event)) ;;
          set_result p res ;;
          ret PyNone
      end
  end.

Definition _do_downstream : Combiner -> path -> list Flow -> Item -> M PyVal :=
  do_downstream _do.

(** ** [Source]: the admission queue and the loop thread *)

(** Where the thread started by [Source.run] stands.  [Looping None]
    waits in [self._q.get]; [Looping (Some event)] holds the item it took
    and has not processed it yet; [Returned] has left [_run_loop] and is
    about to put [self._ex] on [_termination_q]; [Finished] has done so. *)
Inductive Thread : Type :=
| NotStarted
| Looping (event : option Item)
| Returned
| Finished.

(** The attributes of a [Source] object.  [_termination_future] is [None]
    while the future is pending and [Some v] after [set_result(v)]. *)
Record Source : Type := mkSource {
  _outlets : list Flow;
  _termination_result_fn : Combiner;
  buffer_size : Z;
  _q : list Item;
  _termination_q : list (option Exn);
  _ex : option Exn;
  _termination_future : option PyVal;
  thread : Thread;
  nodes : Store
}.

Definition with_q (s : Source) (q : list Item) : Source :=
  mkSource (_outlets s) (_termination_result_fn s) (buffer_size s) q
    (_termination_q s) (_ex s) (_termination_future s) (thread s) (nodes s).

Definition with_thread (s : Source) (t : Thread) : Source :=
  mkSource (_outlets s) (_termination_result_fn s) (buffer_size s) (_q s)
    (_termination_q s) (_ex s) (_termination_future s) t (nodes s).

(** [Source.__init__(self, buffer_size=1, **kwargs)] *)
Definition Source__init__ (buffer_size : Z) (termination_result_fn : Combiner)
  : Res Source :=
  if (0 <? buffer_size)%Z
  then Ok (mkSource [] termination_result_fn buffer_size [] [] None None
             NotStarted empty_store)
  else Raise AssertionError.

(** [Flow.to(self, outlet)], on a source. *)
Definition to (s : Source) (outlet : Flow) : Source :=
  mkSource (_outlets s ++ [outlet]) (_termination_result_fn s) (buffer_size s)
    (_q s) (_termination_q s) (_ex s) (_termination_future s) (thread s) (nodes s).

(** [queue.Queue(maxsize).full()]: a queue whose [maxsize] is not positive
    is never full. *)
Definition queue_full {A} (maxsize : Z) (q : list A) : bool :=
  (0 <? maxsize)%Z && (maxsize <=? Z.of_nat (length q))%Z.

(** [self._q.put(event)]; [None] while the call blocks. *)
Definition q_put (s : Source) (event : Item) : option Source :=
  if queue_full (buffer_size s) (_q s) then None
  else Some (with_q s (_q s ++ [event])).

(** [Source._raise_on_error(self, ex)].  An exception object is truthy,
    so [if ex:] is the test [ex is not None]. *)
Definition _raise_on_error (s : Source) (ex : option Exn) : Res unit :=
  match ex with
  | Some _ => Raise (FlowError (_ex s))
  | None => Ok tt
  end.

(** [Source._emit(self, event)], when nothing else runs between its three
    statements; [None] while the put blocks. *)
Definition _emit (s : Source) (event : Item) : option (Source * Res unit) :=
  match _raise_on_error s (_ex s) with
  | Raise ex => Some (s, Raise ex)
  | Ok _ =>
      match q_put s event with
      | None => None
      | Some s' => Some (s', _raise_on_error s' (_ex s'))
      end
  end.

(** [FlowController.emit(self, element, key=None, event_time=None)];
    [now] is the reading of [time.time()]. *)
Definition emit (s : Source) (now : PyVal) (element key event_time : PyVal)
  : option (Source * Res unit) :=
  let event_time :=
    match event_time with PyNone => now | _ => event_time end in
  _emit s (Ev (mkEvent element key event_time)).

(** [FlowController.terminate(self)] *)
Definition terminate (s : Source) : option (Source * Res unit) :=
  _emit s _termination_obj.

(** [FlowController.await_termination(self)], that is
    [raise_error_or_return_termination_result]; [None] while
    [self._termination_q.get()] blocks. *)
Definition await_termination (s : Source) : option (Source * Res PyVal) :=
  match _termination_q s with
  | [] => None
  | ex :: rest =>
      let s' := mkSource (_outlets s) (_termination_result_fn s) (buffer_size s)
                  (_q s) rest (_ex s) (_termination_future s) (thread s) (nodes s) in
      match _raise_on_error s' ex with
      | Raise e => Some (s', Raise e)
      | Ok _ =>
          match _termination_future s' with
          | Some v => Some (s', Ok v)
          | None => Some (s', Raise (Exception "InvalidStateError"))
          end
      end
  end.

(** [Source.run(self)]: [Flow.run] has nothing to do on the outlets
    modelled here; the thread is started and [_run_loop] creates a new
    future. *)
Definition run (s : Source) : Source :=
  mkSource (_outlets s) (_termination_result_fn s) (buffer_size s) (_q s)
    (_termination_q s) (_ex s) None (Looping None) (nodes s).

(** [event = await loop.run_in_executor(None, self._q.get)]; [None] while
    the queue is empty or the thread is elsewhere. *)
Definition loop_get (s : Source) : option Source :=
  match thread s, _q s with
  | Looping None, event :: rest =>
      Some (with_thread (with_q s rest) (Looping (Some event)))
  | _, _ => None
  end.

(** The body of [while True:] after the get: the [try] block, its
    [except BaseException] handler and the final test.  On the handler's
    path the attributes of the nodes are left as they were when the item
    was taken: how far the tasks below got is not recorded, and nothing
    reads [nodes] after a failure. *)
Definition loop_body (s : Source) : option Source :=
  match thread s with
  | Looping (Some event) =>
      match _do_downstream (_termination_result_fn s) [] (_outlets s) event (nodes s) with
      | Ok (termination_result, st) =>
          if is_termination event
          then Some (mkSource (_outlets s) (_termination_result_fn s) (buffer_size s)
                       (_q s) (_termination_q s) (_ex s) (Some termination_result)
                       Returned st)
          else Some (mkSource (_outlets s) (_termination_result_fn s) (buffer_size s)
                       (_q s) (_termination_q s) (_ex s) (_termination_future s)
                       (Looping None) st)
      | Raise ex =>
          Some (mkSource (_outlets s) (_termination_result_fn s) (buffer_size s)
                  (match _q s with [] => [] | _ :: rest => rest end)
                  (_termination_q s) (Some ex) (Some PyNone) Returned (nodes s))
      end
  | _ => None
  end.

(** The last statement of [_loop_thread_main]:
    [self._termination_q.put(self._ex)], on a [queue.Queue(1)]. *)
Definition thread_exit (s : Source) : option Source :=
  match thread s with
  | Returned =>
      if queue_full 1 (_termination_q s) then None
      else Some (mkSource (_outlets s) (_termination_result_fn s) (buffer_size s)
                   (_q s) (_termination_q s ++ [_ex s]) (_ex s)
                   (_termination_future s) Finished (nodes s))
  | _ => None
  end.

(** ** The producer thread and the loop thread, interleaved *)

(** Where the producer stands inside [_emit]: before its first statement,
    between the first check and the end of the put, or between the put
    and the second check.  [step] runs one thread that calls [emit] with
    the loop thread; [threads_step] below runs any number of them. *)
Inductive Producer : Type :=
| Idle
| Putting (event : Item)
| Rechecking.

Inductive Label : Type :=
| EmitEnter (event : Item)
| EmitPut (event : Item)
| EmitReturn
| EmitRaise (ex : Exn)
| LoopGet
| LoopBody
| ThreadExit.

Inductive step : Source * Producer -> Label -> Source * Producer -> Prop :=
| step_emit_enter s event :
    _raise_on_error s (_ex s) = Ok tt ->
    step (s, Idle) (EmitEnter event) (s, Putting event)
| step_emit_raise_before s ex :
    _raise_on_error s (_ex s) = Raise ex ->
    step (s, Idle) (EmitRaise ex) (s, Idle)
| step_emit_put s s' event :
    q_put s event = Some s' ->
    step (s, Putting event) (EmitPut event) (s', Rechecking)
| step_emit_return s :
    _raise_on_error s (_ex s) = Ok tt ->
    step (s, Rechecking) EmitReturn (s, Idle)
| step_emit_raise_after s ex :
    _raise_on_error s (_ex s) = Raise ex ->
    step (s, Rechecking) (EmitRaise ex) (s, Idle)
| step_loop_get s s' pr :
    loop_get s = Some s' ->
    step (s, pr) LoopGet (s', pr)
| step_loop_body s s' pr :
    loop_body s = Some s' ->
    step (s, pr) LoopBody (s', pr)
| step_thread_exit s s' pr :
    thread_exit s = Some s' ->
    step (s, pr) ThreadExit (s', pr).

Inductive exec : Source * Producer -> list Label -> Source * Producer -> Prop :=
| exec_nil c : exec c [] c
| exec_snoc c tr c' l c'' :
    exec c tr c' -> step c' l c'' -> exec c (tr ++ [l]) c''.

(** The items the producer has put on the admission queue, in order. *)
Definition put_of (l : Label) : option Item :=
  match l with EmitPut event => Some event | _ => None end.

Definition puts (tr : list Label) : list Item := omap put_of tr.

(** What the loop does with a sequence of items, one at a time; the value
    is the one returned for the last item. *)
Fixpoint deliver (termination_result_fn : Combiner) (outlets : list Flow)
    (items : list Item) (last : PyVal) : M PyVal :=
  match items with
  | [] => ret last
  | it :: rest =>
      r <- _do_downstream termination_result_fn [] outlets it ;;
      deliver termination_result_fn outlets rest r
  end.

(** The calls of [_do] a node has received, oldest first. *)
Definition received (p : path) (st : Store) : list Item :=
  (filter (fun c => c.1 = p) (calls st)).*2.

(** The positions of the nodes of a tree, parents first. *)
Fixpoint positions (n : Flow) (p : path) : list path :=
  p ::
  match n with
  | UnaryFunctionFlow _ _ _ outlets =>
      (fix each (outlets : list Flow) (i : nat) : list path :=
         match outlets with
         | [] => []
         | o :: rest => positions o (p ++ [i]) ++ each rest (S i)
         end) outlets 0
  | Reduce _ _ => []
  end.

Fixpoint positions_from (p : path) (outlets : list Flow) (i : nat) : list path :=
  match outlets with
  | [] => []
  | o :: rest => positions o (p ++ [i]) ++ positions_from p rest (S i)
  end.

(** ** [HttpRequest], [HttpResponse] *)

Module HttpRequest.
Record t : Type := mk {
  method : string;
  url : string;
  body : PyVal;
  headers : gmap string string
}.
End HttpRequest.

Module HttpResponse.
Record t : Type := mk { status : Z; body : string }.
End HttpResponse.

(** ** [JoinWithHttp]: the bounded queue and its consumer task

    The node is run as a transition system whose steps are the stretches
    of [_do] and of [_worker] between two [await]s that can suspend.  The
    transport is the environment: a request task is resolved by a step of
    its own, at any time after it was created, in any order.  The outcome
    of a task stands for [await request] followed by
    [await response.text()]: the status and the body, or the exception
    either of them raises.  The outlets of the node are nodes of the
    classes above; what the worker hands them is processed by
    [_do_downstream] in one stretch.

    The [finally] clause of [_worker] belongs to the step in which the
    worker leaves its loop: [self._client_session.close()] is taken to
    return without suspending, so that the task is done when that step
    ends.  Where [close()] suspends, the task is done only later, and a
    call of [_do] that runs in between finds a task that is not done;
    what is stated of a worker that is done is stated of the task once
    it is done, and says nothing of such a call. *)

Module JoinWithHttp.

(** An entry of [self._q]: the marker or [(event, request task)]. *)
Inductive Job : Type :=
| Marker
| Request (event : Event) (request : nat).

(** [self._worker_awaitable]: suspended in [self._q.get()], suspended in
    [await request] for the job it took, or done. *)
Inductive Worker : Type :=
| Getting
| Awaiting (event : Event) (request : nat)
| Done (outcome : Res unit).

(** Where the coroutine of a call of [_do] is suspended, if one is. *)
Inductive Caller : Type :=
| NoCall
| BlockedInPut (job : Job)
| AwaitingWorker.

(** The attributes of the object.  [_client_session] is [None] before
    [_lazy_init] and [Some closed] after; [_q] and [_worker_awaitable]
    are read only after [_lazy_init].  [tasks] are the outcomes of the
    request tasks, by creation order ([None] while pending).

    Four histories that no branch reads: [issued], the request tasks
    created, each with the event it was created for, by creation order;
    [consumed], the number of jobs whose loop body the worker has left;
    [forwarded], the events the worker handed to [_do_downstream];
    [markers], the number of markers put on the queue. *)
Record t : Type := mk {
  position : path;
  _request_builder : PyVal -> Res HttpRequest.t;
  _join_from_response : PyVal -> HttpResponse.t -> Res PyVal;
  _max_in_flight : Z;
  _termination_result_fn : Combiner;
  _outlets : list Flow;
  _client_session : option bool;
  _q : list Job;
  _worker_awaitable : Worker;
  tasks : list (option (Res HttpResponse.t));
  nodes : Store;
  issued : list (nat * Event);
  consumed : nat;
  forwarded : list Event;
  markers : nat
}.

(** [JoinWithHttp.__init__(self, request_builder, join_from_response,
    max_in_flight=8, **kwargs)], for a node at a position of the tree. *)
Definition __init__ (position : path) request_builder join_from_response
    (max_in_flight : Z) (termination_result_fn : Combiner)
    (outlets : list Flow) (nodes : Store) : t :=
  mk position request_builder join_from_response max_in_flight
     termination_result_fn outlets None [] Getting [] nodes [] 0 [] 0.

Definition with_session (s : t) (session : option bool) : t :=
  mk (position s) (_request_builder s) (_join_from_response s) (_max_in_flight s)
     (_termination_result_fn s) (_outlets s) session (_q s) (_worker_awaitable s)
     (tasks s) (nodes s) (issued s) (consumed s) (forwarded s) (markers s).

Definition with_q (s : t) (q : list Job) : t :=
  mk (position s) (_request_builder s) (_join_from_response s) (_max_in_flight s)
     (_termination_result_fn s) (_outlets s) (_client_session s) q
     (_worker_awaitable s) (tasks s) (nodes s) (issued s) (consumed s)
     (forwarded s) (markers s).

Definition with_worker (s : t) (w : Worker) : t :=
  mk (position s) (_request_builder s) (_join_from_response s) (_max_in_flight s)
     (_termination_result_fn s) (_outlets s) (_client_session s) (_q s) w
     (tasks s) (nodes s) (issued s) (consumed s) (forwarded s) (markers s).

Definition with_tasks (s : t) (ts : list (option (Res HttpResponse.t))) : t :=
  mk (position s) (_request_builder s) (_join_from_response s) (_max_in_flight s)
     (_termination_result_fn s) (_outlets s) (_client_session s) (_q s)
     (_worker_awaitable s) ts (nodes s) (issued s) (consumed s) (forwarded s)
     (markers s).

Definition with_nodes (s : t) (st : Store) : t :=
  mk (position s) (_request_builder s) (_join_from_response s) (_max_in_flight s)
     (_termination_result_fn s) (_outlets s) (_client_session s) (_q s)
     (_worker_awaitable s) (tasks s) st (issued s) (consumed s) (forwarded s)
     (markers s).

(** The histories. *)
Definition note_issued (s : t) (request : nat) (event : Event) : t :=
  mk (position s) (_request_builder s) (_join_from_response s) (_max_in_flight s)
     (_termination_result_fn s) (_outlets s) (_client_session s) (_q s)
     (_worker_awaitable s) (tasks s) (nodes s) (issued s ++ [(request, event)])
     (consumed s) (forwarded s) (markers s).

Definition note_consumed (s : t) : t :=
  mk (position s) (_request_builder s) (_join_from_response s) (_max_in_flight s)
     (_termination_result_fn s) (_outlets s) (_client_session s) (_q s)
     (_worker_awaitable s) (tasks s) (nodes s) (issued s) (S (consumed s))
     (forwarded s) (markers s).

Definition note_forwarded (s : t) (event : Event) : t :=
  mk (position s) (_request_builder s) (_join_from_response s) (_max_in_flight s)
     (_termination_result_fn s) (_outlets s) (_client_session s) (_q s)
     (_worker_awaitable s) (tasks s) (nodes s) (issued s) (consumed s)
     (forwarded s ++ [event]) (markers s).

Definition note_marker (s : t) (job : Job) : t :=
  match job with
  | Marker =>
      mk (position s) (_request_builder s) (_join_from_response s) (_max_in_flight s)
         (_termination_result_fn s) (_outlets s) (_client_session s) (_q s)
         (_worker_awaitable s) (tasks s) (nodes s) (issued s) (consumed s)
         (forwarded s) (S (markers s))
  | Request _ _ => s
  end.

(** [self._q.put(job)] once the queue has room. *)
Definition enqueue (s : t) (job : Job) : t :=
  note_marker (with_q s (_q s ++ [job])) job.

(** [JoinWithHttp._lazy_init(self)] *)
Definition _lazy_init (s : t) : t :=
  with_worker (with_q (with_session s (Some false)) []) Getting.

(** The result of a stretch of [_do]: the call returned or raised, or it
    is suspended. *)
Inductive Outcome : Type :=
| Returns (r : Res PyVal)
| Suspends (c : Caller).

(** What follows the put in [_do]: in the termination branch
    [await self._worker_awaitable], which suspends; in the event branch
    [if self._worker_awaitable.done(): await self._worker_awaitable]. *)
Definition after_put (s : t) (job : Job) : t * Outcome :=
  match job with
  | Marker => (s, Suspends AwaitingWorker)
  | Request _ _ =>
      match _worker_awaitable s with
      | Done (Raise ex) => (s, Returns (Raise ex))
      | _ => (s, Returns (Ok PyNone))
      end
  end.

(** [await self._q.put(job)] and what follows it, up to the next
    suspension. *)
Definition put (s : t) (job : Job) : t * Outcome :=
  if queue_full (_max_in_flight s) (_q s)
  then (s, Suspends (BlockedInPut job))
  else after_put (enqueue s job) job.

(** [JoinWithHttp._do(self, event)] from its first statement to its first
    suspension. *)
Definition _do (s : t) (event : Item) : t * Outcome :=
  let s := match _client_session s with None => _lazy_init s | Some _ => s end in
  match _worker_awaitable s with
  | Done (Raise ex) => (s, Returns (Raise ex))
  | Done (Ok _) => (s, Returns (Raise AssertionError))
  | _ =>
      match event with
      | _termination_obj => put s Marker
      | Ev event =>
          match _request_builder s (element event) with
          | Raise ex => (s, Returns (Raise ex))
          | Ok req =>
              let request := length (tasks s) in
              let s := note_issued (with_tasks s (tasks s ++ [None])) request event in
              put s (Request event request)
          end
      end
  end.

(** A call blocked in [self._q.put] goes on once the queue has room. *)
Definition resume_put (s : t) (c : Caller) : option (t * Outcome) :=
  match c with
  | BlockedInPut job =>
      if queue_full (_max_in_flight s) (_q s) then None
      else Some (after_put (enqueue s job) job)
  | _ => None
  end.

(** The termination branch once the worker is done: [await
    self._worker_awaitable] raises the worker's exception, or
    [return await self._do_downstream(_termination_obj)] runs. *)
Definition resume_after_worker (s : t) (c : Caller) : option (t * Outcome) :=
  match c, _worker_awaitable s with
  | AwaitingWorker, Done (Raise ex) => Some (s, Returns (Raise ex))
  | AwaitingWorker, Done (Ok _) =>
      match _do_downstream (_termination_result_fn s) (position s) (_outlets s)
              _termination_obj (nodes s) with
      | Ok (r, st) => Some (with_nodes s st, Returns (Ok r))
      | Raise ex => Some (s, Returns (Raise ex))
      end
  | _, _ => None
  end.

(** The transport resolves a pending request task. *)
Definition resolve (s : t) (request : nat) (outcome : Res HttpResponse.t) : option t :=
  match tasks s !! request with
  | Some None => Some (with_tasks s (<[request := Some outcome]> (tasks s)))
  | _ => None
  end.

(** [finally: await self._client_session.close()] *)
Definition close_session (s : t) : t :=
  with_session s (match _client_session s with Some _ => Some true | None => None end).

(** The [except BaseException] handler of [_worker], then [finally] and
    the end of the task. *)
Definition worker_fails (s : t) (ex : Exn) : t :=
  let s := with_q s (match _q s with [] => [] | _ :: rest => rest end) in
  with_worker (close_session (note_consumed s)) (Done (Raise ex)).

(** [job = await self._q.get()] and the test of the marker. *)
Definition worker_get (s : t) : option t :=
  match _worker_awaitable s, _q s with
  | Getting, Marker :: rest =>
      Some (with_worker (close_session (with_q s rest)) (Done (Ok tt)))
  | Getting, Request event request :: rest =>
      Some (with_worker (with_q s rest) (Awaiting event request))
  | _, _ => None
  end.

(** From [response = await request] to the end of the loop body, once
    the request task of the job is resolved. *)
Definition worker_consume (s : t) : option t :=
  match _worker_awaitable s with
  | Awaiting event request =>
      match tasks s !! request with
      | Some (Some (Raise ex)) => Some (worker_fails s ex)
      | Some (Some (Ok response)) =>
          match _join_from_response s (element event) response with
          | Raise ex => Some (worker_fails s ex)
          | Ok PyNone => Some (with_worker (note_consumed s) Getting)
          | Ok joined_element =>
              let joined := mkEvent joined_element (key event) (time event) in
              let s := note_forwarded s joined in
              match _do_downstream (_termination_result_fn s) (position s)
                      (_outlets s) (Ev joined) (nodes s) with
              | Ok (_, st) => Some (with_worker (note_consumed (with_nodes s st)) Getting)
              | Raise ex => Some (worker_fails s ex)
              end
          end
      | _ => None
      end
  | _ => None
  end.

Inductive Label : Type :=
| Call (event : Item)
| ResumePut
| ResumeAfterWorker
| Resolve (request : nat) (outcome : Res HttpResponse.t)
| WorkerGet
| WorkerConsume.

Definition caller_of (o : Outcome) : Caller :=
  match o with Returns _ => NoCall | Suspends c => c end.

Inductive step : t * Caller -> Label -> t * Caller -> Prop :=
| step_call s event s' o :
    _do s event = (s', o) ->
    step (s, NoCall) (Call event) (s', caller_of o)
| step_resume_put s c s' o :
    resume_put s c = Some (s', o) ->
    step (s, c) ResumePut (s', caller_of o)
| step_resume_after_worker s c s' o :
    resume_after_worker s c = Some (s', o) ->
    step (s, c) ResumeAfterWorker (s', caller_of o)
| step_resolve s c request outcome s' :
    resolve s request outcome = Some s' ->
    step (s, c) (Resolve request outcome) (s', c)
| step_worker_get s c s' :
    worker_get s = Some s' ->
    step (s, c) WorkerGet (s', c)
| step_worker_consume s c s' :
    worker_consume s = Some s' ->
    step (s, c) WorkerConsume (s', c).

Inductive exec : t * Caller -> list Label -> t * Caller -> Prop :=
| exec_nil c : exec c [] c
| exec_snoc c tr c' l c'' :
    exec c tr c' -> step c' l c'' -> exec c (tr ++ [l]) c''.

(** The event the worker forwards for the job of a request task, if it
    forwards one: the response joined to the payload, under the key and
    the time of the incoming event. *)
Definition joined_event (s : t) (job : nat * Event) : option Event :=
  match tasks s !! job.1 with
  | Some (Some (Ok response)) =>
      match _join_from_response s (element job.2) response with
      | Ok PyNone => None
      | Ok joined_element =>
          Some (mkEvent joined_element (key job.2) (time job.2))
      | Raise _ => None
      end
  | _ => None
  end.

(** The request jobs of a queue, of the worker and of a blocked call. *)
Definition request_of (job : Job) : option (nat * Event) :=
  match job with
  | Marker => None
  | Request event request => Some (request, event)
  end.

Definition requests_in (q : list Job) : list (nat * Event) := omap request_of q.

Definition held (w : Worker) : list (nat * Event) :=
  match w with Awaiting event request => [(request, event)] | _ => [] end.

Definition blocked (c : Caller) : list (nat * Event) :=
  match c with BlockedInPut job => requests_in [job] | _ => [] end.

Definition alive (w : Worker) : Prop :=
  match w with Done _ => False | _ => True end.

Definition marker_free (q : list Job) : Prop := Forall (fun job => job <> Marker) q.

Definition resolved (s : t) (job : nat * Event) : Prop :=
  exists outcome, tasks s !! job.1 = Some (Some outcome).

Definition saw_termination (st : Store) : Prop :=
  Exists (fun c => is_termination c.2 = true) (calls st).

(** What holds of the node and of the call in progress, whatever the
    order of the steps. *)
Record invariant (s : t) (c : Caller) : Prop := {
  inv_init :
    _client_session s = None ->
    _q s = [] /\ _worker_awaitable s = Getting /\ c = NoCall;
  inv_forwarded :
    forwarded s = omap (joined_event s) (take (consumed s) (issued s));
  inv_resolved : Forall (resolved s) (take (consumed s) (issued s));
  inv_consumed : consumed s <= length (issued s);
  inv_pending :
    alive (_worker_awaitable s) ->
    held (_worker_awaitable s) ++ requests_in (_q s) ++ blocked c
      = drop (consumed s) (issued s);
  inv_marker :
    alive (_worker_awaitable s) ->
    match c with
    | AwaitingWorker =>
        exists front, _q s = front ++ [Marker] /\ marker_free front /\ 1 <= markers s
    | _ => marker_free (_q s)
    end;
  inv_closed :
    forall outcome, _worker_awaitable s = Done outcome -> _client_session s = Some true;
  inv_drained :
    _worker_awaitable s = Done (Ok tt) ->
    _q s = [] /\ consumed s = length (issued s) /\ 1 <= markers s /\
    (c = NoCall \/ c = AwaitingWorker)
}.

(** The outlets have seen the termination signal only if the worker has
    left its loop normally. *)
Definition termination_after_exit (s : t) : Prop :=
  saw_termination (nodes s) -> _worker_awaitable s = Done (Ok tt).

(** The steps as a function of the label; [None] when the step is not
    enabled. *)
Definition do_label (sc : t * Caller) (l : Label) : option (t * Caller) :=
  let (s, c) := sc in
  match l with
  | Call event =>
      match c with
      | NoCall => let (s', o) := _do s event in Some (s', caller_of o)
      | _ => None
      end
  | ResumePut =>
      match resume_put s c with
      | Some (s', o) => Some (s', caller_of o)
      | None => None
      end
  | ResumeAfterWorker =>
      match resume_after_worker s c with
      | Some (s', o) => Some (s', caller_of o)
      | None => None
      end
  | Resolve request outcome =>
      match resolve s request outcome with
      | Some s' => Some (s', c)
      | None => None
      end
  | WorkerGet =>
      match worker_get s with Some s' => Some (s', c) | None => None end
  | WorkerConsume =>
      match worker_consume s with Some s' => Some (s', c) | None => None end
  end.

Fixpoint run_labels (sc : t * Caller) (tr : list Label) : option (t * Caller) :=
  match tr with
  | [] => Some sc
  | l :: rest =>
      match do_label sc l with
      | Some sc' => run_labels sc' rest
      | None => None
      end
  end.

End JoinWithHttp.

(** ** Values used in the statements *)

(** The termination results of the outlets of the node at [p], each
    outlet asked in turn, none combined. *)
Fixpoint termination_results (p : path) (outlets : list Flow) (i : nat)
  : M (list PyVal) :=
  match outlets with
  | [] => ret []
  | o :: rest =>
      r <- _do o (p ++ [i]) _termination_obj ;;
      rs <- termination_results p rest (S i) ;;
      ret (r :: rs)
  end.

(** [lambda acc, x: acc + x] on integers. *)
Definition py_add : PyVal -> PyVal -> Res PyVal :=
  fun acc x =>
    match acc, x with
    | PyInt a, PyInt b => Ok (PyInt (a + b))
    | _, _ => Raise TypeError
    end.

(** [lambda acc, x: acc + [x]], the list-append of the fold. *)
Definition list_append : PyVal -> PyVal -> Res PyVal :=
  fun acc x =>
    match acc with
    | PyList l => Ok (PyList (l ++ [x]))
    | _ => Raise TypeError
    end.

(** [lambda x: x] and [lambda x: [x, x]]. *)
Definition identity : PyVal -> Res PyVal := fun x => Ok x.
Definition twice : PyVal -> Res PyVal := fun x => Ok (PyList [x; x]).

(** Two fold nodes under one parent. *)
Definition two_reduces : list Flow :=
  [Reduce (PyInt 1) py_add; Reduce (PyInt 2) py_add].

(** ** Runs of a source *)

(** The item the loop thread holds. *)
Definition held (t : Thread) : list Item :=
  match t with Looping (Some event) => [event] | _ => [] end.

(** A source that can be run: both queues empty, no failure recorded. *)
Definition runnable (s : Source) : Prop :=
  _q s = [] /\ _termination_q s = [] /\ _ex s = None.

(** One schedule among all: the loop thread takes and processes each
    item as soon as the producer has put it. *)
Definition emit_then_process (it : Item) : list Label :=
  [EmitEnter it; EmitPut it; EmitReturn; LoopGet; LoopBody].

Definition lockstep (events : list Event) : list Label :=
  concat (map (fun e => emit_then_process (Ev e)) events) ++
  emit_then_process _termination_obj ++ [ThreadExit].

(** The left fold of a binary function that may raise. *)
Fixpoint fold_res (g : PyVal -> PyVal -> Res PyVal) (acc : PyVal) (xs : list PyVal)
  : Res PyVal :=
  match xs with
  | [] => Ok acc
  | x :: rest =>
      match g acc x with
      | Ok acc' => fold_res g acc' rest
      | Raise ex => Raise ex
      end
  end.

(** [k] [Map(lambda x: x)] nodes in a row, then [last]. *)
Fixpoint identity_maps (comb : Combiner) (k : nat) (last : Flow) : Flow :=
  match k with
  | 0 => last
  | S k' => UnaryFunctionFlow Map identity comb [identity_maps comb k' last]
  end.


Definition source_of (outlets : list Flow) : Source :=
  mkSource outlets default_termination_result_fn 1 [] [] None None NotStarted
    empty_store.

Definition int_event (z : Z) : Event := mkEvent (PyInt z) PyNone (PyInt 0).

Definition example_events : list Event := [int_event 1; int_event 0; int_event 2].

(** A fold node alone under a source, and the stores two successive runs
    leave. *)
Definition sum_outlets : list Flow := [Reduce (PyInt 0) py_add].

Definition after_first_run : Store :=
  Eval vm_compute in
    match deliver default_termination_result_fn sum_outlets
            (map Ev example_events ++ [_termination_obj]) PyNone empty_store with
    | Ok (_, st) => st
    | Raise _ => empty_store
    end.

Definition after_second_run : Store :=
  Eval vm_compute in
    match deliver default_termination_result_fn sum_outlets
            (map Ev [int_event 5] ++ [_termination_obj]) PyNone after_first_run with
    | Ok (_, st) => st
    | Raise _ => empty_store
    end.

(** [p(x)] is truthy (and raises nothing). *)
Definition keeps (p : PyVal -> Res PyVal) (x : PyVal) : bool :=
  match p x with
  | Ok keep => truthy keep
  | Raise _ => false
  end.

(** [[x for x in xs if p(x)]], which raises what [p] raises. *)
Fixpoint comprehension (p : PyVal -> Res PyVal) (xs : list PyVal) : Res (list PyVal) :=
  match xs with
  | [] => Ok []
  | x :: rest =>
      match p x with
      | Raise ex => Raise ex
      | Ok keep =>
          match comprehension p rest with
          | Raise ex => Raise ex
          | Ok kept => Ok (if truthy keep then x :: kept else kept)
          end
      end
  end.

(** [Filter(p)] piped into [Reduce([], lambda acc, x: acc + [x])]. *)
Definition filter_then_collect (p : PyVal -> Res PyVal) (comb : Combiner) : list Flow :=
  [UnaryFunctionFlow Filter p comb [Reduce (PyList []) list_append]].

(** [lambda x: x > 0] on integers. *)
Definition positive : PyVal -> Res PyVal :=
  fun x =>
    match x with
    | PyInt z => Ok (PyBool (0 <? z)%Z)
    | _ => Raise TypeError
    end.


Definition left_loop (t : Thread) : Prop := t = Returned \/ t = Finished.


(** ** A run of a [JoinWithHttp] node *)

Module JoinExample.
Import JoinWithHttp.

(** A node with room for three jobs that joins the body of the response
    to nothing else, piped into a fold node collecting what it gets;
    three events, whose requests the transport answers last first. *)
Definition example_builder : PyVal -> Res HttpRequest.t :=
  fun x => Ok (HttpRequest.mk "GET" "http://host/table" x ∅).

Definition example_join : PyVal -> HttpResponse.t -> Res PyVal :=
  fun _ response => Ok (PyStr (HttpResponse.body response)).

Definition example_node : t :=
  __init__ [0] example_builder example_join 3 default_termination_result_fn
    [Reduce (PyList []) list_append] empty_store.

Definition example_events_trace : list Label :=
  [Call (Ev (int_event 10)); Call (Ev (int_event 11)); Call (Ev (int_event 12));
   WorkerGet;
   Resolve 2 (Ok (HttpResponse.mk 200 "c"));
   Resolve 1 (Ok (HttpResponse.mk 200 "b"));
   Resolve 0 (Ok (HttpResponse.mk 200 "a"));
   WorkerConsume; WorkerGet; WorkerConsume; WorkerGet; WorkerConsume].

Definition example_trace : list Label :=
  example_events_trace ++ [Call _termination_obj; WorkerGet; ResumeAfterWorker].

Definition joined_with (body : string) : Event :=
  mkEvent (PyStr body) PyNone (PyInt 0).

End JoinExample.

(** ** Predicates of the proofs *)

(** A position strictly below [p]. *)
Definition below (p q : path) : Prop := exists i rest, q = p ++ i :: rest.

(** What a call of [_do] at [p] adds to the history: the call itself,
    then calls on nodes strictly below [p], all of them with the
    termination signal or all of them with events, as the call itself. *)
Definition adds_calls (p : path) (it : Item) (st st' : Store) : Prop :=
  exists new,
    calls st' = calls st ++ (p, it) :: new /\
    Forall (fun c => below p c.1 /\ is_termination c.2 = is_termination it) new.

(** What the outlets of the node at [p] add. *)
Definition adds_calls_below (p : path) (termination : bool) (st st' : Store) : Prop :=
  exists new,
    calls st' = calls st ++ new /\
    Forall (fun c => below p c.1 /\ is_termination c.2 = termination) new.

Definition received_in (p : path) (l : list (path * Item)) : list Item :=
  (filter (fun c => c.1 = p) l).*2.

Definition calls_ok (n : Flow) : Prop :=
  forall p it st r st', _do n p it st = Ok (r, st') -> adds_calls p it st st'.

(** [q] is outlet [j] of the node at [p], or a node below that outlet. *)
Definition under (p : path) (j : nat) (q : path) : Prop :=
  q = p ++ [j] \/ below (p ++ [j]) q.

(** What the outlets from index [i] on add: calls at or below them. *)
Definition adds_calls_from (p : path) (i : nat) (st st' : Store) : Prop :=
  exists new,
    calls st' = calls st ++ new /\
    Forall (fun c => exists j, i <= j /\ under p j c.1) new.

Definition reaches_once (n : Flow) : Prop :=
  forall p st r st',
    _do n p _termination_obj st = Ok (r, st') ->
    forall q, q ∈ positions n p -> received q st' = received q st ++ [_termination_obj].

Definition is_event (it : Item) : Prop := is_termination it = false.

(** While no failure is recorded: the items put so far are those the loop
    has processed, the one it holds and those still queued, in this
    order; the nodes are as processing the former left them; and the loop
    leaves only after the termination signal, with its result in the
    future. *)
Definition run_inv (s0 : Source) (tr : list Label) (s : Source) : Prop :=
  _outlets s = _outlets s0 /\
  _termination_result_fn s = _termination_result_fn s0 /\
  (_ex s = None ->
   exists processed last,
     puts tr = processed ++ held (thread s) ++ _q s /\
     deliver (_termination_result_fn s0) (_outlets s0) processed PyNone (nodes s0)
       = Ok (last, nodes s) /\
     match thread s with
     | NotStarted => False
     | Looping _ =>
         Forall is_event processed /\ _termination_q s = []
     | Returned =>
         (exists before, processed = before ++ [_termination_obj] /\
                         Forall is_event before) /\
         _termination_future s = Some last /\ _termination_q s = []
     | Finished =>
         (exists before, processed = before ++ [_termination_obj] /\
                         Forall is_event before) /\
         _termination_future s = Some last /\ _termination_q s = [None]
     end).

(** What a call on the node at [p] or on nodes below it may change in
    the accumulators: nothing when the item is the termination signal,
    and nothing outside the sub-tree otherwise. *)
Definition keeps_results (outside : path -> Prop) (termination : bool)
    (st st' : Store) : Prop :=
  (termination = true -> _result st' = _result st) /\
  (forall q : path, outside q -> _result st' !! q = _result st !! q).

Definition result_frame (n : Flow) : Prop :=
  forall p it st r st',
    _do n p it st = Ok (r, st') ->
    keeps_results (fun q => q <> p /\ ~ below p q) (is_termination it) st st'.

(** ** More runs of a source *)




(** The source of a finished run of [sum_outlets], and a call of [emit]
    on it. *)
Definition finished_sum_source : Source :=
  mkSource sum_outlets default_termination_result_fn 1 [] [None] None
    (Some (PyInt 3)) Finished after_first_run.

Definition late_emit : list Label :=
  [EmitEnter (Ev (int_event 9)); EmitPut (Ev (int_event 9)); EmitReturn].

(** A run that fails on its second event: [positive] raises on a
    string. *)
Definition failing_outlets : list Flow :=
  [UnaryFunctionFlow Map positive default_termination_result_fn
     [Reduce (PyList []) list_append]].


(** ** A node of one of the three classes piped into a fold node *)

(** The payloads a node of class [cls] forwards for the payload [x] once
    its function has returned [fn_result], in order; and the same from
    the call of the function on. *)
Definition forwarded_of (cls : UnaryClass) (x fn_result : PyVal) : Res (list PyVal) :=
  match cls with
  | Map => Ok [fn_result]
  | Filter => Ok (if truthy fn_result then [x] else [])
  | FlatMap => py_iter fn_result
  end.

Definition forwarded_for (cls : UnaryClass) (fn : PyVal -> Res PyVal) (x : PyVal)
  : Res (list PyVal) :=
  match fn x with
  | Raise ex => Raise ex
  | Ok fn_result => forwarded_of cls x fn_result
  end.

Fixpoint forwarded_for_all (cls : UnaryClass) (fn : PyVal -> Res PyVal)
    (xs : list PyVal) : Res (list PyVal) :=
  match xs with
  | [] => Ok []
  | x :: rest =>
      match forwarded_for cls fn x with
      | Raise ex => Raise ex
      | Ok ys =>
          match forwarded_for_all cls fn rest with
          | Raise ex => Raise ex
          | Ok zs => Ok (ys ++ zs)
          end
      end
  end.

Definition unary_then_reduce (cls : UnaryClass) (fn : PyVal -> Res PyVal)
    (comb : Combiner) (inital_value : PyVal) (g : PyVal -> PyVal -> Res PyVal)
  : list Flow :=
  [UnaryFunctionFlow cls fn comb [Reduce inital_value g]].

(** ** More about the runs of a [JoinWithHttp] node *)

Module JoinWithHttpRuns.
Import JoinWithHttp.

(** What [__init__] sets and nothing assigns afterwards. *)
Definition wiring (s : t) :=
  (position s, _request_builder s, _join_from_response s, _max_in_flight s,
   _termination_result_fn s, _outlets s).

(** The bound of [asyncio.Queue(max_in_flight)]: a positive bound is
    never exceeded, and without one no call is suspended in [put]. *)
Definition bounded (s : t) (c : Caller) : Prop :=
  ((0 < _max_in_flight s)%Z -> (Z.of_nat (length (_q s)) <= _max_in_flight s)%Z) /\
  ((_max_in_flight s <= 0)%Z -> forall job, c <> BlockedInPut job).

Definition failed (w : Worker) : Prop := exists ex, w = Done (Raise ex).

(** What the outlets have received since [st0], as long as the worker
    has not failed: the events forwarded, in order, and then the
    termination signal if the call of [_do] that carried it has run
    [_do_downstream]. *)
Definition delivered (st0 : Store) (s : t) (c : Caller) : Prop :=
  ~ failed (_worker_awaitable s) ->
  forall j, j < length (_outlets s) ->
    exists tail,
      received (position s ++ [j]) (nodes s) =
      received (position s ++ [j]) st0 ++ map Ev (forwarded s) ++ tail /\
      (tail = [] \/
       tail = [_termination_obj] /\ _worker_awaitable s = Done (Ok tt) /\ c = NoCall).

(** The response of a job was received and joined without an
    exception. *)
Definition joined_well (s : t) (job : nat * Event) : Prop :=
  exists response v,
    tasks s !! job.1 = Some (Some (Ok response)) /\
    _join_from_response s (element job.2) response = Ok v.

Definition survived (s : t) : Prop :=
  ~ failed (_worker_awaitable s) ->
  Forall (joined_well s) (take (consumed s) (issued s)).

(** A node with room for one job; three events emitted while the first
    request is pending. *)
Definition narrow_node : t :=
  __init__ [0] JoinExample.example_builder JoinExample.example_join 1
    default_termination_result_fn [Reduce (PyList []) list_append] empty_store.

Definition crowded_trace : list Label :=
  [Call (Ev (int_event 10)); WorkerGet; Call (Ev (int_event 11));
   Call (Ev (int_event 12))].

(** What a step leaves alone unless it is a step of the worker, the
    creation of a request task or its resolution, or the forwarding of
    the termination signal. *)
Definition history (s : t) :=
  (tasks s, nodes s, issued s, consumed s, forwarded s, _worker_awaitable s).

(** The transport fails on the first request of [JoinExample.example_node];
    then one more event is emitted and the second request is answered. *)
Definition broken_trace : list Label :=
  [Call (Ev (int_event 10)); Call (Ev (int_event 11)); WorkerGet;
   Resolve 0 (Raise (Exception "ClientError")); WorkerConsume].

Definition after_broken_trace : list Label :=
  [Call (Ev (int_event 12)); Resolve 1 (Ok (HttpResponse.mk 200 "b"))].

(** After the run of [JoinExample.example_trace], one more event and one
    more termination signal. *)
Definition after_example_trace : list Label :=
  [Call (Ev (int_event 13)); Call _termination_obj].

(** The request tasks issued exist. *)
Definition issued_exist (s : t) : Prop :=
  Forall (fun job : nat * Event => job.1 < length (tasks s)) (issued s).

(** [narrow_node] with a call suspended in [put] and a worker that awaits
    the answer to its first request. *)
Definition suspended_trace : list Label :=
  [Call (Ev (int_event 10)); WorkerGet; Call (Ev (int_event 11));
   Call _termination_obj].


End JoinWithHttpRuns.

(** ** [NeedsV3ioAccess] *)

Module NeedsV3ioAccess.

(** The attributes [__init__] sets. *)
Record t : Type := mk {
  _webapi_url : string;
  _get_item_headers : gmap string string;
  _put_item_headers : gmap string string
}.

(** [bool(x)] for an argument that is [None] or a string. *)
Definition given (x : option string) : bool :=
  match x with
  | Some (String _ _) => true
  | _ => false
  end.

(** [if not x: x = os.getenv(name)]; [environ] is [os.environ]. *)
Definition or_getenv (environ : gmap string string) (x : option string)
    (name : string) : option string :=
  if given x then x else environ !! name.

(** [webapi.startswith(...)] of the two schemes. *)
Definition has_scheme (webapi : string) : bool :=
  String.prefix "http://" webapi || String.prefix "https://" webapi.

(** [NeedsV3ioAccess.__init__(self, webapi=None, access_key=None)] *)
Definition __init__ (environ : gmap string string) (webapi access_key : option string)
  : Res t :=
  match or_getenv environ webapi "V3IO_API" with
  | Some (String _ _ as webapi) =>
      let webapi := if has_scheme webapi then webapi else "http://" +:+ webapi in
      match or_getenv environ access_key "V3IO_ACCESS_KEY" with
      | Some (String _ _ as access_key) =>
          Ok (mk webapi
                (<["X-v3io-function" := "GetItem"]>
                   (<["X-v3io-session-key" := access_key]> ∅))
                (<["X-v3io-function" := "PutItem"]>
                   (<["X-v3io-session-key" := access_key]> ∅)))
      | _ => Raise AssertionError
      end
  | _ => Raise AssertionError
  end.

(** The value an argument stands for: itself, or the variable of the
    environment when it is [None] or empty. *)
Definition effective (environ : gmap string string) (x : option string)
    (name : string) (v : string) : Prop :=
  or_getenv environ x name = Some v /\ v <> EmptyString.

End NeedsV3ioAccess.

(** ** [JoinWithV3IOTable] *)

(** [V3ioError(msg)]: an exception of a class of its own, rendered with
    the name of the class before its message. *)
Definition V3ioError (msg : string) : Exn := Exception ("V3ioError: " +:+ msg).

Module JoinWithV3IOTable.

Section Init.
(** What [NeedsV3ioAccess.__init__] has set on the object. *)
Variable access : NeedsV3ioAccess.t.
(** The object [_v3io_parse_response] returns, and the function itself
    (JSON decoding and the conversion of the typed attributes). *)
Variable ResponseObject : Type.
Variable _v3io_parse_response : string -> Res ResponseObject.
Variable key_extractor : PyVal -> Res PyVal.
Variable join_function : PyVal -> ResponseObject -> Res PyVal.
Variable table_path : string.
(** [json.dumps({'AttributesToGet': attributes})] *)
Variable request_body : string.
(** [format(key, '')], the rendering of the key inside the f-string. *)
Variable format : PyVal -> string.

(** The closure [request_builder]. *)
Definition request_builder (event : PyVal) : Res HttpRequest.t :=
  match key_extractor event with
  | Raise ex => Raise ex
  | Ok key =>
      Ok (HttpRequest.mk "PUT"
            (NeedsV3ioAccess._webapi_url access +:+ "/" +:+ table_path +:+ "/" +:+
             format key)
            (PyStr request_body) (NeedsV3ioAccess._get_item_headers access))
  end.

(** The closure [join_from_response]. *)
Definition join_from_response (element : PyVal) (response : HttpResponse.t)
  : Res PyVal :=
  if (HttpResponse.status response =? 200)%Z then
    match _v3io_parse_response (HttpResponse.body response) with
    | Raise ex => Raise ex
    | Ok response_object => join_function element response_object
    end
  else if (HttpResponse.status response =? 404)%Z then Ok PyNone
  else
    Raise (V3ioError ("Failed to get item. Response status code was " +:+
                      pretty (HttpResponse.status response) +:+ ": " +:+
                      HttpResponse.body response)).

(** [JoinWithV3IOTable.__init__], after [NeedsV3ioAccess.__init__]: the
    call of [JoinWithHttp.__init__]. *)
Definition __init__ (position : path) (max_in_flight : Z)
    (termination_result_fn : Combiner) (outlets : list Flow) (nodes : Store)
  : JoinWithHttp.t :=
  JoinWithHttp.__init__ position request_builder join_from_response max_in_flight
    termination_result_fn outlets nodes.

(** What the node does with the job of a request: it drops the event
    when the item is missing (404), and forwards what [join_function]
    returns for the parsed item (200), unless that is [None]. *)
Definition answered (s : JoinWithHttp.t) (job : nat * Event) : Prop :=
  exists response,
    JoinWithHttp.tasks s !! job.1 = Some (Some (Ok response)) /\
    ((HttpResponse.status response = 404%Z /\ JoinWithHttp.joined_event s job = None) \/
     (HttpResponse.status response = 200%Z /\
      exists response_object v,
        _v3io_parse_response (HttpResponse.body response) = Ok response_object /\
        join_function (element job.2) response_object = Ok v /\
        JoinWithHttp.joined_event s job =
        match v with
        | PyNone => None
        | _ => Some (mkEvent v (key job.2) (time job.2))
        end)).

End Init.

(** A table that holds the key [1] only; the item of a key is the key
    itself, and the join keeps the item. *)
Definition example_table : JoinWithHttp.t :=
  __init__ (NeedsV3ioAccess.mk "http://host" ∅ ∅) PyVal
    (fun body => Ok (PyStr body)) (fun x => Ok x) (fun _ item => Ok item)
    "table" "{}" (fun _ => "key") [0] 3 default_termination_result_fn
    [Reduce (PyList []) list_append] empty_store.

Definition example_table_trace : list JoinWithHttp.Label :=
  [JoinWithHttp.Call (Ev (int_event 1)); JoinWithHttp.Call (Ev (int_event 2));
   JoinWithHttp.WorkerGet;
   JoinWithHttp.Resolve 0 (Ok (HttpResponse.mk 200 "one"));
   JoinWithHttp.Resolve 1 (Ok (HttpResponse.mk 404 "missing"));
   JoinWithHttp.WorkerConsume; JoinWithHttp.WorkerGet; JoinWithHttp.WorkerConsume].

End JoinWithV3IOTable.

(** ** [build_flow] *)

(** [Flow.to(self, outlet)] on a node of the tree, and [Reduce.to], which
    raises.  The value is the node once the outlet is appended (the
    method returns the outlet, which [build_flow] does not use). *)
Definition Flow_to (n outlet : Flow) : Res Flow :=
  match n with
  | UnaryFunctionFlow cls fn termination_result_fn outlets =>
      Ok (UnaryFunctionFlow cls fn termination_result_fn (outlets ++ [outlet]))
  | Reduce _ _ => Raise ValueError
  end.

(** The argument of [build_flow]: a list, empty or starting with a node,
    whose further steps are nodes or nested lists of the same kind.  The
    node objects of a list are distinct objects. *)
Inductive Step : Type :=
| Node (n : Flow)
| Branch (steps : Steps)
with Steps : Type :=
| Empty
| Pipeline (first : Flow) (rest : list Step).

Section Wire.
(** [build_flow], for the nested lists. *)
Variable build_flow : Steps -> Res Flow.

(** [for next_step in steps[1:]], from the step [cur_step]: the value is
    the object [cur_step] as the loop leaves it, the steps that follow
    attached below it. *)
Fixpoint wire (cur_step : Flow) (rest : list Step) : Res Flow :=
  match rest with
  | [] => Ok cur_step
  | Branch next_step :: rest' =>
      match build_flow next_step with
      | Raise ex => Raise ex
      | Ok outlet =>
          match Flow_to cur_step outlet with
          | Raise ex => Raise ex
          | Ok cur_step' => wire cur_step' rest'
          end
      end
  | Node next_step :: rest' =>
      match Flow_to cur_step next_step with
      | Raise ex => Raise ex
      | Ok _ =>
          match wire next_step rest' with
          | Raise ex => Raise ex
          | Ok next_step' => Flow_to cur_step next_step'
          end
      end
  end.
End Wire.

(** [build_flow(steps)]; [steps[0]] of an empty list raises. *)
Fixpoint build_flow (steps : Steps) : Res Flow :=
  match steps with
  | Empty => Raise IndexError
  | Pipeline first rest => wire build_flow first rest
  end.

(** [build_flow([source, ...])]: the same loop from a source, on which
    [to] never raises. *)
Fixpoint build_flow_source (source : Source) (rest : list Step) : Res Source :=
  match rest with
  | [] => Ok source
  | Branch next_step :: rest' =>
      match build_flow next_step with
      | Raise ex => Raise ex
      | Ok outlet => build_flow_source (to source outlet) rest'
      end
  | Node next_step :: rest' =>
      match wire build_flow next_step rest' with
      | Raise ex => Raise ex
      | Ok next_step' => Ok (to source next_step')
      end
  end.

(** The number of nodes of a tree, and of the nodes given in a list of
    steps. *)
Definition node_count (n : Flow) : nat := length (positions n []).

Section Given.
Variable given : Steps -> nat.

Fixpoint given_in (rest : list Step) : nat :=
  match rest with
  | [] => 0
  | Node n :: rest' => node_count n + given_in rest'
  | Branch steps :: rest' => given steps + given_in rest'
  end.
End Given.

Fixpoint given (steps : Steps) : nat :=
  match steps with
  | Empty => 0
  | Pipeline first rest => node_count first + given_in given rest
  end.

(** [[Map(lambda x: x)] * k + [Reduce(inital_value, g)]], as steps. *)
Definition row_steps (comb : Combiner) (k : nat) (inital_value : PyVal)
    (g : PyVal -> PyVal -> Res PyVal) : list Step :=
  replicate k (Node (UnaryFunctionFlow Map identity comb [])) ++
  [Node (Reduce inital_value g)].

(** What the induction on steps carries. *)
Definition builds_given (steps : Steps) : Prop :=
  match build_flow steps with
  | Ok flow => node_count flow = given steps
  | Raise ex => ex = IndexError \/ ex = ValueError
  end.

Definition branches_build_given (rest : list Step) : Prop :=
  Forall (fun step => match step with
                      | Node _ => True
                      | Branch steps => builds_given steps
                      end) rest.

(** ** Several threads calling [emit]

    [emit] can be called from any number of threads.  Each of them stands
    somewhere in [_emit], and a step of the system is a step of one of
    them or of the loop thread ([step] above, which runs one producer
    with the loop thread).  A step is told with the index of a producer:
    the one that moves, or, for a step of the loop thread, any one, which
    the step leaves where it is. *)
Inductive threads_step :
  Source * list Producer -> nat * Label -> Source * list Producer -> Prop :=
| threads_step_at s prs i pr l s' pr' :
    prs !! i = Some pr ->
    step (s, pr) l (s', pr') ->
    threads_step (s, prs) (i, l) (s', <[i := pr']> prs).

Inductive threads_exec :
  Source * list Producer -> list (nat * Label) -> Source * list Producer -> Prop :=
| threads_exec_nil c : threads_exec c [] c
| threads_exec_snoc c tr c' l c'' :
    threads_exec c tr c' -> threads_step c' l c'' -> threads_exec c (tr ++ [l]) c''.

(** A positive bound of the admission queue is kept. *)
Definition within_bound (s : Source) : Prop :=
  (0 < buffer_size s)%Z -> (Z.of_nat (length (_q s)) <= buffer_size s)%Z.

(** Two producers and a run of [failing_outlets] on a queue of one
    place: the first producer has emitted two items, of which the loop
    holds the first, and both producers are suspended in the put of one
    more item, the queue being full. *)
Definition two_blocked_run : list (nat * Label) :=
  [(0, EmitEnter (Ev (mkEvent (PyStr "a") PyNone (PyInt 0))));
   (0, EmitPut (Ev (mkEvent (PyStr "a") PyNone (PyInt 0)))); (0, EmitReturn);
   (0, LoopGet);
   (0, EmitEnter (Ev (int_event 4))); (0, EmitPut (Ev (int_event 4)));
   (0, EmitReturn);
   (0, EmitEnter (Ev (int_event 5))); (1, EmitEnter (Ev (int_event 6)))].

Definition two_blocked : Source :=
  mkSource failing_outlets default_termination_result_fn 1 [Ev (int_event 4)] []
    None None (Looping (Some (Ev (mkEvent (PyStr "a") PyNone (PyInt 0)))))
    empty_store.

Definition two_suspended : list Producer :=
  [Putting (Ev (int_event 5)); Putting (Ev (int_event 6))].

(** * Properties *)

(** ** The monad *)

Lemma bind_Ok {A B} (m : M A) (k : A -> M B) st b st' :
  bind m k st = Ok (b, st') <->
  exists a st1, m st = Ok (a, st1) /\ k a st1 = Ok (b, st').
Proof.
  unfold bind. split.
  - destruct (m st) as [[a st1]|ex]; [|discriminate]. eauto.
  - intros (a & st1 & -> & Hk). exact Hk.
Qed.

Lemma lift_Ok {A} (r : Res A) st a st' :
  lift r st = Ok (a, st') <-> r = Ok a /\ st' = st.
Proof.
  unfold lift. destruct r; split; intros H.
  - injection H as -> ->. auto.
  - destruct H as [[= ->] ->]. reflexivity.
  - discriminate.
  - destruct H as [[=] _].
Qed.

Lemma ret_Ok {A} (a : A) st b st' :
  ret a st = Ok (b, st') <-> b = a /\ st' = st.
Proof.
  unfold ret. split; [intros [= <- <-]; auto | intros [-> ->]; reflexivity].
Qed.

(** Splits a successful run of a block into the successful runs of its
    statements. *)
Ltac inv_run H :=
  repeat match type of H with
  | bind _ _ _ = Ok _ =>
      let a := fresh "a" in let st := fresh "st" in
      let H1 := fresh "Hrun" in
      apply bind_Ok in H; destruct H as (a & st & H1 & H)
  end.

(** ** Induction on trees *)

Lemma Flow_nested_ind (P : Flow -> Prop) :
  (forall cls fn comb outlets,
      Forall P outlets -> P (UnaryFunctionFlow cls fn comb outlets)) ->
  (forall inital_value fn, P (Reduce inital_value fn)) ->
  forall n, P n.
Proof.
  intros Hunary Hreduce.
  fix IH 1. intros [cls fn comb outlets | inital_value fn].
  - apply Hunary. induction outlets as [|o outlets IHo]; constructor.
    + apply IH.
    + exact IHo.
  - apply Hreduce.
Qed.

(** ** What a call of [_do] adds to the history of calls *)

Lemma below_trans p q r : below p q -> below q r -> below p r.
Proof.
  intros (i & s & ->) (j & u & ->). exists i, (s ++ j :: u).
  rewrite <- !app_assoc. reflexivity.
Qed.

Lemma below_outlet p i : below p (p ++ [i]).
Proof. exists i, []. reflexivity. Qed.

Lemma below_neq p q : below p q -> q <> p.
Proof.
  intros (i & s & ->) H. apply (f_equal length) in H.
  rewrite length_app in H. simpl in H. lia.
Qed.

Lemma below_outlet_inv p i j q : below (p ++ [i]) q -> q = p ++ [j] -> False.
Proof.
  intros (k & s & ->) H. rewrite <- app_assoc in H.
  apply app_inv_head in H. simpl in H. destruct s; discriminate.
Qed.

Lemma below_other_outlet p i j q : below (p ++ [i]) q -> below (p ++ [j]) q -> i = j.
Proof.
  intros (k & s & ->) (k' & s' & H). rewrite <- !app_assoc in H.
  apply app_inv_head in H. simpl in H. congruence.
Qed.

Lemma adds_calls_below_refl p b st : adds_calls_below p b st st.
Proof. exists []. rewrite app_nil_r. auto. Qed.

Lemma adds_calls_below_trans p b st1 st2 st3 :
  adds_calls_below p b st1 st2 -> adds_calls_below p b st2 st3 ->
  adds_calls_below p b st1 st3.
Proof.
  intros (n1 & E1 & F1) (n2 & E2 & F2). exists (n1 ++ n2). split.
  - rewrite E2, E1, app_assoc. reflexivity.
  - apply Forall_app; auto.
Qed.

Lemma adds_calls_outlet p i it st st' :
  adds_calls (p ++ [i]) it st st' -> adds_calls_below p (is_termination it) st st'.
Proof.
  intros (new & E & F). exists ((p ++ [i], it) :: new). split; [exact E|].
  constructor.
  - split; [apply below_outlet | reflexivity].
  - eapply Forall_impl; [exact F|]. intros c [Hb Hk]. split; [|exact Hk].
    eapply below_trans; [apply below_outlet | exact Hb].
Qed.

Lemma received_eq p st : received p st = received_in p (calls st).
Proof. reflexivity. Qed.

Lemma received_in_app p l1 l2 :
  received_in p (l1 ++ l2) = received_in p l1 ++ received_in p l2.
Proof. unfold received_in. rewrite filter_app, fmap_app. reflexivity. Qed.

Lemma received_in_none p l :
  Forall (fun c => c.1 <> p) l -> received_in p l = [].
Proof.
  unfold received_in. induction 1 as [|c l Hc _ IH]; [reflexivity|].
  rewrite filter_cons_False by exact Hc. exact IH.
Qed.

Lemma received_in_kind p b l :
  Forall (fun c => is_termination c.2 = b) l ->
  Forall (fun it => is_termination it = b) (received_in p l).
Proof.
  unfold received_in. induction 1 as [|c l Hc _ IH]; [constructor|].
  destruct (decide (c.1 = p)) as [E|E].
  - rewrite filter_cons_True by exact E. constructor; assumption.
  - rewrite filter_cons_False by exact E. exact IH.
Qed.

(** The node called gets the item once more; the nodes that are neither
    it nor below it get nothing. *)
Lemma adds_calls_received p it st st' :
  adds_calls p it st st' -> received p st' = received p st ++ [it].
Proof.
  intros (new & E & F). rewrite !received_eq, E, received_in_app.
  f_equal. change ((p, it) :: new) with ([(p, it)] ++ new).
  rewrite received_in_app, (received_in_none p new).
  - unfold received_in. rewrite filter_cons_True by reflexivity. reflexivity.
  - eapply Forall_impl; [exact F|]. intros c [Hb _]. apply below_neq. exact Hb.
Qed.

Lemma adds_calls_received_other p q it st st' :
  adds_calls p it st st' -> q <> p -> ~ below p q ->
  received q st' = received q st.
Proof.
  intros (new & E & F) Hne Hnb. rewrite !received_eq, E, received_in_app.
  rewrite (received_in_none q ((p, it) :: new)); [apply app_nil_r|].
  constructor; [simpl; congruence|].
  eapply Forall_impl; [exact F|]. intros c [Hb _] Hc. apply Hnb.
  rewrite <- Hc. exact Hb.
Qed.


Lemma adds_calls_below_received_other p b q st st' :
  adds_calls_below p b st st' -> ~ below p q -> received q st' = received q st.
Proof.
  intros (new & E & F) Hnb. rewrite !received_eq, E, received_in_app.
  rewrite (received_in_none q new); [apply app_nil_r|].
  eapply Forall_impl; [exact F|]. intros c [Hb _] Hc. apply Hnb.
  rewrite <- Hc. exact Hb.
Qed.

(** ** Unfolding [_do] *)

Lemma do_unary cls fn comb outlets p it :
  _do (UnaryFunctionFlow cls fn comb outlets) p it =
  (record_call p it ;;
   match it with
   | _termination_obj => _do_downstream comb p outlets _termination_obj
   | Ev event =>
       fn_result <- lift (fn (element event)) ;;
       _do_internal (_do_downstream comb p outlets) cls event fn_result ;;
       ret PyNone
   end).
Proof. reflexivity. Qed.

Lemma do_reduce inital_value fn p it :
  _do (Reduce inital_value fn) p it =
  (record_call p it ;;
   match it with
   | _termination_obj => get_result p inital_value
   | Ev event =>
       acc <- get_result p inital_value ;;
       res <- lift (fn acc (element event)) ;;
       set_result p res ;;
       ret PyNone
   end).
Proof. reflexivity. Qed.

Lemma downstream_termination comb p o rest :
  _do_downstream comb p (o :: rest) _termination_obj =
  (termination_result <- _do o (p ++ [0]) _termination_obj ;;
   combine_from _do comb p rest 1 termination_result).
Proof. reflexivity. Qed.

Lemma downstream_event comb p outlets event :
  _do_downstream comb p outlets (Ev event) =
  (broadcast _do p outlets 0 event ;; ret PyNone).
Proof. reflexivity. Qed.

Arguments _do_downstream : simpl never.
Arguments _do : simpl never.

(** ** Every call of [_do] adds its own call and calls below it *)

Lemma record_call_Ok p it st u st' :
  record_call p it st = Ok (u, st') ->
  calls st' = calls st ++ [(p, it)] /\ _result st' = _result st.
Proof. intros [= _ <-]. auto. Qed.

Lemma combine_from_adds comb p outlets :
  Forall calls_ok outlets ->
  forall i acc st r st',
    combine_from _do comb p outlets i acc st = Ok (r, st') ->
    adds_calls_below p true st st'.
Proof.
  induction 1 as [|o outlets Ho _ IH]; intros i acc st r st' H; simpl in H.
  - apply ret_Ok in H as [_ ->]. apply adds_calls_below_refl.
  - inv_run H. apply lift_Ok in Hrun0 as [_ ->].
    eapply adds_calls_below_trans; [|eapply IH; exact H].
    apply Ho, adds_calls_outlet in Hrun. exact Hrun.
Qed.

Lemma broadcast_adds p outlets :
  Forall calls_ok outlets ->
  forall i event st u st',
    broadcast _do p outlets i event st = Ok (u, st') ->
    adds_calls_below p false st st'.
Proof.
  induction 1 as [|o outlets Ho _ IH]; intros i event st u st' H; simpl in H.
  - apply ret_Ok in H as [_ ->]. apply adds_calls_below_refl.
  - inv_run H.
    eapply adds_calls_below_trans; [|eapply IH; exact H].
    apply Ho, adds_calls_outlet in Hrun. exact Hrun.
Qed.

Lemma downstream_adds comb p outlets it st r st' :
  Forall calls_ok outlets ->
  _do_downstream comb p outlets it st = Ok (r, st') ->
  adds_calls_below p (is_termination it) st st'.
Proof.
  intros Hall H. destruct it as [|event].
  - destruct outlets as [|o rest]; [discriminate|].
    rewrite downstream_termination in H. inv_run H.
    apply Forall_cons in Hall as [Ho Hrest].
    eapply adds_calls_below_trans; [|eapply combine_from_adds; eassumption].
    apply Ho, adds_calls_outlet in Hrun. exact Hrun.
  - rewrite downstream_event in H. inv_run H. apply ret_Ok in H as [_ ->].
    eapply broadcast_adds; eassumption.
Qed.

Lemma forward_each_adds comb p outlets event :
  Forall calls_ok outlets ->
  forall mapped_elements st u st',
    forward_each (_do_downstream comb p outlets) event mapped_elements st = Ok (u, st') ->
    adds_calls_below p false st st'.
Proof.
  intros Hall. induction mapped_elements as [|x xs IH]; intros st u st' H; simpl in H.
  - apply ret_Ok in H as [_ ->]. apply adds_calls_below_refl.
  - inv_run H. eapply adds_calls_below_trans; [|eapply IH; exact H].
    eapply (downstream_adds comb _ _ (Ev _)); eassumption.
Qed.

Lemma do_internal_adds comb p outlets cls event fn_result st u st' :
  Forall calls_ok outlets ->
  _do_internal (_do_downstream comb p outlets) cls event fn_result st = Ok (u, st') ->
  adds_calls_below p false st st'.
Proof.
  intros Hall H. destruct cls; simpl in H.
  - inv_run H. apply ret_Ok in H as [_ ->].
    eapply (downstream_adds comb _ _ (Ev _)); eassumption.
  - destruct (truthy fn_result).
    + inv_run H. apply ret_Ok in H as [_ ->].
      eapply (downstream_adds comb _ _ (Ev _)); eassumption.
    + apply ret_Ok in H as [_ ->]. apply adds_calls_below_refl.
  - inv_run H. apply lift_Ok in Hrun as [_ ->].
    eapply forward_each_adds; eassumption.
Qed.

Lemma adds_calls_intro p it st st1 st' :
  calls st1 = calls st ++ [(p, it)] ->
  adds_calls_below p (is_termination it) st1 st' ->
  adds_calls p it st st'.
Proof.
  intros E (new & E' & F). exists new. split; [|exact F].
  rewrite E', E, <- app_assoc. reflexivity.
Qed.

Lemma do_adds_calls n : calls_ok n.
Proof.
  induction n as [cls fn comb outlets IH | inital_value fn] using Flow_nested_ind;
    intros p it st r st' H.
  - rewrite do_unary in H. inv_run H. apply record_call_Ok in Hrun as [E _].
    eapply adds_calls_intro; [exact E|]. destruct it as [|event].
    + eapply (downstream_adds comb _ _ _termination_obj); eassumption.
    + inv_run H. apply lift_Ok in Hrun as [_ ->]. apply ret_Ok in H as [_ ->].
      eapply do_internal_adds; eassumption.
  - rewrite do_reduce in H. inv_run H. apply record_call_Ok in Hrun as [E _].
    eapply adds_calls_intro; [exact E|]. destruct it as [|event].
    + injection H as _ <-. apply adds_calls_below_refl.
    + inv_run H. injection Hrun as _ <-. apply lift_Ok in Hrun0 as [_ ->].
      apply ret_Ok in H as [_ ->]. injection Hrun1 as _ <-.
      exists []. rewrite app_nil_r. auto.
Qed.

Lemma all_calls_ok outlets : Forall calls_ok outlets.
Proof. apply Forall_forall. intros o _. apply do_adds_calls. Qed.

(** ** What the outlets of a node receive *)

Lemma outlet_neq (p : path) (i j : nat) : i <> j -> p ++ [j] <> p ++ [i].
Proof. intros Hne H. apply app_inv_head in H. congruence. Qed.

Lemma outlet_not_below (p : path) (i j : nat) : ~ below (p ++ [i]) (p ++ [j]).
Proof. intros H. eapply below_outlet_inv; [exact H | reflexivity]. Qed.

Lemma broadcast_received p outlets :
  forall i event st u st',
    broadcast _do p outlets i event st = Ok (u, st') ->
    forall j,
      received (p ++ [j]) st' =
      received (p ++ [j]) st ++
      (if decide (i <= j < i + length outlets) then [Ev event] else []).
Proof.
  induction outlets as [|o outlets IH]; intros i event st u st' H j; simpl in H.
  - apply ret_Ok in H as [_ ->]. simpl. case_decide; [lia|]. rewrite app_nil_r. reflexivity.
  - inv_run H. apply do_adds_calls in Hrun. rewrite (IH _ _ _ _ _ H j). simpl.
    destruct (decide (j = i)) as [->|Hne].
    + rewrite (adds_calls_received _ _ _ _ Hrun).
      repeat case_decide; try lia. rewrite app_nil_r. reflexivity.
    + rewrite (adds_calls_received_other _ (p ++ [j]) _ _ _ Hrun);
        [|apply outlet_neq; congruence | apply outlet_not_below].
      repeat case_decide; try lia; reflexivity.
Qed.

Lemma downstream_event_received comb p outlets event st r st' :
  _do_downstream comb p outlets (Ev event) st = Ok (r, st') ->
  forall j, j < length outlets ->
    received (p ++ [j]) st' = received (p ++ [j]) st ++ [Ev event].
Proof.
  intros H j Hj. rewrite downstream_event in H. inv_run H.
  apply ret_Ok in H as [_ ->].
  rewrite (broadcast_received _ _ _ _ _ _ _ Hrun j).
  case_decide; [reflexivity | lia].
Qed.

Lemma forward_each_received comb p outlets event :
  forall mapped_elements st u st',
    forward_each (_do_downstream comb p outlets) event mapped_elements st = Ok (u, st') ->
    forall j, j < length outlets ->
      received (p ++ [j]) st' =
      received (p ++ [j]) st ++
      map (fun x => Ev (mkEvent x (key event) (time event))) mapped_elements.
Proof.
  induction mapped_elements as [|x xs IH]; intros st u st' H j Hj; simpl in H.
  - apply ret_Ok in H as [_ ->]. simpl. rewrite app_nil_r. reflexivity.
  - inv_run H. rewrite (IH _ _ _ H j Hj).
    rewrite (downstream_event_received _ _ _ _ _ _ _ Hrun j Hj).
    rewrite <- app_assoc. reflexivity.
Qed.

(** ** The default combiner *)

Lemma combine_from_default p outlets :
  forall i acc st r st',
    outlets <> [] ->
    combine_from _do default_termination_result_fn p outlets i acc st = Ok (r, st') ->
    r = PyNone.
Proof.
  induction outlets as [|o outlets IH]; intros i acc st r st' Hne H; [congruence|].
  simpl in H. inv_run H. apply lift_Ok in Hrun0 as [[= <-] ->].
  destruct outlets as [|o' outlets'].
  - simpl in H. apply ret_Ok in H as [-> _]. reflexivity.
  - eapply IH; [discriminate | exact H].
Qed.

Lemma termination_results_cons p o rest i st r st1 rs st' :
  _do o (p ++ [i]) _termination_obj st = Ok (r, st1) ->
  termination_results p rest (S i) st1 = Ok (rs, st') ->
  termination_results p (o :: rest) i st = Ok (r :: rs, st').
Proof.
  intros H1 H2. change (termination_results p (o :: rest) i st) with
    (bind (_do o (p ++ [i]) _termination_obj)
       (fun r => bind (termination_results p rest (S i)) (fun rs => ret (r :: rs))) st).
  unfold bind at 1. rewrite H1. unfold bind. rewrite H2. reflexivity.
Qed.

Lemma combine_from_results p outlets :
  forall i acc st r st',
    combine_from _do default_termination_result_fn p outlets i acc st = Ok (r, st') ->
    exists rs, termination_results p outlets i st = Ok (rs, st') /\
               length rs = length outlets.
Proof.
  induction outlets as [|o outlets IH]; intros i acc st r st' H; simpl in H.
  - apply ret_Ok in H as [_ ->]. exists []. auto.
  - inv_run H. apply lift_Ok in Hrun0 as [_ ->].
    destruct (IH _ _ _ _ _ H) as (rs & Hrs & Hlen). exists (a :: rs). split.
    + eapply termination_results_cons; eassumption.
    + simpl. congruence.
Qed.

(** C1, as stated, fails: under the default combiner a node with the two
    outlets [Reduce(1, +)] and [Reduce(2, +)] returns [None] for the
    termination signal, while its last outlet returned [2]. *)
Lemma default_combiner_drops_last_result :
  exists st,
    _do_downstream default_termination_result_fn [] two_reduces _termination_obj
      empty_store = Ok (PyNone, st) /\
    termination_results [] two_reduces 0 empty_store = Ok ([PyInt 1; PyInt 2], st) /\
    last [PyInt 1; PyInt 2] <> Some PyNone.
Proof.
  eexists. split; [|split].
  - vm_compute. reflexivity.
  - vm_compute. reflexivity.
  - discriminate.
Qed.

(** C1, amended: for every node with two or more outlets whose combiner
    is the default one ([lambda x, y: None]), the combined termination
    result is [None]; every outlet has been asked for its result, in
    outlet order, and none of the results is kept.  This holds of
    [_do_downstream], which the source runs, and of [_do] of a node. *)
Theorem default_combiner_returns_none (p : path) (outlets : list Flow) :
  2 <= length outlets ->
  (forall st r st',
      _do_downstream default_termination_result_fn p outlets _termination_obj st
        = Ok (r, st') ->
      r = PyNone /\
      exists rs, termination_results p outlets 0 st = Ok (rs, st') /\
                 length rs = length outlets) /\
  (forall cls fn st r st',
      _do (UnaryFunctionFlow cls fn default_termination_result_fn outlets) p
        _termination_obj st = Ok (r, st') ->
      r = PyNone).
Proof.
  intros Hlen.
  assert (Hdown : forall st r st',
      _do_downstream default_termination_result_fn p outlets _termination_obj st
        = Ok (r, st') ->
      r = PyNone /\
      exists rs, termination_results p outlets 0 st = Ok (rs, st') /\
                 length rs = length outlets).
  { intros st r st' H. destruct outlets as [|o [|o' rest]]; simpl in Hlen; try lia.
    rewrite downstream_termination in H. inv_run H. split.
    - eapply combine_from_default; [|exact H]. discriminate.
    - destruct (combine_from_results _ _ _ _ _ _ _ H) as (rs & Hrs & Hl).
      exists (a :: rs). split.
      + eapply termination_results_cons; eassumption.
      + simpl in *. congruence. }
  split; [exact Hdown|].
  intros cls fn st r st' H. rewrite do_unary in H. inv_run H.
  eapply Hdown. exact H.
Qed.

Lemma default_combiner_returns_none_witness :
  2 <= length two_reduces /\
  forall st r st',
    _do_downstream default_termination_result_fn [] two_reduces _termination_obj st
      = Ok (r, st') ->
    r = PyNone.
Proof.
  split; [simpl; lia|].
  intros st r st' H.
  destruct (default_combiner_returns_none [] two_reduces) as [Hdown _]; [simpl; lia|].
  apply (Hdown st r st' H).
Defined.

(** ** A node without outlets *)

(** C2 fails on the code: the termination branch of [_do_downstream]
    reads [self._outlets[0]] whatever the number of outlets, so a [Map],
    [Filter] or [FlatMap] without outlets raises [IndexError] on the
    termination signal, and so does a source without outlets. *)
Theorem termination_without_outlets_raises
    (cls : UnaryClass) (fn : PyVal -> Res PyVal) (comb : Combiner) (p : path)
    (st : Store) :
  _do (UnaryFunctionFlow cls fn comb []) p _termination_obj st = Raise IndexError /\
  _do_downstream comb p [] _termination_obj st = Raise IndexError.
Proof. split; reflexivity. Qed.

(** The event branch of the same method accepts a node without outlets. *)
Lemma event_without_outlets_returns (comb : Combiner) (p : path) (event : Event)
    (st : Store) :
  _do_downstream comb p [] (Ev event) st = Ok (PyNone, st).
Proof. reflexivity. Qed.

(** ** [FlatMap] *)

(** C8: when a [FlatMap] node has processed an event, every outlet has
    received one derived event per element of the sequence [f(payload)],
    in the order of the sequence, each with the key and the time of the
    incoming event. *)
Theorem flatmap_forwards_each_element
    (fn : PyVal -> Res PyVal) (comb : Combiner) (outlets : list Flow) (p : path)
    (event : Event) (st : Store) (r : PyVal) (st' : Store) :
  _do (UnaryFunctionFlow FlatMap fn comb outlets) p (Ev event) st = Ok (r, st') ->
  exists fn_result mapped_elements,
    fn (element event) = Ok fn_result /\
    py_iter fn_result = Ok mapped_elements /\
    forall j, j < length outlets ->
      received (p ++ [j]) st' =
      received (p ++ [j]) st ++
      map (fun x => Ev (mkEvent x (key event) (time event))) mapped_elements.
Proof.
  intros H. rewrite do_unary in H. inv_run H.
  apply lift_Ok in Hrun0 as [Hfn ->]. apply ret_Ok in H as [_ ->].
  simpl in Hrun1. inv_run Hrun1. apply lift_Ok in Hrun0 as [Hiter ->].
  exists a0, a2. split; [exact Hfn|]. split; [exact Hiter|].
  intros j Hj. rewrite (forward_each_received _ _ _ _ _ _ _ _ Hrun1 j Hj).
  f_equal. apply record_call_Ok in Hrun as [E _].
  rewrite !received_eq, E, received_in_app.
  rewrite (received_in_none (p ++ [j]) [(p, Ev event)]); [apply app_nil_r|].
  constructor; [|constructor]. simpl. intros Hp.
  apply (f_equal length) in Hp. rewrite length_app in Hp. simpl in Hp. lia.
Qed.

Lemma flatmap_forwards_each_element_witness :
  let event := mkEvent (PyInt 7) (PyStr "k") (PyInt 3) in
  exists st',
    _do (UnaryFunctionFlow FlatMap twice default_termination_result_fn
           [Reduce (PyInt 0) py_add]) [] (Ev event) empty_store = Ok (PyNone, st') /\
    received [0] st' = [Ev event; Ev event].
Proof.
  intros event. eexists. split.
  - vm_compute. reflexivity.
  - destruct (flatmap_forwards_each_element twice default_termination_result_fn
                [Reduce (PyInt 0) py_add] [] event empty_store PyNone _
                ltac:(vm_compute; reflexivity))
      as (fn_result & mapped_elements & Hfn & Hiter & Hrecv).
    injection Hfn as <-. injection Hiter as <-.
    exact (Hrecv 0 ltac:(simpl; lia)).
Defined.

(** ** The termination signal reaches every node of a tree once *)

Lemma under_below p j q : under p j q -> below p q.
Proof.
  intros [-> | H]; [apply below_outlet|].
  eapply below_trans; [apply below_outlet | exact H].
Qed.

Lemma under_inj p i j q : under p i q -> under p j q -> i = j.
Proof.
  intros [-> | Hi] [Hj | Hj].
  - apply app_inv_head in Hj. congruence.
  - exfalso. eapply outlet_not_below. exact Hj.
  - subst q. exfalso. eapply outlet_not_below. exact Hi.
  - eapply below_other_outlet; eassumption.
Qed.

Lemma positions_unary cls fn comb outlets p :
  positions (UnaryFunctionFlow cls fn comb outlets) p =
  p :: positions_from p outlets 0.
Proof.
  simpl. f_equal. generalize 0 as i.
  induction outlets as [|o outlets IH]; intros i; [reflexivity|].
  simpl. f_equal. apply IH.
Qed.

Lemma positions_at_or_below n :
  forall p q, q ∈ positions n p -> q = p \/ below p q.
Proof.
  induction n as [cls fn comb outlets IH | inital_value fn] using Flow_nested_ind;
    intros p q Hq.
  - rewrite positions_unary in Hq. apply elem_of_cons in Hq as [-> | Hq]; [auto|].
    right. revert Hq. generalize 0 as i.
    induction IH as [|o outlets Ho _ IHo]; intros i Hq; simpl in Hq.
    + apply elem_of_nil in Hq as [].
    + apply elem_of_app in Hq as [Hq | Hq]; [|eapply IHo; exact Hq].
      apply Ho in Hq as [-> | Hq]; [apply below_outlet|].
      eapply below_trans; [apply below_outlet | exact Hq].
  - simpl in Hq. apply list_elem_of_singleton in Hq. auto.
Qed.

Lemma positions_from_under p outlets :
  forall i q, q ∈ positions_from p outlets i -> exists j, i <= j /\ under p j q.
Proof.
  induction outlets as [|o outlets IH]; intros i q Hq; simpl in Hq.
  - apply elem_of_nil in Hq as [].
  - apply elem_of_app in Hq as [Hq | Hq].
    + exists i. split; [lia|]. apply positions_at_or_below in Hq. exact Hq.
    + apply IH in Hq as (j & Hj & Hu). exists j. split; [lia | exact Hu].
Qed.

Lemma adds_calls_from_received_other p i q st st' :
  adds_calls_from p i st st' ->
  (forall j, i <= j -> ~ under p j q) ->
  received q st' = received q st.
Proof.
  intros (new & E & F) Hq. rewrite !received_eq, E, received_in_app.
  rewrite (received_in_none q new); [apply app_nil_r|].
  eapply Forall_impl; [exact F|]. intros c (j & Hj & Hu) Hc.
  apply (Hq j Hj). rewrite <- Hc. exact Hu.
Qed.

Lemma combine_from_adds_from comb p outlets :
  forall i acc st r st',
    combine_from _do comb p outlets i acc st = Ok (r, st') ->
    adds_calls_from p i st st'.
Proof.
  induction outlets as [|o outlets IH]; intros i acc st r st' H; simpl in H.
  - apply ret_Ok in H as [_ ->]. exists []. rewrite app_nil_r. auto.
  - inv_run H. apply lift_Ok in Hrun0 as [_ ->].
    apply do_adds_calls in Hrun as (new1 & E1 & F1).
    apply IH in H as (new2 & E2 & F2).
    exists (((p ++ [i], _termination_obj) :: new1) ++ new2). split.
    + rewrite E2, E1, <- app_assoc. reflexivity.
    + apply Forall_app. split.
      * constructor; [exists i; split; [lia | left; reflexivity]|].
        eapply Forall_impl; [exact F1|]. intros c [Hb _].
        exists i. split; [lia | right; exact Hb].
      * eapply Forall_impl; [exact F2|]. intros c (j & Hj & Hu).
        exists j. split; [lia | exact Hu].
Qed.

Lemma outlet_then_rest_reaches p o rest i st a st1 st' :
  reaches_once o ->
  _do o (p ++ [i]) _termination_obj st = Ok (a, st1) ->
  adds_calls_from p (S i) st1 st' ->
  (forall q, q ∈ positions_from p rest (S i) ->
     received q st' = received q st1 ++ [_termination_obj]) ->
  forall q, q ∈ positions_from p (o :: rest) i ->
    received q st' = received q st ++ [_termination_obj].
Proof.
  intros Ho Hrun Hfrom Hrest q Hq. simpl in Hq.
  apply elem_of_app in Hq as [Hq | Hq].
  - rewrite <- (Ho _ _ _ _ Hrun q Hq).
    eapply adds_calls_from_received_other; [exact Hfrom|].
    intros j Hj Hu. apply positions_at_or_below in Hq.
    pose proof (under_inj p i j q Hq Hu). lia.
  - rewrite (Hrest q Hq). f_equal.
    apply positions_from_under in Hq as (j & Hj & Hu).
    eapply adds_calls_received_other; [exact (do_adds_calls _ _ _ _ _ _ Hrun) | |].
    + intros ->. pose proof (under_inj p i j _ (or_introl eq_refl) Hu). lia.
    + intros Hb. pose proof (under_inj p i j q (or_intror Hb) Hu). lia.
Qed.

Lemma combine_from_reaches comb p outlets :
  Forall reaches_once outlets ->
  forall i acc st r st',
    combine_from _do comb p outlets i acc st = Ok (r, st') ->
    forall q, q ∈ positions_from p outlets i ->
      received q st' = received q st ++ [_termination_obj].
Proof.
  induction 1 as [|o outlets Ho _ IH]; intros i acc st r st' H q Hq.
  - apply elem_of_nil in Hq as [].
  - simpl in H. inv_run H. apply lift_Ok in Hrun0 as [_ ->].
    eapply outlet_then_rest_reaches; [exact Ho | exact Hrun | | | exact Hq].
    + eapply combine_from_adds_from. exact H.
    + eapply IH. exact H.
Qed.

Lemma downstream_reaches comb p outlets st r st' :
  Forall reaches_once outlets ->
  _do_downstream comb p outlets _termination_obj st = Ok (r, st') ->
  forall q, q ∈ positions_from p outlets 0 ->
    received q st' = received q st ++ [_termination_obj].
Proof.
  intros Hall H q Hq. destruct outlets as [|o rest]; [discriminate|].
  rewrite downstream_termination in H. inv_run H.
  apply Forall_cons in Hall as [Ho Hrest].
  eapply outlet_then_rest_reaches; [exact Ho | exact Hrun | | | exact Hq].
  - eapply combine_from_adds_from. exact H.
  - eapply combine_from_reaches; eassumption.
Qed.

Lemma do_reaches_once n : reaches_once n.
Proof.
  induction n as [cls fn comb outlets IH | inital_value fn] using Flow_nested_ind;
    intros p st r st' H q Hq.
  - pose proof (do_adds_calls _ _ _ _ _ _ H) as Hadds.
    rewrite positions_unary in Hq. apply elem_of_cons in Hq as [-> | Hq].
    + apply (adds_calls_received _ _ _ _ Hadds).
    + rewrite do_unary in H. inv_run H.
      rewrite (downstream_reaches _ _ _ _ _ _ IH H q Hq). f_equal.
      apply record_call_Ok in Hrun as [E _].
      rewrite !received_eq, E, received_in_app.
      rewrite (received_in_none q [(p, _termination_obj)]); [apply app_nil_r|].
      constructor; [|constructor]. simpl. intros <-.
      apply positions_from_under in Hq as (j & _ & Hu).
      apply under_below in Hu. eapply below_neq; [exact Hu | reflexivity].
  - simpl in Hq. apply list_elem_of_singleton in Hq as ->.
    apply (adds_calls_received _ _ _ _ (do_adds_calls _ _ _ _ _ _ H)).
Qed.

Lemma all_reach_once outlets : Forall reaches_once outlets.
Proof. apply Forall_forall. intros o _. apply do_reaches_once. Qed.

(** ** Runs of a source: what the loop thread has done so far *)

Lemma deliver_snoc comb outlets items it last st r1 st1 r st' :
  deliver comb outlets items last st = Ok (r1, st1) ->
  _do_downstream comb [] outlets it st1 = Ok (r, st') ->
  deliver comb outlets (items ++ [it]) last st = Ok (r, st').
Proof.
  revert last st. induction items as [|x items IH]; intros last st H1 H2; simpl in *.
  - apply ret_Ok in H1 as [_ ->]. unfold bind. rewrite H2. reflexivity.
  - inv_run H1. unfold bind at 1. rewrite Hrun. eapply IH; eassumption.
Qed.

Lemma puts_snoc tr l : puts (tr ++ [l]) = puts tr ++ from_option (fun x => [x]) [] (put_of l).
Proof.
  unfold puts. rewrite omap_app. simpl. destruct (put_of l); reflexivity.
Qed.

Lemma step_ex_None c l c' : step c l c' -> _ex c'.1 = None -> _ex c.1 = None.
Proof.
  intros Hstep. destruct Hstep as
    [s event H | s ex H | s s' event H | s H | s ex H
    | s s' pr H | s s' pr H | s s' pr H]; simpl; auto.
  - unfold q_put in H. destruct (queue_full _ _); [discriminate|].
    injection H as <-. auto.
  - unfold loop_get in H. destruct (thread s) as [|[?|]| |]; try discriminate.
    destruct (_q s); [discriminate|]. injection H as <-. auto.
  - unfold loop_body in H. destruct (thread s) as [|[event|]| |]; try discriminate.
    destruct (_do_downstream _ _ _ _ _) as [[r st]|ex].
    + destruct (is_termination event); injection H as <-; auto.
    + injection H as <-. discriminate.
  - unfold thread_exit in H. destruct (thread s); try discriminate.
    destruct (queue_full _ _); [discriminate|]. injection H as <-. auto.
Qed.

Lemma run_inv_step s0 tr s pr l s' pr' :
  run_inv s0 tr s -> step (s, pr) l (s', pr') -> run_inv s0 (tr ++ [l]) s'.
Proof.
  intros (Hout & Hcomb & Hinv) Hstep.
  pose proof (step_ex_None _ _ _ Hstep) as Hex. simpl in Hex.
  inversion Hstep as
    [s1 event H | s1 ex H | s1 s2 event H | s1 H | s1 ex H
    | s1 s2 pr1 H | s1 s2 pr1 H | s1 s2 pr1 H]; subst;
    try (split; [exact Hout | split; [exact Hcomb|]];
         intros Hnone; destruct (Hinv Hnone) as (processed & last & Hputs & Hdel & Hthr);
         exists processed, last; rewrite puts_snoc; simpl; rewrite app_nil_r;
         split; [exact Hputs | split; [exact Hdel | exact Hthr]]).
  - (* the put *)
    unfold q_put in H. destruct (queue_full _ _); [discriminate|]. injection H as <-.
    split; [exact Hout | split; [exact Hcomb|]]. intros Hnone.
    destruct (Hinv Hnone) as (processed & last & Hputs & Hdel & Hthr).
    exists processed, last. rewrite puts_snoc. simpl.
    split; [|split; [exact Hdel | exact Hthr]].
    rewrite Hputs, <- !app_assoc. reflexivity.
  - (* the get *)
    unfold loop_get in H. destruct (thread s) as [|[?|]| |] eqn:Ht; try discriminate.
    destruct (_q s) as [|event rest] eqn:Hq; [discriminate|]. injection H as <-.
    split; [exact Hout | split; [exact Hcomb|]]. intros Hnone.
    destruct (Hinv Hnone) as (processed & last & Hputs & Hdel & Hthr).
    exists processed, last. rewrite puts_snoc. simpl. rewrite app_nil_r.
    split; [exact Hputs | split; [exact Hdel | exact Hthr]].
  - (* the body of the loop *)
    unfold loop_body in H. destruct (thread s) as [|[event|]| |] eqn:Ht; try discriminate.
    destruct (_do_downstream _ _ _ _ _) as [[r st]|ex] eqn:Hdown.
    + rewrite Hcomb, Hout in Hdown.
      destruct (is_termination event) eqn:Hterm; injection H as <-;
        (split; [exact Hout | split; [exact Hcomb|]]); simpl; intros Hnone;
        destruct (Hinv Hnone) as (processed & last & Hputs & Hdel & Hall & Htq);
        pose proof (deliver_snoc _ _ _ _ _ _ _ _ _ _ Hdel Hdown) as Hdel';
        exists (processed ++ [event]), r; rewrite puts_snoc; simpl; rewrite app_nil_r.
      * split; [rewrite Hputs, <- app_assoc; reflexivity|].
        split; [exact Hdel'|]. split; [|auto].
        exists processed. destruct event; [auto | discriminate].
      * split; [rewrite Hputs, <- app_assoc; reflexivity|].
        split; [exact Hdel'|]. split; [|exact Htq].
        apply Forall_app. split; [exact Hall|]. constructor; [exact Hterm | constructor].
    + injection H as <-. split; [exact Hout | split; [exact Hcomb|]]. discriminate.
  - (* the exit of the thread *)
    unfold thread_exit in H. destruct (thread s) eqn:Ht; try discriminate.
    destruct (queue_full _ _); [discriminate|]. injection H as <-.
    split; [exact Hout | split; [exact Hcomb|]]. intros Hnone. simpl in Hnone.
    destruct (Hinv Hnone) as (processed & last & Hputs & Hdel & Hbefore & Hfut & Htq).
    exists processed, last. rewrite puts_snoc. simpl. rewrite app_nil_r.
    split; [exact Hputs | split; [exact Hdel|]].
    split; [exact Hbefore | split; [exact Hfut|]]. rewrite Htq, Hnone. reflexivity.
Qed.

Lemma run_inv_init s0 : runnable s0 -> run_inv s0 [] (run s0).
Proof.
  intros (Hq & Htq & Hex). split; [reflexivity | split; [reflexivity|]].
  intros _. exists [], PyNone. simpl. rewrite Hq, Htq. auto.
Qed.

Lemma run_inv_exec s0 c tr c' :
  exec c tr c' -> run_inv s0 [] c.1 -> run_inv s0 tr c'.1.
Proof.
  induction 1 as [c | c tr c' l c'' _ IH Hstep]; intros Hinit; [exact Hinit|].
  destruct c' as [s pr], c'' as [s' pr']. eapply run_inv_step; [apply IH, Hinit | exact Hstep].
Qed.

Lemma events_then_termination before rest events :
  before ++ [_termination_obj] ++ rest = map Ev events ++ [_termination_obj] ->
  Forall is_event before ->
  before = map Ev events /\ rest = [].
Proof.
  revert events. induction before as [|x before IH]; intros events H Hall; simpl in H.
  - destruct events as [|e events]; simpl in H.
    + injection H as ->. auto.
    + discriminate.
  - apply Forall_cons in Hall as [Hx Hall]. destruct events as [|e events]; simpl in H.
    + injection H as -> H. discriminate.
    + injection H as -> H. destruct (IH _ H Hall) as [-> ->]. auto.
Qed.

(** Every run whose producer has put [events] and then the termination
    signal, and whose thread has finished with no failure recorded, has
    processed exactly these items, in this order, one at a time; the
    future holds the value returned for the termination signal, which
    [await_termination] returns. *)
Lemma finished_run s0 tr s pr events :
  runnable s0 ->
  exec (run s0, Idle) tr (s, pr) ->
  puts tr = map Ev events ++ [_termination_obj] ->
  thread s = Finished -> _ex s = None ->
  exists r s',
    deliver (_termination_result_fn s0) (_outlets s0)
      (map Ev events ++ [_termination_obj]) PyNone (nodes s0) = Ok (r, nodes s) /\
    await_termination s = Some (s', Ok r) /\
    nodes s' = nodes s /\ _q s = [] /\
    runnable s' /\ _outlets s' = _outlets s0 /\
    _termination_result_fn s' = _termination_result_fn s0.
Proof.
  intros Hrunnable Hexec Hputs Hthread Hex.
  pose proof (run_inv_exec s0 _ _ _ Hexec (run_inv_init s0 Hrunnable))
    as (Hout & Hcomb & Hinv).
  simpl in Hinv. destruct (Hinv Hex) as (processed & last & Hp & Hdel & Hthr).
  rewrite Hthread in Hthr, Hp. simpl in Hp.
  destruct Hthr as ((before & -> & Hall) & Hfut & Htq).
  rewrite Hputs, <- app_assoc in Hp. symmetry in Hp.
  destruct (events_then_termination _ _ _ Hp Hall) as [-> Hq].
  exists last. eexists. split; [exact Hdel|]. split; [|split; [|split; [exact Hq|]]].
  - unfold await_termination. rewrite Htq. simpl. rewrite Hfut. reflexivity.
  - reflexivity.
  - simpl in Hout, Hcomb. repeat split; simpl; assumption.
Qed.

Lemma exec_app c tr c' tr' c'' :
  exec c tr c' -> exec c' tr' c'' -> exec c (tr ++ tr') c''.
Proof.
  intros H1 H2. induction H2 as [c' | c' tr' c2 l c3 _ IH Hstep].
  - rewrite app_nil_r. exact H1.
  - rewrite app_assoc. eapply exec_snoc; [apply IH, H1 | exact Hstep].
Qed.

Lemma exec_cons c l c' tr c'' :
  step c l c' -> exec c' tr c'' -> exec c (l :: tr) c''.
Proof.
  intros Hstep Hexec. change (l :: tr) with ([l] ++ tr).
  eapply exec_app; [|exact Hexec].
  change [l] with ([] ++ [l]). eapply exec_snoc; [apply exec_nil | exact Hstep].
Qed.

Lemma queue_not_full_empty {A} maxsize : queue_full maxsize (@nil A) = false.
Proof.
  unfold queue_full. simpl. destruct (0 <? maxsize)%Z eqn:E; [|reflexivity].
  apply Z.ltb_lt in E. simpl. apply Z.leb_gt. exact E.
Qed.

(** The producer puts one item on the empty queue and the loop takes it
    and processes it. *)
Lemma emit_then_process_exec outlets comb size tq fut st it r st' :
  _do_downstream comb [] outlets it st = Ok (r, st') ->
  exec (mkSource outlets comb size [] tq None fut (Looping None) st, Idle)
       (emit_then_process it)
       (mkSource outlets comb size [] tq None
          (if is_termination it then Some r else fut)
          (if is_termination it then Returned else Looping None) st', Idle).
Proof.
  intros Hdown. unfold emit_then_process.
  eapply exec_cons; [apply step_emit_enter; reflexivity|].
  eapply exec_cons.
  { apply step_emit_put. unfold q_put. simpl. rewrite queue_not_full_empty. reflexivity. }
  eapply exec_cons; [apply step_emit_return; reflexivity|].
  eapply exec_cons; [apply step_loop_get; reflexivity|].
  eapply exec_cons; [|apply exec_nil].
  apply step_loop_body. unfold loop_body. simpl. rewrite Hdown.
  destruct (is_termination it); reflexivity.
Qed.

(** The lockstep schedule is a run, and it finishes without failure when
    processing the items raises nothing. *)
Lemma lockstep_run outlets comb size events :
  forall fut st last r st',
    deliver comb outlets (map Ev events ++ [_termination_obj]) last st = Ok (r, st') ->
    exec (mkSource outlets comb size [] [] None fut (Looping None) st, Idle)
         (lockstep events)
         (mkSource outlets comb size [] [None] None (Some r) Finished st', Idle).
Proof.
  induction events as [|e events IH]; intros fut st last r st' H; simpl in H.
  - inv_run H. apply ret_Ok in H as [-> ->]. unfold lockstep. simpl concat.
    rewrite app_nil_l. eapply exec_app.
    + apply (emit_then_process_exec _ _ _ _ _ _ _termination_obj _ _ Hrun).
    + simpl. eapply exec_cons; [|apply exec_nil].
      apply step_thread_exit. reflexivity.
  - inv_run H. change (lockstep (e :: events)) with
      (emit_then_process (Ev e) ++ lockstep events).
    eapply exec_app.
    + apply (emit_then_process_exec _ _ _ _ _ _ (Ev e) _ _ Hrun).
    + simpl. eapply IH. exact H.
Qed.

Lemma puts_emit_then_process it tr : puts (emit_then_process it ++ tr) = it :: puts tr.
Proof. reflexivity. Qed.

Lemma puts_lockstep events : puts (lockstep events) = map Ev events ++ [_termination_obj].
Proof.
  induction events as [|e events IH]; [reflexivity|].
  change (lockstep (e :: events)) with (emit_then_process (Ev e) ++ lockstep events).
  rewrite puts_emit_then_process, IH. reflexivity.
Qed.

(** ** What the nodes have received at the end of a run *)







Lemma runnable_source_of outlets : runnable (source_of outlets).
Proof. repeat split. Qed.

Lemma lockstep_source_of outlets events r st' :
  deliver default_termination_result_fn outlets
    (map Ev events ++ [_termination_obj]) PyNone empty_store = Ok (r, st') ->
  exec (run (source_of outlets), Idle) (lockstep events)
    (mkSource outlets default_termination_result_fn 1 [] [None] None (Some r)
       Finished st', Idle).
Proof. intros H. eapply lockstep_run. exact H. Qed.


(** ** A row of identity [Map] nodes ending in a [Reduce] node *)

Lemma reduce_event inital_value g p e st :
  _do (Reduce inital_value g) p (Ev e) st =
  match g (default inital_value (_result st !! p)) (element e) with
  | Ok v => Ok (PyNone, mkStore (<[p := v]> (_result st)) (calls st ++ [(p, Ev e)]))
  | Raise ex => Raise ex
  end.
Proof.
  rewrite do_reduce. unfold bind, record_call, get_result, lift, set_result, ret. simpl.
  destruct (g _ _); reflexivity.
Qed.

Lemma reduce_termination inital_value g p st :
  _do (Reduce inital_value g) p _termination_obj st =
  Ok (default inital_value (_result st !! p),
      mkStore (_result st) (calls st ++ [(p, _termination_obj)])).
Proof. reflexivity. Qed.

Lemma map_identity_event comb inner p e st :
  _do (UnaryFunctionFlow Map identity comb [inner]) p (Ev e) st =
  match _do inner (p ++ [0]) (Ev e) (mkStore (_result st) (calls st ++ [(p, Ev e)])) with
  | Ok (_, st') => Ok (PyNone, st')
  | Raise ex => Raise ex
  end.
Proof.
  destruct e as [x k t]. rewrite do_unary.
  unfold bind, record_call, lift, identity, ret. simpl.
  rewrite downstream_event. unfold bind, ret. simpl. unfold bind, ret.
  destruct (_do inner _ _ _) as [[r st']|ex]; reflexivity.
Qed.

Lemma map_termination cls fn comb inner p st :
  _do (UnaryFunctionFlow cls fn comb [inner]) p _termination_obj st =
  _do inner (p ++ [0]) _termination_obj
    (mkStore (_result st) (calls st ++ [(p, _termination_obj)])).
Proof.
  rewrite do_unary. unfold bind, record_call. simpl.
  rewrite downstream_termination. unfold bind. simpl. unfold ret.
  destruct (_do inner _ _ _) as [[r st']|ex]; reflexivity.
Qed.

Lemma received_snoc_other (p q : path) (it : Item) (st st' : Store) :
  calls st' = calls st ++ [(p, it)] -> q <> p ->
  received q st' = received q st.
Proof.
  intros E Hne. rewrite !received_eq, E, received_in_app.
  rewrite (received_in_none q [(p, it)]); [apply app_nil_r|].
  constructor; [simpl; congruence | constructor].
Qed.

Lemma received_snoc_same (p : path) (it : Item) (st st' : Store) :
  calls st' = calls st ++ [(p, it)] ->
  received p st' = received p st ++ [it].
Proof.
  intros E. rewrite !received_eq, E, received_in_app. f_equal.
  unfold received_in. rewrite filter_cons_True by reflexivity. reflexivity.
Qed.

Lemma row_end_neq (p : path) (k : nat) : p ++ replicate (S k) 0 <> p.
Proof.
  intros H. apply (f_equal length) in H. rewrite length_app in H. simpl in H. lia.
Qed.

Lemma row_end_shift (p : path) (k : nat) :
  (p ++ [0]) ++ replicate k 0 = p ++ replicate (S k) 0.
Proof. rewrite <- app_assoc. reflexivity. Qed.

Section Row.
Variable comb : Combiner.
Variable inital_value : PyVal.
Variable g : PyVal -> PyVal -> Res PyVal.

Local Abbreviation row k := (identity_maps comb k (Reduce inital_value g)).

(** [self._result] of the fold node at [p]. *)
Local Abbreviation accumulator p st := (default inital_value (_result st !! (p : path))).

Lemma row_event k :
  forall (p : path) e st,
    match g (accumulator (p ++ replicate k 0) st) (element e) with
    | Ok v =>
        exists st',
          _do (row k) p (Ev e) st = Ok (PyNone, st') /\
          _result st' = <[p ++ replicate k 0 := v]> (_result st) /\
          received (p ++ replicate k 0) st' =
          received (p ++ replicate k 0) st ++ [Ev e]
    | Raise ex => _do (row k) p (Ev e) st = Raise ex
    end.
Proof.
  induction k as [|k IH]; intros p e st.
  - simpl replicate. rewrite app_nil_r. simpl identity_maps.
    rewrite reduce_event.
    destruct (g _ _) as [v|ex]; [|reflexivity].
    eexists. split; [reflexivity|]. split; [reflexivity|].
    apply received_snoc_same. reflexivity.
  - simpl identity_maps. rewrite map_identity_event.
    specialize (IH (p ++ [0]) e (mkStore (_result st) (calls st ++ [(p, Ev e)]))).
    rewrite row_end_shift in IH. simpl _result in IH.
    destruct (g _ _) as [v|ex].
    + destruct IH as (st' & Hdo & Hres & Hrecv). exists st'.
      rewrite Hdo. split; [reflexivity|]. split; [exact Hres|].
      rewrite Hrecv. f_equal.
      eapply received_snoc_other; [reflexivity | apply row_end_neq].
    + rewrite IH. reflexivity.
Qed.

Lemma row_termination k :
  forall (p : path) st,
    exists st',
      _do (row k) p _termination_obj st =
        Ok (accumulator (p ++ replicate k 0) st, st') /\
      _result st' = _result st /\
      received (p ++ replicate k 0) st' =
      received (p ++ replicate k 0) st ++ [_termination_obj].
Proof.
  induction k as [|k IH]; intros p st.
  - simpl replicate. rewrite app_nil_r. simpl identity_maps.
    rewrite reduce_termination. eexists. split; [reflexivity|]. split; [reflexivity|].
    apply received_snoc_same. reflexivity.
  - simpl identity_maps. rewrite map_termination.
    destruct (IH (p ++ [0]) (mkStore (_result st) (calls st ++ [(p, _termination_obj)])))
      as (st' & Hdo & Hres & Hrecv).
    rewrite row_end_shift in Hdo, Hrecv. exists st'. split; [exact Hdo|].
    split; [exact Hres|]. rewrite Hrecv. f_equal.
    eapply received_snoc_other; [reflexivity | apply row_end_neq].
Qed.

Lemma downstream_single_event comb0 (p : path) o e st :
  _do_downstream comb0 p [o] (Ev e) st =
  match _do o (p ++ [0]) (Ev e) st with
  | Ok (_, st') => Ok (PyNone, st')
  | Raise ex => Raise ex
  end.
Proof.
  rewrite downstream_event. unfold bind, ret. simpl. unfold bind, ret.
  destruct (_do o _ _ _) as [[r st']|ex]; reflexivity.
Qed.

Lemma downstream_single_termination comb0 (p : path) o st :
  _do_downstream comb0 p [o] _termination_obj st =
  _do o (p ++ [0]) _termination_obj st.
Proof.
  rewrite downstream_termination. unfold bind. simpl. unfold ret.
  destruct (_do o _ _ _) as [[r st']|ex]; reflexivity.
Qed.

(** A source whose only outlet is the row: the fold node is at
    [replicate (S k) 0]. *)
Lemma deliver_row k comb0 :
  forall events last st,
    match fold_res g (accumulator (replicate (S k) 0) st) (map element events) with
    | Ok v =>
        exists st',
          deliver comb0 [row k] (map Ev events ++ [_termination_obj]) last st
            = Ok (v, st') /\
          accumulator (replicate (S k) 0) st' = v /\
          received (replicate (S k) 0) st' =
          received (replicate (S k) 0) st ++ map Ev events ++ [_termination_obj]
    | Raise ex =>
        deliver comb0 [row k] (map Ev events ++ [_termination_obj]) last st = Raise ex
    end.
Proof.
  change (replicate (S k) 0) with ([0] ++ replicate k 0).
  remember ([0] ++ replicate k 0) as rp eqn:Hrp.
  induction events as [|e events IH]; intros last st.
  - simpl. destruct (row_termination k [0] st) as (st' & Hdo & Hres & Hrecv).
    rewrite <- Hrp in Hdo, Hrecv.
    exists st'. unfold bind. rewrite downstream_single_termination.
    change ([] ++ [0]) with [0]. rewrite Hdo. split; [reflexivity|].
    split; [|exact Hrecv]. rewrite Hres. reflexivity.
  - simpl. pose proof (row_event k [0] e st) as He. rewrite <- Hrp in He.
    destruct (g _ _) as [v|ex].
    + destruct He as (st1 & Hdo & Hres & Hrecv).
      specialize (IH PyNone st1).
      assert (Hacc : accumulator rp st1 = v).
      { rewrite Hres, lookup_insert_eq. reflexivity. }
      rewrite Hacc in IH.
      destruct (fold_res g v (map element events)) as [w|ex].
      * destruct IH as (st' & Hdel & Hacc' & Hrecv'). exists st'.
        unfold bind at 1. rewrite downstream_single_event.
        change ([] ++ [0]) with [0]. rewrite Hdo.
        split; [exact Hdel|]. split; [exact Hacc'|].
        rewrite Hrecv', Hrecv, <- !app_assoc. reflexivity.
      * unfold bind at 1. rewrite downstream_single_event.
        change ([] ++ [0]) with [0]. rewrite Hdo. exact IH.
    + unfold bind at 1. rewrite downstream_single_event.
      change ([] ++ [0]) with [0]. rewrite He. reflexivity.
Qed.

End Row.

Lemma runnable_lockstep s0 events r st' :
  runnable s0 ->
  deliver (_termination_result_fn s0) (_outlets s0)
    (map Ev events ++ [_termination_obj]) PyNone (nodes s0) = Ok (r, st') ->
  exists s,
    exec (run s0, Idle) (lockstep events) (s, Idle) /\
    thread s = Finished /\ _ex s = None /\
    _termination_future s = Some r /\ nodes s = st'.
Proof.
  destruct s0 as [outlets comb size q tq ex fut thr st]. unfold runnable. simpl.
  intros (-> & -> & ->) Hdel. eexists. split.
  - unfold run. simpl. eapply lockstep_run. exact Hdel.
  - simpl. auto.
Qed.

Lemma fold_res_total (g : PyVal -> PyVal -> PyVal) xs :
  forall acc, fold_res (fun a x => Ok (g a x)) acc xs = Ok (fold_left g xs acc).
Proof. induction xs as [|x xs IH]; intros acc; simpl; [reflexivity | apply IH]. Qed.

(** C4: a source feeds a row of [k] identity [Map] nodes ending in
    [Reduce(inital_value, g)].  In every run in which the producer has
    emitted [events] and then terminated, and whose thread has finished
    with no failure recorded, the fold node has received exactly these
    events, in emission order, then the termination signal, and
    [await_termination] returns the left fold of [g] over the payloads
    from [inital_value] ([fold_res]; for a [g] that never raises it is
    [fold_left], see [fold_res_total]).  Such a run exists whenever the
    fold raises nothing. *)
Theorem identity_maps_then_reduce
    (comb : Combiner) (k : nat) (inital_value : PyVal)
    (g : PyVal -> PyVal -> Res PyVal) (s0 : Source) (events : list Event) :
  runnable s0 ->
  _outlets s0 = [identity_maps comb k (Reduce inital_value g)] ->
  _result (nodes s0) !! (replicate (S k) 0 : path) = None ->
  (forall tr s pr,
      exec (run s0, Idle) tr (s, pr) ->
      puts tr = map Ev events ++ [_termination_obj] ->
      thread s = Finished -> _ex s = None ->
      exists v s',
        fold_res g inital_value (map element events) = Ok v /\
        await_termination s = Some (s', Ok v) /\
        received (replicate (S k) 0) (nodes s) =
        received (replicate (S k) 0) (nodes s0) ++
        map Ev events ++ [_termination_obj]) /\
  (forall v,
      fold_res g inital_value (map element events) = Ok v ->
      exists s,
        exec (run s0, Idle) (lockstep events) (s, Idle) /\
        puts (lockstep events) = map Ev events ++ [_termination_obj] /\
        thread s = Finished /\ _ex s = None).
Proof.
  intros Hrunnable Hout Hfresh.
  pose proof (deliver_row comb inital_value g k (_termination_result_fn s0) events
                PyNone (nodes s0)) as Hrow.
  rewrite Hfresh in Hrow.
  change (default inital_value None) with inital_value in Hrow. split.
  - intros tr s pr Hexec Hputs Hthread Hex.
    destruct (finished_run _ _ _ _ _ Hrunnable Hexec Hputs Hthread Hex)
      as (r & s' & Hdel & Hawait & _ & _).
    rewrite Hout in Hdel.
    destruct (fold_res g inital_value (map element events)) as [v|ex].
    + destruct Hrow as (st' & Hdel' & _ & Hrecv). rewrite Hdel' in Hdel.
      injection Hdel as <- <-. exists v, s'. auto.
    + rewrite Hrow in Hdel. discriminate.
  - intros v Hfold. rewrite Hfold in Hrow. destruct Hrow as (st' & Hdel & _).
    rewrite <- Hout in Hdel.
    destruct (runnable_lockstep _ _ _ _ Hrunnable Hdel) as (s & Hexec & Hthr & Hex & _).
    exists s. split; [exact Hexec|]. split; [apply puts_lockstep | auto].
Qed.

Lemma identity_maps_then_reduce_witness :
  let s0 := source_of [identity_maps default_termination_result_fn 2
                         (Reduce (PyInt 0) py_add)] in
  runnable s0 /\
  exists s,
    exec (run s0, Idle) (lockstep example_events) (s, Idle) /\
    thread s = Finished /\ _ex s = None.
Proof.
  intros s0. split; [apply runnable_source_of|].
  destruct (identity_maps_then_reduce default_termination_result_fn 2 (PyInt 0) py_add
              s0 example_events (runnable_source_of _) eq_refl eq_refl) as [_ Hexists].
  destruct (Hexists (PyInt 3) eq_refl) as (s & Hexec & _ & Hthr & Hex).
  exists s. auto.
Defined.

(** ** The accumulator of [Reduce] across runs *)

Lemma fold_res_app g xs ys :
  forall acc,
    fold_res g acc (xs ++ ys) =
    match fold_res g acc xs with
    | Ok v => fold_res g v ys
    | Raise ex => Raise ex
    end.
Proof.
  induction xs as [|x xs IH]; intros acc; simpl; [reflexivity|].
  destruct (g acc x); [apply IH | reflexivity].
Qed.

Lemma finished_row_run comb k inital_value g s0 events tr s pr :
  runnable s0 ->
  _outlets s0 = [identity_maps comb k (Reduce inital_value g)] ->
  exec (run s0, Idle) tr (s, pr) ->
  puts tr = map Ev events ++ [_termination_obj] ->
  thread s = Finished -> _ex s = None ->
  exists v s',
    fold_res g (default inital_value (_result (nodes s0) !! (replicate (S k) 0 : path)))
      (map element events) = Ok v /\
    await_termination s = Some (s', Ok v) /\
    default inital_value (_result (nodes s') !! (replicate (S k) 0 : path)) = v /\
    runnable s' /\ _outlets s' = _outlets s0.
Proof.
  intros Hrunnable Hout Hexec Hputs Hthread Hex.
  pose proof (deliver_row comb inital_value g k (_termination_result_fn s0) events
                PyNone (nodes s0)) as Hrow.
  destruct (finished_run _ _ _ _ _ Hrunnable Hexec Hputs Hthread Hex)
    as (r & s' & Hdel & Hawait & Hnodes & _ & Hrun' & Hout' & _).
  rewrite Hout in Hdel.
  destruct (fold_res g _ (map element events)) as [v|ex].
  - destruct Hrow as (st' & Hdel' & Hacc & _). rewrite Hdel' in Hdel.
    injection Hdel as Hv Hst. subst r. exists v, s'. rewrite Hnodes, <- Hst. auto.
  - rewrite Hrow in Hdel. discriminate.
Qed.

(** C10: the termination branch of [Reduce._do] returns [self._result]
    and assigns nothing (first part).  Hence, when the graph of a
    finished run (a row of identity [Map] nodes ending in the [Reduce]
    node, [k] of them, none for [k = 0]) is run again after
    [await_termination] has returned [v1], the second run folds its
    events from [v1], the value the first run ended with, and not from
    [inital_value]: its result is the fold of the events of both runs. *)
Theorem reduce_accumulator_survives_termination
    (comb : Combiner) (k : nat) (inital_value : PyVal)
    (g : PyVal -> PyVal -> Res PyVal) (s0 : Source)
    (events1 events2 : list Event)
    (tr1 : list Label) (s1 : Source) (pr1 : Producer) (s1' : Source) (v1 : PyVal)
    (tr2 : list Label) (s2 : Source) (pr2 : Producer) :
  runnable s0 ->
  _outlets s0 = [identity_maps comb k (Reduce inital_value g)] ->
  _result (nodes s0) !! (replicate (S k) 0 : path) = None ->
  exec (run s0, Idle) tr1 (s1, pr1) ->
  puts tr1 = map Ev events1 ++ [_termination_obj] ->
  thread s1 = Finished -> _ex s1 = None ->
  await_termination s1 = Some (s1', Ok v1) ->
  exec (run s1', Idle) tr2 (s2, pr2) ->
  puts tr2 = map Ev events2 ++ [_termination_obj] ->
  thread s2 = Finished -> _ex s2 = None ->
  (forall p st,
      exists st',
        _do (Reduce inital_value g) p _termination_obj st =
          Ok (default inital_value (_result st !! p), st') /\
        _result st' = _result st) /\
  default inital_value (_result (nodes s1') !! (replicate (S k) 0 : path)) = v1 /\
  exists v2 s2',
    await_termination s2 = Some (s2', Ok v2) /\
    fold_res g v1 (map element events2) = Ok v2 /\
    fold_res g inital_value (map element (events1 ++ events2)) = Ok v2.
Proof.
  intros Hrunnable Hout Hfresh Hexec1 Hputs1 Hthr1 Hex1 Hawait1 Hexec2 Hputs2 Hthr2 Hex2.
  split.
  { intros p st. rewrite reduce_termination. eexists. split; reflexivity. }
  destruct (finished_row_run _ _ _ _ _ _ _ _ _ Hrunnable Hout Hexec1 Hputs1 Hthr1 Hex1)
    as (v & s' & Hfold1 & Hawait & Hacc & Hrun' & Hout').
  rewrite Hawait in Hawait1. injection Hawait1 as -> ->.
  rewrite Hfresh in Hfold1. change (default inital_value None) with inital_value in Hfold1.
  split; [exact Hacc|].
  rewrite Hout in Hout'.
  destruct (finished_row_run _ _ _ _ _ _ _ _ _ Hrun' Hout' Hexec2 Hputs2 Hthr2 Hex2)
    as (v2 & s2' & Hfold2 & Hawait2 & _).
  rewrite Hacc in Hfold2. exists v2, s2'. split; [exact Hawait2|].
  split; [exact Hfold2|].
  rewrite map_app, fold_res_app, Hfold1. exact Hfold2.
Qed.

Lemma reduce_accumulator_survives_termination_witness :
  let s0 := source_of sum_outlets in
  let s1 := mkSource sum_outlets default_termination_result_fn 1 [] [None] None
              (Some (PyInt 3)) Finished after_first_run in
  let s1' := mkSource sum_outlets default_termination_result_fn 1 [] [] None
               (Some (PyInt 3)) Finished after_first_run in
  let s2 := mkSource sum_outlets default_termination_result_fn 1 [] [None] None
              (Some (PyInt 8)) Finished after_second_run in
  exec (run s0, Idle) (lockstep example_events) (s1, Idle) /\
  await_termination s1 = Some (s1', Ok (PyInt 3)) /\
  exec (run s1', Idle) (lockstep [int_event 5]) (s2, Idle) /\
  exists s2', await_termination s2 = Some (s2', Ok (PyInt 8)).
Proof.
  intros s0 s1 s1' s2.
  assert (H1 : exec (run s0, Idle) (lockstep example_events) (s1, Idle)).
  { apply lockstep_source_of. vm_compute. reflexivity. }
  assert (H2 : exec (run s1', Idle) (lockstep [int_event 5]) (s2, Idle)).
  { apply (lockstep_run sum_outlets default_termination_result_fn 1 [int_event 5]
             None after_first_run PyNone (PyInt 8) after_second_run).
    vm_compute. reflexivity. }
  destruct (reduce_accumulator_survives_termination
              default_termination_result_fn 0 (PyInt 0) py_add s0
              example_events [int_event 5]
              (lockstep example_events) s1 Idle s1' (PyInt 3)
              (lockstep [int_event 5]) s2 Idle
              (runnable_source_of _) eq_refl eq_refl H1 (puts_lockstep _)
              eq_refl eq_refl eq_refl H2 (puts_lockstep _) eq_refl eq_refl)
    as (_ & _ & v2 & s2' & Hawait & Hfold & _).
  injection Hfold as <-.
  split; [exact H1|]. split; [reflexivity|]. split; [exact H2|].
  exists s2'. exact Hawait.
Defined.

(** ** [Filter] *)

Lemma comprehension_filter p xs kept :
  comprehension p xs = Ok kept -> kept = filter (fun x => keeps p x = true) xs.
Proof.
  revert kept. induction xs as [|x xs IH]; intros kept H; simpl in H.
  - injection H as <-. reflexivity.
  - unfold keeps at 1. destruct (p x) as [keep|ex] eqn:Hp; [|discriminate].
    destruct (comprehension p xs) as [kept'|ex]; [|discriminate].
    injection H as <-. rewrite (IH kept' eq_refl).
    destruct (truthy keep) eqn:Hk.
    + rewrite filter_cons_True; [reflexivity|]. unfold keeps. rewrite Hp. exact Hk.
    + rewrite filter_cons_False; [reflexivity|]. unfold keeps. rewrite Hp, Hk. discriminate.
Qed.

Lemma comprehension_total p xs :
  Forall (fun x => exists keep, p x = Ok keep) xs ->
  exists kept, comprehension p xs = Ok kept.
Proof.
  induction 1 as [|x xs (keep & Hp) _ (kept & IH)]; simpl; [eauto|].
  rewrite Hp, IH. eauto.
Qed.

Lemma filter_event_received p comb outlets (q : path) e st r st' :
  _do (UnaryFunctionFlow Filter p comb outlets) q (Ev e) st = Ok (r, st') ->
  exists keep,
    p (element e) = Ok keep /\
    forall j, j < length outlets ->
      received (q ++ [j]) st' =
      received (q ++ [j]) st ++ (if truthy keep then [Ev e] else []).
Proof.
  intros H. rewrite do_unary in H. inv_run H.
  apply lift_Ok in Hrun0 as [Hp ->]. apply ret_Ok in H as [_ ->].
  exists a0. split; [exact Hp|]. intros j Hj.
  assert (Hrec : received (q ++ [j]) st0 = received (q ++ [j]) st).
  { apply record_call_Ok in Hrun as [E _].
    eapply received_snoc_other; [exact E|].
    intros Hq. apply (f_equal length) in Hq. rewrite length_app in Hq. simpl in Hq. lia. }
  simpl in Hrun1. destruct (truthy a0).
  - inv_run Hrun1. apply ret_Ok in Hrun1 as [_ ->].
    rewrite (downstream_event_received _ _ _ _ _ _ _ Hrun0 j Hj), Hrec. reflexivity.
  - apply ret_Ok in Hrun1 as [_ ->]. rewrite Hrec, app_nil_r. reflexivity.
Qed.

Section FilterThenCollect.
Variable p : PyVal -> Res PyVal.
Variable comb comb0 : Combiner.

Local Abbreviation collected st :=
  (default (PyList []) (_result st !! ([0; 0] : path))).

Lemma filter_then_collect_event e st l :
  collected st = PyList l ->
  match p (element e) with
  | Ok keep =>
      exists st',
        _do_downstream comb0 [] (filter_then_collect p comb) (Ev e) st
          = Ok (PyNone, st') /\
        collected st' = PyList (if truthy keep then l ++ [element e] else l)
  | Raise ex =>
      _do_downstream comb0 [] (filter_then_collect p comb) (Ev e) st = Raise ex
  end.
Proof.
  intros Hl. unfold filter_then_collect. rewrite downstream_single_event, do_unary.
  unfold bind at 1. unfold record_call at 1. unfold bind at 1. unfold lift at 1.
  destruct (p (element e)) as [keep|ex]; [|reflexivity].
  unfold bind at 1. unfold _do_internal. destruct (truthy keep).
  - unfold bind at 1. rewrite downstream_single_event, reduce_event. simpl.
    rewrite Hl. simpl.
    eexists. split; [reflexivity|]. simpl.
    rewrite lookup_insert_eq. reflexivity.
  - unfold ret. eexists. split; [reflexivity|]. exact Hl.
Qed.

Lemma filter_then_collect_termination st :
  exists st',
    _do_downstream comb0 [] (filter_then_collect p comb) _termination_obj st
      = Ok (collected st, st') /\
    collected st' = collected st.
Proof.
  unfold filter_then_collect.
  rewrite downstream_single_termination, map_termination, reduce_termination.
  eexists. split; reflexivity.
Qed.

Lemma deliver_filter_then_collect :
  forall events last st l,
    collected st = PyList l ->
    match comprehension p (map element events) with
    | Ok kept =>
        exists st',
          deliver comb0 (filter_then_collect p comb)
            (map Ev events ++ [_termination_obj]) last st = Ok (PyList (l ++ kept), st')
    | Raise ex =>
        deliver comb0 (filter_then_collect p comb)
          (map Ev events ++ [_termination_obj]) last st = Raise ex
    end.
Proof.
  induction events as [|e events IH]; intros last st l Hl.
  - simpl. destruct (filter_then_collect_termination st) as (st' & Hdo & _).
    exists st'. unfold bind. rewrite Hdo, Hl, app_nil_r. reflexivity.
  - cbn [map comprehension app deliver].
    pose proof (filter_then_collect_event e st l Hl) as He.
    destruct (p (element e)) as [keep|ex].
    + destruct He as (st1 & Hdo & Hl1).
      specialize (IH PyNone st1 _ Hl1).
      destruct (comprehension p (map element events)) as [kept|ex].
      * destruct IH as (st' & Hdel). exists st'.
        unfold bind at 1. rewrite Hdo, Hdel.
        destruct (truthy keep); [rewrite <- app_assoc|]; reflexivity.
      * unfold bind at 1. rewrite Hdo. exact IH.
    + unfold bind at 1. rewrite He. reflexivity.
Qed.

End FilterThenCollect.

(** C7: a [Filter] node that has processed an event has forwarded that
    very event to every outlet if [p(payload)] is truthy, and has
    forwarded nothing otherwise.  Hence, under a source,
    [Filter(p)] piped into [Reduce([], list-append)] makes
    [await_termination] return [[x for x in inputs if p(x)]] in every
    run in which the producer has emitted the inputs and terminated and
    whose thread has finished with no failure recorded; such a run
    exists whenever [p] raises on none of the inputs. *)
Theorem filter_keeps_truthy_in_order
    (p : PyVal -> Res PyVal) (comb : Combiner) (s0 : Source) (events : list Event) :
  runnable s0 ->
  _outlets s0 = filter_then_collect p comb ->
  _result (nodes s0) !! ([0; 0] : path) = None ->
  (forall outlets (q : path) e st r st',
      _do (UnaryFunctionFlow Filter p comb outlets) q (Ev e) st = Ok (r, st') ->
      exists keep,
        p (element e) = Ok keep /\
        forall j, j < length outlets ->
          received (q ++ [j]) st' =
          received (q ++ [j]) st ++ (if truthy keep then [Ev e] else [])) /\
  (forall tr s pr,
      exec (run s0, Idle) tr (s, pr) ->
      puts tr = map Ev events ++ [_termination_obj] ->
      thread s = Finished -> _ex s = None ->
      exists s',
        await_termination s =
        Some (s', Ok (PyList (filter (fun x => keeps p x = true)
                                (map element events))))) /\
  (Forall (fun x => exists keep, p x = Ok keep) (map element events) ->
   exists s,
     exec (run s0, Idle) (lockstep events) (s, Idle) /\
     puts (lockstep events) = map Ev events ++ [_termination_obj] /\
     thread s = Finished /\ _ex s = None).
Proof.
  intros Hrunnable Hout Hfresh.
  split; [intros outlets q e st r st'; apply filter_event_received|].
  pose proof (deliver_filter_then_collect p comb (_termination_result_fn s0) events
                PyNone (nodes s0) []) as Hdel.
  rewrite Hfresh in Hdel. specialize (Hdel eq_refl).
  split.
  - intros tr s pr Hexec Hputs Hthread Hex.
    destruct (finished_run _ _ _ _ _ Hrunnable Hexec Hputs Hthread Hex)
      as (r & s' & Hdel' & Hawait & _).
    rewrite Hout in Hdel'.
    destruct (comprehension p (map element events)) as [kept|ex] eqn:Hc.
    + destruct Hdel as (st' & Hdel). rewrite Hdel in Hdel'. injection Hdel' as <- _.
      exists s'. rewrite Hawait. simpl. rewrite (comprehension_filter _ _ _ Hc).
      reflexivity.
    + rewrite Hdel in Hdel'. discriminate.
  - intros Htotal. destruct (comprehension_total _ _ Htotal) as (kept & Hc).
    rewrite Hc in Hdel. destruct Hdel as (st' & Hdel). rewrite <- Hout in Hdel.
    destruct (runnable_lockstep _ _ _ _ Hrunnable Hdel) as (s & Hexec & Hthr & Hex & _).
    exists s. split; [exact Hexec|]. split; [apply puts_lockstep | auto].
Qed.

Lemma filter_keeps_truthy_in_order_witness :
  let s0 := source_of (filter_then_collect positive default_termination_result_fn) in
  runnable s0 /\
  exists s s',
    exec (run s0, Idle) (lockstep example_events) (s, Idle) /\
    await_termination s = Some (s', Ok (PyList [PyInt 1; PyInt 2])).
Proof.
  intros s0. split; [apply runnable_source_of|].
  destruct (filter_keeps_truthy_in_order positive default_termination_result_fn s0
              example_events (runnable_source_of _) eq_refl eq_refl)
    as (_ & Hsound & Hexists).
  destruct Hexists as (s & Hexec & Hputs & Hthr & Hex).
  { repeat constructor; eexists; reflexivity. }
  destruct (Hsound _ _ _ Hexec Hputs Hthr Hex) as (s' & Hawait).
  exists s, s'. split; [exact Hexec | exact Hawait].
Defined.

(** ** A failure in the tree *)

Lemma raise_on_error_recorded s ex :
  _ex s = Some ex -> _raise_on_error s (_ex s) = Raise (FlowError (Some ex)).
Proof. intros H. rewrite H. simpl. rewrite H. reflexivity. Qed.




(** ** [Map] *)

(** A [Map] node that has processed an event has handed every outlet one
    derived event: [fn(payload)] under the key and the time of the
    incoming event; the call returns [None]. *)
Theorem map_forwards_mapped_event
    (fn : PyVal -> Res PyVal) (comb : Combiner) (outlets : list Flow) (p : path)
    (event : Event) (st : Store) (r : PyVal) (st' : Store) :
  _do (UnaryFunctionFlow Map fn comb outlets) p (Ev event) st = Ok (r, st') ->
  exists mapped_element,
    fn (element event) = Ok mapped_element /\
    r = PyNone /\
    forall j, j < length outlets ->
      received (p ++ [j]) st' =
      received (p ++ [j]) st ++
      [Ev (mkEvent mapped_element (key event) (time event))].
Proof.
  intros H. rewrite do_unary in H. inv_run H.
  apply lift_Ok in Hrun0 as [Hfn ->]. apply ret_Ok in H as [-> ->].
  simpl in Hrun1. inv_run Hrun1. apply ret_Ok in Hrun1 as [_ ->].
  exists a0. split; [exact Hfn|]. split; [reflexivity|]. intros j Hj.
  rewrite (downstream_event_received _ _ _ _ _ _ _ Hrun0 j Hj). f_equal.
  apply record_call_Ok in Hrun as [E _].
  eapply received_snoc_other; [exact E|].
  intros Hp. apply (f_equal length) in Hp. rewrite length_app in Hp. simpl in Hp. lia.
Qed.

Lemma map_forwards_mapped_event_witness :
  let event := mkEvent (PyInt 7) (PyStr "k") (PyInt 3) in
  exists st',
    _do (UnaryFunctionFlow Map twice default_termination_result_fn
           [Reduce (PyList []) list_append; Reduce (PyList []) list_append])
      [] (Ev event) empty_store = Ok (PyNone, st') /\
    received [1] st' = [Ev (mkEvent (PyList [PyInt 7; PyInt 7]) (PyStr "k") (PyInt 3))].
Proof.
  intros event. eexists. split.
  - vm_compute. reflexivity.
  - destruct (map_forwards_mapped_event twice default_termination_result_fn
                [Reduce (PyList []) list_append; Reduce (PyList []) list_append]
                [] event empty_store PyNone _ ltac:(vm_compute; reflexivity))
      as (mapped_element & Hfn & _ & Hrecv).
    injection Hfn as <-. exact (Hrecv 1 ltac:(simpl; lia)).
Defined.

(** ** The combiner is folded over the results of the outlets *)

Lemma combine_from_fold comb p outlets :
  forall i acc st r st',
    combine_from _do comb p outlets i acc st = Ok (r, st') <->
    exists rs, termination_results p outlets i st = Ok (rs, st') /\
               fold_res comb acc rs = Ok r.
Proof.
  induction outlets as [|o outlets IH]; intros i acc st r st'; simpl.
  - split.
    + intros H. apply ret_Ok in H as [-> ->]. exists []. auto.
    + intros (rs & Hrs & Hfold). apply ret_Ok in Hrs as [-> ->].
      simpl in Hfold. injection Hfold as <-. reflexivity.
  - split.
    + intros H. inv_run H. apply lift_Ok in Hrun0 as [Hcomb ->].
      apply IH in H as (rs & Hrs & Hfold). exists (a :: rs). split.
      * eapply termination_results_cons; eassumption.
      * simpl. rewrite Hcomb. exact Hfold.
    + intros (rs & Hrs & Hfold). inv_run Hrs. inv_run Hrs.
      apply ret_Ok in Hrs as [-> ->]. simpl in Hfold.
      destruct (comb acc a) as [acc'|ex] eqn:Hcomb; [|discriminate].
      unfold bind at 1. rewrite Hrun. unfold bind at 1. unfold lift. rewrite Hcomb.
      apply IH. exists a0. auto.
Qed.

(** The termination branch of [_do_downstream] returns the left fold of
    the combiner over the termination results of the outlets, taken in
    outlet order from the result of the first outlet; with one outlet
    the combiner is not called. *)
Theorem termination_result_is_left_fold
    (comb : Combiner) (p : path) (outlets : list Flow) (st : Store) (r : PyVal)
    (st' : Store) :
  _do_downstream comb p outlets _termination_obj st = Ok (r, st') <->
  exists first rest,
    termination_results p outlets 0 st = Ok (first :: rest, st') /\
    fold_res comb first rest = Ok r.
Proof.
  destruct outlets as [|o outlets].
  - split; [discriminate|]. intros (first & rest & H & _). discriminate.
  - rewrite downstream_termination. split.
    + intros H. inv_run H. apply combine_from_fold in H as (rs & Hrs & Hfold).
      exists a, rs. split; [|exact Hfold].
      eapply termination_results_cons; eassumption.
    + intros (first & rest & Hrs & Hfold). simpl in Hrs. inv_run Hrs. inv_run Hrs.
      apply ret_Ok in Hrs as [[= -> ->] ->].
      unfold bind. rewrite Hrun. apply combine_from_fold. eauto.
Qed.

(** ** Events and the termination signal never mix *)

(** A call of [_do] with an event returns [None]; what any node receives
    during a call is of the kind of the item of the call (an event never
    makes a node receive the termination signal, nor the reverse); and
    the nodes that are not in the sub-tree of the node called receive
    nothing. *)
Theorem calls_keep_their_kind
    (n : Flow) (p : path) (it : Item) (st : Store) (r : PyVal) (st' : Store) :
  _do n p it st = Ok (r, st') ->
  (is_termination it = false -> r = PyNone) /\
  forall q : path,
    exists its,
      received q st' = received q st ++ its /\
      Forall (fun x => is_termination x = is_termination it) its /\
      (q <> p -> ~ below p q -> its = []).
Proof.
  intros H. split.
  - intros Hev. destruct it as [|event]; [discriminate|].
    destruct n as [cls fn comb outlets | inital_value fn].
    + rewrite do_unary in H. inv_run H. apply ret_Ok in H as [-> _]. reflexivity.
    + rewrite do_reduce in H. inv_run H. apply ret_Ok in H as [-> _]. reflexivity.
  - intros q. destruct (do_adds_calls _ _ _ _ _ _ H) as (new & E & F).
    exists (received_in q ((p, it) :: new)). split; [|split].
    + rewrite !received_eq, E, received_in_app. reflexivity.
    + apply received_in_kind. constructor; [reflexivity|].
      eapply Forall_impl; [exact F|]. intros c [_ Hk]. exact Hk.
    + intros Hne Hnb. apply received_in_none. constructor; [simpl; congruence|].
      eapply Forall_impl; [exact F|]. intros c [Hb _] Hc. apply Hnb.
      rewrite <- Hc. exact Hb.
Qed.

Lemma calls_keep_their_kind_witness :
  exists r st',
    _do (UnaryFunctionFlow FlatMap twice default_termination_result_fn
           [Reduce (PyInt 0) py_add]) [3] (Ev (int_event 1)) empty_store
      = Ok (r, st') /\
    r = PyNone /\
    exists its, received [3; 0] st' = received [3; 0] empty_store ++ its /\
                Forall (fun x => is_termination x = false) its.
Proof.
  destruct (_do (UnaryFunctionFlow FlatMap twice default_termination_result_fn
                   [Reduce (PyInt 0) py_add]) [3] (Ev (int_event 1)) empty_store)
    as [[r st']|ex] eqn:H; [|vm_compute in H; discriminate].
  destruct (calls_keep_their_kind _ _ _ _ _ _ H) as (Hr & Hq).
  destruct (Hq [3; 0]) as (its & E & F & _).
  exists r, st'. split; [reflexivity|]. split; [apply Hr; reflexivity|].
  exists its. split; [exact E | exact F].
Defined.

(** ** The accumulators outside a sub-tree *)

Lemma keeps_results_refl outside b st : keeps_results outside b st st.
Proof. split; auto. Qed.

Lemma keeps_results_trans outside b st1 st2 st3 :
  keeps_results outside b st1 st2 -> keeps_results outside b st2 st3 ->
  keeps_results outside b st1 st3.
Proof.
  intros [T1 F1] [T2 F2]. split.
  - intros Hb. rewrite (T2 Hb). apply T1, Hb.
  - intros q Hq. rewrite (F2 q Hq). apply F1, Hq.
Qed.

Lemma keeps_results_outlet (p : path) (i : nat) b st st' :
  keeps_results (fun q => q <> p ++ [i] /\ ~ below (p ++ [i]) q) b st st' ->
  keeps_results (fun q => ~ below p q) b st st'.
Proof.
  intros [T F]. split; [exact T|]. intros q Hq. apply F. split.
  - intros ->. apply Hq, below_outlet.
  - intros Hb. apply Hq. eapply below_trans; [apply below_outlet | exact Hb].
Qed.

Lemma combine_from_keeps comb (p : path) outlets :
  Forall result_frame outlets ->
  forall i acc st r st',
    combine_from _do comb p outlets i acc st = Ok (r, st') ->
    keeps_results (fun q => ~ below p q) true st st'.
Proof.
  induction 1 as [|o outlets Ho _ IH]; intros i acc st r st' H; simpl in H.
  - apply ret_Ok in H as [_ ->]. apply keeps_results_refl.
  - inv_run H. apply lift_Ok in Hrun0 as [_ ->].
    eapply keeps_results_trans; [|eapply IH; exact H].
    apply Ho, keeps_results_outlet in Hrun. exact Hrun.
Qed.

Lemma broadcast_keeps (p : path) outlets :
  Forall result_frame outlets ->
  forall i event st u st',
    broadcast _do p outlets i event st = Ok (u, st') ->
    keeps_results (fun q => ~ below p q) false st st'.
Proof.
  induction 1 as [|o outlets Ho _ IH]; intros i event st u st' H; simpl in H.
  - apply ret_Ok in H as [_ ->]. apply keeps_results_refl.
  - inv_run H.
    eapply keeps_results_trans; [|eapply IH; exact H].
    apply Ho, keeps_results_outlet in Hrun. exact Hrun.
Qed.

Lemma downstream_keeps comb (p : path) outlets it st r st' :
  Forall result_frame outlets ->
  _do_downstream comb p outlets it st = Ok (r, st') ->
  keeps_results (fun q => ~ below p q) (is_termination it) st st'.
Proof.
  intros Hall H. destruct it as [|event].
  - destruct outlets as [|o rest]; [discriminate|].
    rewrite downstream_termination in H. inv_run H.
    apply Forall_cons in Hall as [Ho Hrest].
    eapply keeps_results_trans; [|eapply combine_from_keeps; eassumption].
    apply Ho, keeps_results_outlet in Hrun. exact Hrun.
  - rewrite downstream_event in H. inv_run H. apply ret_Ok in H as [_ ->].
    eapply broadcast_keeps; eassumption.
Qed.

Lemma forward_each_keeps comb (p : path) outlets event :
  Forall result_frame outlets ->
  forall mapped_elements st u st',
    forward_each (_do_downstream comb p outlets) event mapped_elements st = Ok (u, st') ->
    keeps_results (fun q => ~ below p q) false st st'.
Proof.
  intros Hall. induction mapped_elements as [|x xs IH]; intros st u st' H; simpl in H.
  - apply ret_Ok in H as [_ ->]. apply keeps_results_refl.
  - inv_run H. eapply keeps_results_trans; [|eapply IH; exact H].
    eapply (downstream_keeps comb _ _ (Ev _)); eassumption.
Qed.

Lemma keeps_results_weaken (outside outside' : path -> Prop) b st st' :
  (forall q, outside' q -> outside q) ->
  keeps_results outside b st st' -> keeps_results outside' b st st'.
Proof. intros Hsub [T F]. split; [exact T|]. intros q Hq. apply F, Hsub, Hq. Qed.

Lemma do_result_frame n : result_frame n.
Proof.
  induction n as [cls fn comb outlets IH | inital_value fn] using Flow_nested_ind;
    intros p it st r st' H.
  - rewrite do_unary in H. inv_run H. apply record_call_Ok in Hrun as [_ E].
    assert (Hkeep : keeps_results (fun q => ~ below p q) (is_termination it) st0 st').
    { destruct it as [|event].
      - eapply (downstream_keeps comb _ _ _termination_obj); eassumption.
      - inv_run H. apply lift_Ok in Hrun as [_ ->]. apply ret_Ok in H as [_ ->].
        simpl is_termination. destruct cls; simpl in Hrun0.
        + inv_run Hrun0. apply ret_Ok in Hrun0 as [_ ->].
          eapply (downstream_keeps comb _ _ (Ev _)); eassumption.
        + destruct (truthy a0).
          * inv_run Hrun0. apply ret_Ok in Hrun0 as [_ ->].
            eapply (downstream_keeps comb _ _ (Ev _)); eassumption.
          * apply ret_Ok in Hrun0 as [_ ->]. apply keeps_results_refl.
        + inv_run Hrun0. apply lift_Ok in Hrun as [_ ->].
          eapply forward_each_keeps; eassumption. }
    destruct Hkeep as [T F]. split.
    + intros Hb. rewrite (T Hb). exact E.
    + intros q [_ Hq]. rewrite (F q Hq), E. reflexivity.
  - rewrite do_reduce in H. inv_run H. apply record_call_Ok in Hrun as [_ E].
    destruct it as [|event].
    + injection H as _ <-. split; [intros _; exact E|].
      intros q _. rewrite E. reflexivity.
    + inv_run H. injection Hrun as _ <-. apply lift_Ok in Hrun0 as [_ ->].
      apply ret_Ok in H as [_ ->]. injection Hrun1 as _ <-. split; [discriminate|].
      intros q [Hne _]. simpl. rewrite lookup_insert_ne by congruence.
      rewrite E. reflexivity.
Qed.

(** Whatever the tree, a call of [_do] on the node at [p] with the
    termination signal assigns no accumulator; a call with an event
    assigns only accumulators of [Reduce] nodes in the sub-tree of [p]:
    the nodes of the other sub-trees keep their [_result]. *)
Theorem call_keeps_results_outside_subtree
    (n : Flow) (p : path) (it : Item) (st : Store) (r : PyVal) (st' : Store) :
  _do n p it st = Ok (r, st') ->
  (is_termination it = true -> _result st' = _result st) /\
  (forall q : path, q <> p -> ~ below p q -> _result st' !! q = _result st !! q).
Proof.
  intros H. destruct (do_result_frame n _ _ _ _ _ H) as [T F].
  split; [exact T|]. intros q Hne Hnb. apply F. auto.
Qed.

Lemma call_keeps_results_outside_subtree_witness :
  exists r st',
    _do (UnaryFunctionFlow Map identity default_termination_result_fn
           [Reduce (PyInt 0) py_add]) [0] (Ev (int_event 4)) after_first_run
      = Ok (r, st') /\
    _result st' !! ([1] : path) = _result after_first_run !! ([1] : path).
Proof.
  destruct (_do (UnaryFunctionFlow Map identity default_termination_result_fn
                   [Reduce (PyInt 0) py_add]) [0] (Ev (int_event 4)) after_first_run)
    as [[r st']|ex] eqn:H; [|vm_compute in H; discriminate].
  destruct (call_keeps_results_outside_subtree _ _ _ _ _ _ H) as [_ F].
  exists r, st'. split; [reflexivity|]. apply F.
  - discriminate.
  - intros (i & rest & Hq). discriminate.
Defined.

(** ** The admission queue is bounded *)

Lemma to_keeps_queue outlets :
  forall s, buffer_size (foldl to s outlets) = buffer_size s /\
            _q (foldl to s outlets) = _q s.
Proof.
  induction outlets as [|o outlets IH]; intros s; simpl; [auto|].
  destruct (IH (to s o)) as [-> ->]. auto.
Qed.

Lemma queue_bound_step c l c' :
  step c l c' ->
  buffer_size c'.1 = buffer_size c.1 /\
  ((0 < buffer_size c.1)%Z ->
   (Z.of_nat (length (_q c.1)) <= buffer_size c.1)%Z ->
   (Z.of_nat (length (_q c'.1)) <= buffer_size c.1)%Z).
Proof.
  intros Hstep. destruct Hstep as
    [s event H | s ex H | s s' event H | s H | s ex H
    | s s' pr H | s s' pr H | s s' pr H]; simpl; auto.
  - unfold q_put in H. destruct (queue_full _ _) eqn:Hfull; [discriminate|].
    injection H as <-. simpl. split; [reflexivity|]. intros Hpos _.
    unfold queue_full in Hfull. rewrite length_app. simpl.
    apply andb_false_iff in Hfull as [Hf | Hf].
    + apply Z.ltb_ge in Hf. lia.
    + apply Z.leb_gt in Hf. lia.
  - unfold loop_get in H. destruct (thread s) as [|[?|]| |]; try discriminate.
    destruct (_q s) as [|event rest]; [discriminate|]. injection H as <-. simpl.
    split; [reflexivity|]. lia.
  - unfold loop_body in H. destruct (thread s) as [|[event|]| |]; try discriminate.
    destruct (_do_downstream _ _ _ _ _) as [[r st]|ex].
    + destruct (is_termination event); injection H as <-; simpl; auto.
    + injection H as <-. simpl. split; [reflexivity|].
      destruct (_q s) as [|x rest]; simpl; lia.
  - unfold thread_exit in H. destruct (thread s); try discriminate.
    destruct (queue_full _ _); [discriminate|]. injection H as <-. simpl. auto.
Qed.

Lemma queue_bound_exec c tr c' :
  exec c tr c' ->
  (0 < buffer_size c.1)%Z ->
  (Z.of_nat (length (_q c.1)) <= buffer_size c.1)%Z ->
  buffer_size c'.1 = buffer_size c.1 /\
  (Z.of_nat (length (_q c'.1)) <= buffer_size c.1)%Z.
Proof.
  induction 1 as [c | c tr c' l c'' _ IH Hstep]; intros Hpos Hle; [auto|].
  destruct (IH Hpos Hle) as [Hsize Hq].
  destruct (queue_bound_step _ _ _ Hstep) as [Hsize' Hq'].
  rewrite Hsize in Hsize', Hq'. split; [exact Hsize'|]. apply Hq'; assumption.
Qed.

(** A source is built by [Source(buffer_size)] only when [buffer_size]
    is positive; then, whatever outlets are attached and however the
    producer and the loop thread interleave, the admission queue never
    holds more than [buffer_size] items, and a put goes through only
    while it holds fewer. *)
Theorem admission_queue_bounded
    (size : Z) (comb : Combiner) (s0 : Source) (outlets : list Flow)
    (tr : list Label) (s : Source) (pr : Producer) :
  Source__init__ size comb = Ok s0 ->
  exec (run (foldl to s0 outlets), Idle) tr (s, pr) ->
  (0 < size)%Z /\
  buffer_size s = size /\
  (Z.of_nat (length (_q s)) <= size)%Z /\
  (forall event c', step (s, pr) (EmitPut event) c' ->
                    (Z.of_nat (length (_q s)) < size)%Z).
Proof.
  intros Hinit Hexec. unfold Source__init__ in Hinit.
  destruct (0 <? size)%Z eqn:Hpos; [|discriminate]. apply Z.ltb_lt in Hpos.
  injection Hinit as <-.
  destruct (to_keeps_queue outlets
              (mkSource [] comb size [] [] None None NotStarted empty_store))
    as [Hsize0 Hq0].
  pose proof (queue_bound_exec _ _ _ Hexec) as Hbound. simpl in Hbound.
  rewrite Hsize0, Hq0 in Hbound. simpl in Hbound.
  destruct (Hbound Hpos ltac:(lia)) as [Hsize Hq].
  split; [exact Hpos|]. split; [exact Hsize|]. split; [exact Hq|].
  intros event c' Hstep. inversion Hstep as [| |s1 s2 e H| | | | |]; subst s1.
  unfold q_put in H. destruct (queue_full _ _) eqn:Hfull; [discriminate|].
  unfold queue_full in Hfull. rewrite Hsize in Hfull.
  apply andb_false_iff in Hfull as [Hf | Hf].
  - apply Z.ltb_ge in Hf. lia.
  - apply Z.leb_gt in Hf. lia.
Qed.

Lemma admission_queue_bounded_witness :
  exists s0 s,
    Source__init__ 1 default_termination_result_fn = Ok s0 /\
    exec (run (foldl to s0 sum_outlets), Idle) (lockstep example_events) (s, Idle) /\
    (Z.of_nat (length (_q s)) <= 1)%Z.
Proof.
  assert (Hdel : exists r st',
             deliver default_termination_result_fn sum_outlets
               (map Ev example_events ++ [_termination_obj]) PyNone empty_store
             = Ok (r, st')).
  { do 2 eexists. vm_compute. reflexivity. }
  destruct Hdel as (r & st' & Hdel).
  pose proof (lockstep_source_of _ _ _ _ Hdel) as Hexec.
  eexists. eexists. split; [reflexivity|]. split; [exact Hexec|].
  destruct (admission_queue_bounded 1 default_termination_result_fn _ sum_outlets
              _ _ _ eq_refl Hexec) as (_ & _ & Hq & _).
  exact Hq.
Defined.

(** ** Once the thread has ended *)

Lemma finished_step s pr l s' pr' :
  thread s = Finished -> step (s, pr) l (s', pr') ->
  thread s' = Finished /\ nodes s' = nodes s /\
  _termination_future s' = _termination_future s /\ _ex s' = _ex s /\
  _termination_q s' = _termination_q s /\
  _q s' = _q s ++ from_option (fun x => [x]) [] (put_of l).
Proof.
  intros Hthread Hstep.
  inversion Hstep as
    [s1 event H | s1 ex H | s1 s2 event H | s1 H | s1 ex H
    | s1 s2 pr1 H | s1 s2 pr1 H | s1 s2 pr1 H]; subst; simpl;
    rewrite ?app_nil_r; auto 10.
  - unfold q_put in H. destruct (queue_full _ _); [discriminate|]. injection H as <-.
    simpl. auto 10.
  - unfold loop_get in H. rewrite Hthread in H. discriminate.
  - unfold loop_body in H. rewrite Hthread in H. discriminate.
  - unfold thread_exit in H. rewrite Hthread in H. discriminate.
Qed.

Lemma finished_exec c tr c' :
  exec c tr c' -> thread c.1 = Finished ->
  thread c'.1 = Finished /\ nodes c'.1 = nodes c.1 /\
  _termination_future c'.1 = _termination_future c.1 /\ _ex c'.1 = _ex c.1 /\
  _termination_q c'.1 = _termination_q c.1 /\
  _q c'.1 = _q c.1 ++ puts tr.
Proof.
  induction 1 as [c | c tr c' l c'' _ IH Hstep]; intros Hthread.
  - rewrite app_nil_r. auto 10.
  - destruct (IH Hthread) as (Ht & Hn & Hf & He & Htq & Hq).
    destruct c' as [s pr], c'' as [s' pr'].
    destruct (finished_step _ _ _ _ _ Ht Hstep) as (Ht' & Hn' & Hf' & He' & Htq' & Hq').
    simpl in *. rewrite Hn', Hf', He', Htq', Hq', Hq, puts_snoc, app_assoc. auto 10.
Qed.

(** Once the thread of a source has ended, nothing is processed any
    more: whatever the producer does, the nodes, the future, the failure
    and [_termination_q] stay as they are, and what [_emit] puts stays on
    the admission queue (an event emitted after the end of the run is
    accepted and never reaches a node). *)
Theorem ended_thread_processes_nothing
    (s : Source) (pr : Producer) (tr : list Label) (s' : Source) (pr' : Producer) :
  thread s = Finished ->
  exec (s, pr) tr (s', pr') ->
  thread s' = Finished /\ nodes s' = nodes s /\
  _termination_future s' = _termination_future s /\ _ex s' = _ex s /\
  _termination_q s' = _termination_q s /\
  _q s' = _q s ++ puts tr.
Proof. intros Hthread Hexec. exact (finished_exec _ _ _ Hexec Hthread). Qed.

Lemma late_emit_exec :
  exec (finished_sum_source, Idle) late_emit
       (with_q finished_sum_source [Ev (int_event 9)], Idle).
Proof.
  unfold late_emit.
  eapply exec_cons; [apply step_emit_enter; reflexivity|].
  eapply exec_cons; [apply step_emit_put; reflexivity|].
  eapply exec_cons; [apply step_emit_return; reflexivity|].
  apply exec_nil.
Qed.

Lemma ended_thread_processes_nothing_witness :
  exists s',
    exec (finished_sum_source, Idle) late_emit (s', Idle) /\
    nodes s' = nodes finished_sum_source /\
    _q s' = [Ev (int_event 9)].
Proof.
  eexists. split; [exact late_emit_exec|].
  destruct (ended_thread_processes_nothing finished_sum_source Idle late_emit _ Idle
              eq_refl late_emit_exec) as (_ & Hn & _ & _ & _ & Hq).
  split; [exact Hn | exact Hq].
Defined.

(** ** [await_termination] answers once *)






(** ** A run that fails *)






(** ** A node of one of the three classes piped into a fold node *)

Section UnaryThenReduce.
Variable cls : UnaryClass.
Variable fn : PyVal -> Res PyVal.
Variable comb comb0 : Combiner.
Variable inital_value : PyVal.
Variable g : PyVal -> PyVal -> Res PyVal.

(** [self._result] of the fold node. *)
Local Abbreviation folded st := (default inital_value (_result st !! ([0; 0] : path))).

Lemma forward_each_reduce e :
  forall ys st,
    match fold_res g (folded st) ys with
    | Ok v =>
        exists st',
          forward_each (_do_downstream comb [0] [Reduce inital_value g]) e ys st
            = Ok (tt, st') /\
          folded st' = v
    | Raise ex =>
        forward_each (_do_downstream comb [0] [Reduce inital_value g]) e ys st = Raise ex
    end.
Proof.
  induction ys as [|y ys IH]; intros st; simpl.
  - exists st. auto.
  - assert (Hstep :
      (_do_downstream comb [0] [Reduce inital_value g]
         (Ev (mkEvent y (key e) (time e))) ;;
       forward_each (_do_downstream comb [0] [Reduce inital_value g]) e ys) st =
      match g (folded st) y with
      | Ok v =>
          forward_each (_do_downstream comb [0] [Reduce inital_value g]) e ys
            (mkStore (<[([0; 0] : path) := v]> (_result st))
               (calls st ++ [([0; 0] : path, Ev (mkEvent y (key e) (time e)))]))
      | Raise ex => Raise ex
      end).
    { unfold bind at 1. rewrite downstream_single_event.
      change ([0] ++ [0]) with ([0; 0] : path). rewrite reduce_event. simpl element.
      destruct (g (folded st) y); reflexivity. }
    rewrite Hstep. destruct (g (folded st) y) as [v|ex]; [|reflexivity].
    match goal with |- context [forward_each _ e ys ?st1] => specialize (IH st1) end.
    simpl _result in IH. rewrite lookup_insert_eq in IH. simpl in IH. exact IH.
Qed.

Lemma do_internal_forward_each (downstream : Item -> M PyVal) e fn_result st :
  _do_internal downstream cls e fn_result st =
  match forwarded_of cls (element e) fn_result with
  | Ok ys => forward_each downstream e ys st
  | Raise ex => Raise ex
  end.
Proof.
  unfold forwarded_of. destruct cls; simpl.
  - reflexivity.
  - destruct (truthy fn_result); [|reflexivity]. destruct e as [x k t]. reflexivity.
  - unfold bind, lift. destruct (py_iter fn_result); reflexivity.
Qed.

Lemma unary_then_reduce_unfold e st :
  _do_downstream comb0 [] (unary_then_reduce cls fn comb inital_value g) (Ev e) st =
  match fn (element e) with
  | Ok fn_result =>
      match _do_internal (_do_downstream comb [0] [Reduce inital_value g]) cls e
              fn_result (mkStore (_result st) (calls st ++ [([0] : path, Ev e)])) with
      | Ok (_, st') => Ok (PyNone, st')
      | Raise ex => Raise ex
      end
  | Raise ex => Raise ex
  end.
Proof.
  unfold unary_then_reduce. rewrite downstream_single_event, do_unary.
  change ([] ++ [0]) with ([0] : path).
  unfold bind, record_call, lift, ret.
  destruct (fn (element e)) as [fn_result|ex]; [|reflexivity].
  destruct (_do_internal _ _ _ _ _) as [[u st']|ex]; reflexivity.
Qed.

Lemma unary_then_reduce_event e st :
  match forwarded_for cls fn (element e) with
  | Ok ys =>
      match fold_res g (folded st) ys with
      | Ok v =>
          exists st',
            _do_downstream comb0 [] (unary_then_reduce cls fn comb inital_value g)
              (Ev e) st = Ok (PyNone, st') /\
            folded st' = v
      | Raise ex =>
          _do_downstream comb0 [] (unary_then_reduce cls fn comb inital_value g)
            (Ev e) st = Raise ex
      end
  | Raise ex =>
      _do_downstream comb0 [] (unary_then_reduce cls fn comb inital_value g)
        (Ev e) st = Raise ex
  end.
Proof.
  rewrite unary_then_reduce_unfold. unfold forwarded_for.
  destruct (fn (element e)) as [fn_result|ex]; [|reflexivity].
  rewrite do_internal_forward_each.
  destruct (forwarded_of cls (element e) fn_result) as [ys|ex]; [|reflexivity].
  pose proof (forward_each_reduce e ys
                (mkStore (_result st) (calls st ++ [([0] : path, Ev e)]))) as H.
  simpl _result in H.
  destruct (fold_res g (folded st) ys) as [v|ex].
  - destruct H as (st' & -> & Hv). exists st'. auto.
  - rewrite H. reflexivity.
Qed.

Lemma unary_then_reduce_termination st :
  exists st',
    _do_downstream comb0 [] (unary_then_reduce cls fn comb inital_value g)
      _termination_obj st = Ok (folded st, st').
Proof.
  unfold unary_then_reduce.
  rewrite downstream_single_termination, map_termination, reduce_termination.
  eexists. reflexivity.
Qed.

Lemma deliver_unary_then_reduce :
  forall events last st r st',
    deliver comb0 (unary_then_reduce cls fn comb inital_value g)
      (map Ev events ++ [_termination_obj]) last st = Ok (r, st') ->
    exists ys,
      forwarded_for_all cls fn (map element events) = Ok ys /\
      fold_res g (folded st) ys = Ok r.
Proof.
  induction events as [|e events IH]; intros last st r st' H.
  - simpl in H. inv_run H. apply ret_Ok in H as [-> ->].
    destruct (unary_then_reduce_termination st) as (st1 & Hterm).
    rewrite Hterm in Hrun. injection Hrun as <- _. exists []. auto.
  - cbn [map app deliver] in H. inv_run H.
    pose proof (unary_then_reduce_event e st) as He.
    cbn [map forwarded_for_all].
    destruct (forwarded_for cls fn (element e)) as [ys|ex]; [|congruence].
    destruct (fold_res g (folded st) ys) as [v|ex] eqn:Hfold; [|congruence].
    destruct He as (st1 & He & Hv). rewrite He in Hrun. injection Hrun as _ <-.
    destruct (IH _ _ _ _ H) as (zs & -> & Hzs). exists (ys ++ zs).
    split; [reflexivity|]. rewrite fold_res_app, Hfold, <- Hv. exact Hzs.
Qed.

Lemma unary_then_reduce_delivers :
  forall events last st ys v,
    forwarded_for_all cls fn (map element events) = Ok ys ->
    fold_res g (folded st) ys = Ok v ->
    exists st',
      deliver comb0 (unary_then_reduce cls fn comb inital_value g)
        (map Ev events ++ [_termination_obj]) last st = Ok (v, st').
Proof.
  induction events as [|e events IH]; intros last st ys v Hall Hfold.
  - simpl in Hall. injection Hall as <-. simpl in Hfold. injection Hfold as <-.
    destruct (unary_then_reduce_termination st) as (st' & Hterm).
    exists st'. simpl. unfold bind. rewrite Hterm. reflexivity.
  - cbn [map forwarded_for_all] in Hall. cbn [map app deliver].
    pose proof (unary_then_reduce_event e st) as He.
    destruct (forwarded_for cls fn (element e)) as [ys1|ex]; [|discriminate].
    destruct (forwarded_for_all cls fn (map element events)) as [zs|ex] eqn:Hzs;
      [|discriminate].
    injection Hall as <-. rewrite fold_res_app in Hfold.
    destruct (fold_res g (folded st) ys1) as [v1|ex]; [|discriminate].
    destruct He as (st1 & He & Hv). rewrite <- Hv in Hfold.
    destruct (IH PyNone st1 zs v eq_refl Hfold) as (st' & Hdel).
    exists st'. unfold bind at 1. rewrite He. exact Hdel.
Qed.

End UnaryThenReduce.

(** A [Map], [Filter] or [FlatMap] node piped into
    [Reduce(inital_value, g)] under a source makes [await_termination]
    return the left fold of [g], from [inital_value], over what the node
    forwards for the payloads emitted, taken in emission order: for each
    payload [x], [fn(x)] ([Map]), [x] itself when [fn(x)] is truthy
    ([Filter]), the elements of [fn(x)] in order ([FlatMap]).  This holds
    of every run in which the producer has emitted the events and
    terminated and whose thread has ended with no failure recorded; such
    a run exists whenever [fn] and the fold raise nothing. *)
Theorem unary_then_reduce_folds_forwarded
    (cls : UnaryClass) (fn : PyVal -> Res PyVal) (comb : Combiner)
    (inital_value : PyVal) (g : PyVal -> PyVal -> Res PyVal)
    (s0 : Source) (events : list Event) :
  runnable s0 ->
  _outlets s0 = unary_then_reduce cls fn comb inital_value g ->
  _result (nodes s0) !! ([0; 0] : path) = None ->
  (forall tr s pr,
      exec (run s0, Idle) tr (s, pr) ->
      puts tr = map Ev events ++ [_termination_obj] ->
      thread s = Finished -> _ex s = None ->
      exists ys v s',
        forwarded_for_all cls fn (map element events) = Ok ys /\
        fold_res g inital_value ys = Ok v /\
        await_termination s = Some (s', Ok v)) /\
  (forall ys v,
      forwarded_for_all cls fn (map element events) = Ok ys ->
      fold_res g inital_value ys = Ok v ->
      exists s,
        exec (run s0, Idle) (lockstep events) (s, Idle) /\
        puts (lockstep events) = map Ev events ++ [_termination_obj] /\
        thread s = Finished /\ _ex s = None).
Proof.
  intros Hrunnable Hout Hfresh. split.
  - intros tr s pr Hexec Hputs Hthread Hex.
    destruct (finished_run _ _ _ _ _ Hrunnable Hexec Hputs Hthread Hex)
      as (r & s' & Hdel & Hawait & _).
    rewrite Hout in Hdel.
    apply deliver_unary_then_reduce in Hdel as (ys & Hys & Hfold).
    rewrite Hfresh in Hfold. exists ys, r, s'. auto.
  - intros ys v Hys Hfold.
    destruct (unary_then_reduce_delivers cls fn comb (_termination_result_fn s0)
                inital_value g events PyNone (nodes s0) ys v Hys) as (st' & Hdel).
    { rewrite Hfresh. exact Hfold. }
    rewrite <- Hout in Hdel.
    destruct (runnable_lockstep _ _ _ _ Hrunnable Hdel) as (s & Hexec & Hthr & Hex & _).
    exists s. split; [exact Hexec|]. split; [apply puts_lockstep | auto].
Qed.

Lemma unary_then_reduce_folds_forwarded_witness :
  let s0 := source_of (unary_then_reduce FlatMap twice default_termination_result_fn
                         (PyInt 0) py_add) in
  runnable s0 /\
  exists s s',
    exec (run s0, Idle) (lockstep example_events) (s, Idle) /\
    await_termination s = Some (s', Ok (PyInt 6)).
Proof.
  intros s0. split; [apply runnable_source_of|].
  destruct (unary_then_reduce_folds_forwarded FlatMap twice
              default_termination_result_fn (PyInt 0) py_add s0 example_events
              (runnable_source_of _) eq_refl eq_refl) as (Hsound & Hexists).
  destruct (Hexists _ (PyInt 6) eq_refl eq_refl) as (s & Hexec & Hputs & Hthr & Hex).
  destruct (Hsound _ _ _ Hexec Hputs Hthr Hex) as (ys & v & s' & Hys & Hfold & Hawait).
  injection Hys as <-. injection Hfold as <-.
  exists s, s'. split; [exact Hexec | exact Hawait].
Defined.

(** ** What the outlets of a node receive with the termination signal *)

Lemma positions_head n (q : path) : q ∈ positions n q.
Proof. destruct n; simpl; apply elem_of_cons; left; reflexivity. Qed.

Lemma outlet_in_positions_from (p : path) outlets :
  forall i j, j < length outlets -> p ++ [i + j] ∈ positions_from p outlets i.
Proof.
  induction outlets as [|o outlets IH]; intros i j Hj; simpl in Hj; [lia|].
  simpl. apply elem_of_app. destruct j as [|j].
  - left. rewrite Nat.add_0_r. apply positions_head.
  - right. replace (i + S j) with (S i + j) by lia. apply IH. lia.
Qed.

Lemma downstream_termination_received comb (p : path) outlets st r st' :
  _do_downstream comb p outlets _termination_obj st = Ok (r, st') ->
  forall j, j < length outlets ->
    received (p ++ [j]) st' = received (p ++ [j]) st ++ [_termination_obj].
Proof.
  intros H j Hj.
  apply (downstream_reaches _ _ _ _ _ _ (all_reach_once _) H).
  apply (outlet_in_positions_from p outlets 0 j Hj).
Qed.

(** ** What the outlets of a source receive *)

Lemma deliver_received comb outlets :
  forall items last st r st',
    deliver comb outlets items last st = Ok (r, st') ->
    forall j, j < length outlets ->
      received [j] st' = received [j] st ++ items.
Proof.
  induction items as [|it items IH]; intros last st r st' H j Hj; simpl in H.
  - apply ret_Ok in H as [_ ->]. rewrite app_nil_r. reflexivity.
  - inv_run H. rewrite (IH _ _ _ _ H j Hj). destruct it as [|event].
    + pose proof (downstream_termination_received _ [] _ _ _ _ Hrun j Hj) as E.
      change ([] ++ [j]) with [j] in E. rewrite E, <- app_assoc. reflexivity.
    + pose proof (downstream_event_received _ [] _ _ _ _ _ Hrun j Hj) as E.
      change ([] ++ [j]) with [j] in E. rewrite E, <- app_assoc. reflexivity.
Qed.

(** The fan-out of a source: in every run in which the producer has
    emitted [events] and then terminated, and whose thread has ended
    with no failure recorded, each outlet of the source has received,
    during the run, exactly the events emitted, each once and in the
    order of emission, and then the termination signal. *)
Theorem source_outlets_receive_emitted
    (s0 : Source) (tr : list Label) (s : Source) (pr : Producer)
    (events : list Event) (j : nat) :
  runnable s0 ->
  exec (run s0, Idle) tr (s, pr) ->
  puts tr = map Ev events ++ [_termination_obj] ->
  thread s = Finished -> _ex s = None ->
  j < length (_outlets s0) ->
  received [j] (nodes s) =
  received [j] (nodes s0) ++ map Ev events ++ [_termination_obj].
Proof.
  intros Hrunnable Hexec Hputs Hthread Hex Hj.
  destruct (finished_run _ _ _ _ _ Hrunnable Hexec Hputs Hthread Hex)
    as (r & s' & Hdel & _).
  apply (deliver_received _ _ _ _ _ _ _ Hdel j Hj).
Qed.

Lemma source_outlets_receive_emitted_witness :
  exists s,
    exec (run (source_of two_reduces), Idle) (lockstep example_events) (s, Idle) /\
    received [1] (nodes s) = map Ev example_events ++ [_termination_obj].
Proof.
  assert (Hdel : exists r st',
             deliver default_termination_result_fn two_reduces
               (map Ev example_events ++ [_termination_obj]) PyNone empty_store
             = Ok (r, st')).
  { do 2 eexists. vm_compute. reflexivity. }
  destruct Hdel as (r & st' & Hdel).
  pose proof (lockstep_source_of _ _ _ _ Hdel) as Hexec.
  eexists. split; [exact Hexec|].
  apply (source_outlets_receive_emitted (source_of two_reduces)
           (lockstep example_events) _ Idle example_events 1
           (runnable_source_of _) Hexec (puts_lockstep _) eq_refl eq_refl).
  simpl. lia.
Defined.

(** ** At any time of a run *)

(** At any time of a run of a source in which no failure is recorded,
    the items the producer has put are, in this order, those the loop
    has processed, the one it holds and those still queued (first in,
    first out, none lost, none processed twice), and the nodes are as
    processing the former one after the other, from the state before
    the run, has left them. *)
Theorem run_processes_items_in_order
    (s0 : Source) (tr : list Label) (s : Source) (pr : Producer) :
  runnable s0 ->
  exec (run s0, Idle) tr (s, pr) ->
  _ex s = None ->
  exists processed last,
    puts tr = processed ++ held (thread s) ++ _q s /\
    deliver (_termination_result_fn s0) (_outlets s0) processed PyNone (nodes s0)
      = Ok (last, nodes s) /\
    (Forall is_event processed \/
     exists before,
       processed = before ++ [_termination_obj] /\ Forall is_event before /\
       left_loop (thread s) /\ _termination_future s = Some last).
Proof.
  intros Hrunnable Hexec Hex.
  pose proof (run_inv_exec s0 _ _ _ Hexec (run_inv_init s0 Hrunnable)) as (_ & _ & Hinv).
  simpl in Hinv. destruct (Hinv Hex) as (processed & last & Hputs & Hdel & Hthr).
  exists processed, last. split; [exact Hputs|]. split; [exact Hdel|].
  destruct (thread s) as [|held| |].
  - destruct Hthr.
  - left. apply Hthr.
  - right. destruct Hthr as ((before & -> & Hall) & Hfut & _).
    exists before. unfold left_loop. auto.
  - right. destruct Hthr as ((before & -> & Hall) & Hfut & _).
    exists before. unfold left_loop. auto.
Qed.

Lemma run_processes_items_in_order_witness :
  exists s processed last,
    exec (run (source_of sum_outlets), Idle) (lockstep example_events) (s, Idle) /\
    puts (lockstep example_events) = processed ++ held (thread s) ++ _q s /\
    deliver default_termination_result_fn sum_outlets processed PyNone empty_store
      = Ok (last, nodes s).
Proof.
  assert (Hdel : exists r st',
             deliver default_termination_result_fn sum_outlets
               (map Ev example_events ++ [_termination_obj]) PyNone empty_store
             = Ok (r, st')).
  { do 2 eexists. vm_compute. reflexivity. }
  destruct Hdel as (r & st' & Hdel).
  pose proof (lockstep_source_of _ _ _ _ Hdel) as Hexec.
  destruct (run_processes_items_in_order (source_of sum_outlets)
              (lockstep example_events) _ Idle (runnable_source_of _) Hexec eq_refl)
    as (processed & last & Hputs & Hdel' & _).
  eexists. exists processed, last. split; [exact Hexec|]. split; assumption.
Defined.

(** ** A failure releases one producer suspended in its put *)

Lemma within_bound_step s pr l s' pr' :
  within_bound s -> step (s, pr) l (s', pr') -> within_bound s'.
Proof.
  unfold within_bound. intros Hb Hstep.
  destruct (queue_bound_step _ _ _ Hstep) as [Hsize Hq]. simpl in Hsize, Hq.
  rewrite Hsize. intros Hpos. apply Hq; [exact Hpos | apply Hb, Hpos].
Qed.

Lemma not_full_below {A} maxsize (q : list A) :
  ((0 < maxsize)%Z -> (Z.of_nat (length q) < maxsize)%Z) ->
  queue_full maxsize q = false.
Proof.
  unfold queue_full. intros H. destruct (0 <? maxsize)%Z eqn:Hpos; [|reflexivity].
  apply Z.ltb_lt in Hpos. simpl. apply Z.leb_gt. apply H, Hpos.
Qed.

Lemma threads_within_bound c tr c' :
  threads_exec c tr c' -> within_bound c.1 -> within_bound c'.1.
Proof.
  induction 1 as [c | c tr c' l c'' _ IH Hstep]; intros Hb; [exact Hb|].
  specialize (IH Hb). destruct Hstep as [s prs i pr l s' pr' _ Hstep].
  simpl in *. eapply within_bound_step; [exact IH | exact Hstep].
Qed.

(** The step of the loop that records a failure leaves a queue with room
    for one item. *)
Lemma handler_makes_room s pr s' pr' ex :
  within_bound s -> _ex s = None -> step (s, pr) LoopBody (s', pr') ->
  _ex s' = Some ex ->
  queue_full (buffer_size s') (_q s') = false /\ left_loop (thread s').
Proof.
  intros Hb Hnone Hstep Hex.
  inversion Hstep as [| | | | | |s1 s2 pr1 H|]; subst.
  unfold loop_body in H. destruct (thread s) as [|[it|]| |]; try discriminate.
  destruct (_do_downstream _ _ _ _ _) as [[r st]|ex1].
  - destruct (is_termination it); injection H as <-; simpl in Hex; congruence.
  - injection H as <-. simpl. split; [|left; reflexivity].
    apply not_full_below. intros Hpos. specialize (Hb Hpos).
    destruct (_q s) as [|x rest]; simpl in *; lia.
Qed.

(** Once the loop is left, the queue changes by the puts only. *)
Lemma left_loop_keeps_queue s pr l s' pr' :
  left_loop (thread s) -> step (s, pr) l (s', pr') -> put_of l = None ->
  _q s' = _q s /\ buffer_size s' = buffer_size s /\ _ex s' = _ex s /\
  left_loop (thread s').
Proof.
  intros Hleft Hstep Hl.
  inversion Hstep as
    [s1 event H | s1 ex1 H | s1 s2 event H | s1 H | s1 ex1 H
    | s1 s2 pr1 H | s1 s2 pr1 H | s1 s2 pr1 H]; subst; auto; try discriminate.
  - unfold loop_get in H. destruct Hleft as [Ht | Ht]; rewrite Ht in H; discriminate.
  - unfold loop_body in H. destruct Hleft as [Ht | Ht]; rewrite Ht in H; discriminate.
  - unfold thread_exit in H. destruct (thread s); try discriminate.
    destruct (queue_full 1 _); [discriminate|]. injection H as <-.
    simpl. split; [reflexivity|]. split; [reflexivity|]. split; [reflexivity|].
    right. reflexivity.
Qed.

Lemma threads_left_loop_keep_queue c tr c' :
  threads_exec c tr c' -> left_loop (thread c.1) -> puts tr.*2 = [] ->
  _q c'.1 = _q c.1 /\ buffer_size c'.1 = buffer_size c.1 /\ _ex c'.1 = _ex c.1 /\
  left_loop (thread c'.1).
Proof.
  induction 1 as [c | c tr c' l c'' _ IH Hstep]; intros Hleft Hputs; [auto|].
  rewrite fmap_app in Hputs. unfold puts in Hputs. rewrite omap_app in Hputs.
  apply app_eq_nil in Hputs as [Hputs Hl].
  destruct (IH Hleft Hputs) as (Hq & Hsize & Hex & Hleft').
  destruct Hstep as [s prs i pr l s' pr' _ Hstep]. simpl in *.
  destruct (left_loop_keeps_queue _ _ _ _ _ Hleft' Hstep) as (Hq' & Hsize' & Hex' & Hleft'').
  { destruct (put_of l); [discriminate | reflexivity]. }
  rewrite Hq', Hsize', Hex'. auto.
Qed.

(** Once the loop is left nothing is taken off the queue: a queue that
    is full stays full. *)
Lemma left_loop_keeps_full s pr l s' pr' :
  left_loop (thread s) -> step (s, pr) l (s', pr') ->
  queue_full (buffer_size s) (_q s) = true ->
  left_loop (thread s') /\ queue_full (buffer_size s') (_q s') = true.
Proof.
  intros Hleft Hstep Hfull.
  inversion Hstep as
    [s1 event H | s1 ex1 H | s1 s2 event H | s1 H | s1 ex1 H
    | s1 s2 pr1 H | s1 s2 pr1 H | s1 s2 pr1 H]; subst; auto.
  - unfold q_put in H. rewrite Hfull in H. discriminate.
  - unfold loop_get in H. destruct Hleft as [Ht | Ht]; rewrite Ht in H; discriminate.
  - unfold loop_body in H. destruct Hleft as [Ht | Ht]; rewrite Ht in H; discriminate.
  - unfold thread_exit in H. destruct (thread s); try discriminate.
    destruct (queue_full 1 _); [discriminate|]. injection H as <-.
    simpl. split; [right; reflexivity | exact Hfull].
Qed.

Lemma threads_left_loop_keep_full c tr c' :
  threads_exec c tr c' -> left_loop (thread c.1) ->
  queue_full (buffer_size c.1) (_q c.1) = true ->
  left_loop (thread c'.1) /\ queue_full (buffer_size c'.1) (_q c'.1) = true.
Proof.
  induction 1 as [c | c tr c' l c'' _ IH Hstep]; intros Hleft Hfull; [auto|].
  destruct (IH Hleft Hfull) as [Hleft' Hfull'].
  destruct Hstep as [s prs i pr l s' pr' _ Hstep]. simpl in *.
  eapply left_loop_keeps_full; eassumption.
Qed.

(** The handler of the loop takes one item off the admission queue, so
    that one producer suspended in [self._q.put] is released, and only
    one is sure to be: in every run of a source, with any number of
    threads calling [emit], the first put attempted after the step of
    the loop that recorded a failure [ex] goes through, whatever the
    bound of the queue, and the call of [_emit] that made it raises
    [FlowError] with [ex] as its cause at its second check; if that put
    fills the queue, the queue stays full whatever happens next, so that
    no other producer suspended in its put is released. *)
Theorem failure_releases_first_put
    (s0 : Source) (n : nat) (tr : list (nat * Label)) (s1 : Source)
    (prs1 : list Producer) (k : nat) (s2 : Source) (prs2 : list Producer)
    (tr' : list (nat * Label)) (s : Source) (prs : list Producer)
    (i : nat) (event : Item) (ex : Exn) :
  runnable s0 ->
  threads_exec (run s0, replicate n Idle) tr (s1, prs1) ->
  _ex s1 = None ->
  threads_step (s1, prs1) (k, LoopBody) (s2, prs2) ->
  _ex s2 = Some ex ->
  threads_exec (s2, prs2) tr' (s, prs) ->
  puts tr'.*2 = [] ->
  prs !! i = Some (Putting event) ->
  exists s',
    threads_step (s, prs) (i, EmitPut event) (s', <[i := Rechecking]> prs) /\
    threads_step (s', <[i := Rechecking]> prs) (i, EmitRaise (FlowError (Some ex)))
      (s', <[i := Idle]> prs) /\
    _ex s' = Some ex /\
    (queue_full (buffer_size s') (_q s') = true ->
     forall prs' tr'' s'' prs'',
       threads_exec (s', prs') tr'' (s'', prs'') ->
       queue_full (buffer_size s'') (_q s'') = true).
Proof.
  intros (Hq0 & _ & _) Hexec Hnone Hstep Hex Hexec' Hputs Hi.
  assert (Hb : within_bound s1).
  { apply (threads_within_bound _ _ _ Hexec). unfold within_bound. simpl.
    rewrite Hq0. simpl. lia. }
  inversion Hstep as [s1' prs1' k' pr l s2' pr' _ Hloop]; subst.
  destruct (handler_makes_room _ _ _ _ _ Hb Hnone Hloop Hex) as [Hroom Hleft].
  destruct (threads_left_loop_keep_queue _ _ _ Hexec' Hleft Hputs)
    as (Hq & Hsize & Hex' & Hleft').
  simpl in Hq, Hsize, Hex', Hleft'. rewrite Hex in Hex'.
  exists (with_q s (_q s ++ [event])). split; [|split; [|split; [exact Hex'|]]].
  - apply (threads_step_at s prs i (Putting event)); [exact Hi|].
    apply step_emit_put. unfold q_put. rewrite Hq, Hsize, Hroom. reflexivity.
  - rewrite <- (list_insert_insert_eq prs i Idle Rechecking).
    apply (threads_step_at _ _ i Rechecking).
    + apply list_lookup_insert_eq. apply lookup_lt_Some in Hi. exact Hi.
    + apply step_emit_raise_after.
      exact (raise_on_error_recorded (with_q s (_q s ++ [event])) ex Hex').
  - intros Hfull prs' tr'' s'' prs'' Hexec''.
    apply (threads_left_loop_keep_full _ _ _ Hexec'' Hleft' Hfull).
Qed.

Lemma threads_exec_app c tr c' tr' c'' :
  threads_exec c tr c' -> threads_exec c' tr' c'' -> threads_exec c (tr ++ tr') c''.
Proof.
  intros H1 H2. induction H2 as [c' | c' tr' c2 l c3 _ IH Hstep].
  - rewrite app_nil_r. exact H1.
  - rewrite app_assoc. eapply threads_exec_snoc; [apply IH, H1 | exact Hstep].
Qed.

Lemma threads_exec_cons c l c' tr c'' :
  threads_step c l c' -> threads_exec c' tr c'' -> threads_exec c (l :: tr) c''.
Proof.
  intros Hstep Hexec. change (l :: tr) with ([l] ++ tr).
  eapply threads_exec_app; [|exact Hexec].
  change [l] with ([] ++ [l]).
  eapply threads_exec_snoc; [apply threads_exec_nil | exact Hstep].
Qed.

Lemma threads_step_moves s prs i pr l s' pr' prs' :
  prs !! i = Some pr -> step (s, pr) l (s', pr') -> prs' = <[i := pr']> prs ->
  threads_step (s, prs) (i, l) (s', prs').
Proof. intros Hi Hstep ->. eapply threads_step_at; eassumption. Qed.

Lemma two_blocked_run_exec :
  threads_exec (run (source_of failing_outlets), [Idle; Idle]) two_blocked_run
    (two_blocked, two_suspended).
Proof.
  unfold two_blocked_run.
  eapply threads_exec_cons;
    [eapply threads_step_moves;
     [reflexivity | apply step_emit_enter; reflexivity | reflexivity]|].
  eapply threads_exec_cons;
    [eapply threads_step_moves;
     [reflexivity | apply step_emit_put; reflexivity | reflexivity]|].
  eapply threads_exec_cons;
    [eapply threads_step_moves;
     [reflexivity | apply step_emit_return; reflexivity | reflexivity]|].
  eapply threads_exec_cons;
    [eapply threads_step_moves;
     [reflexivity | apply step_loop_get; reflexivity | reflexivity]|].
  eapply threads_exec_cons;
    [eapply threads_step_moves;
     [reflexivity | apply step_emit_enter; reflexivity | reflexivity]|].
  eapply threads_exec_cons;
    [eapply threads_step_moves;
     [reflexivity | apply step_emit_put; reflexivity | reflexivity]|].
  eapply threads_exec_cons;
    [eapply threads_step_moves;
     [reflexivity | apply step_emit_return; reflexivity | reflexivity]|].
  eapply threads_exec_cons;
    [eapply threads_step_moves;
     [reflexivity | apply step_emit_enter; reflexivity | reflexivity]|].
  eapply threads_exec_cons;
    [eapply threads_step_moves;
     [reflexivity | apply step_emit_enter; reflexivity | reflexivity]|].
  apply threads_exec_nil.
Qed.

Lemma two_blocked_fails :
  threads_step (two_blocked, two_suspended) (0, LoopBody)
    (mkSource failing_outlets default_termination_result_fn 1 [] [] (Some TypeError)
       (Some PyNone) Returned empty_store, two_suspended).
Proof.
  eapply threads_step_moves;
    [reflexivity | apply step_loop_body; vm_compute; reflexivity | reflexivity].
Qed.

(** With two producers suspended on a full queue of one place, the
    failure releases the one that puts first; its item fills the queue
    again, and the other producer stays suspended. *)
Lemma failure_releases_first_put_witness :
  exists s2 s',
    threads_exec (run (source_of failing_outlets), [Idle; Idle]) two_blocked_run
      (two_blocked, two_suspended) /\
    threads_step (two_blocked, two_suspended) (0, LoopBody) (s2, two_suspended) /\
    threads_step (s2, two_suspended) (1, EmitPut (Ev (int_event 6)))
      (s', [Putting (Ev (int_event 5)); Rechecking]) /\
    threads_step (s', [Putting (Ev (int_event 5)); Rechecking])
      (1, EmitRaise (FlowError (Some TypeError)))
      (s', [Putting (Ev (int_event 5)); Idle]) /\
    forall tr'' s'' prs'',
      threads_exec (s', [Putting (Ev (int_event 5)); Idle]) tr'' (s'', prs'') ->
      q_put s'' (Ev (int_event 5)) = None.
Proof.
  destruct (failure_releases_first_put (source_of failing_outlets) 2 two_blocked_run
              two_blocked two_suspended 0 _ two_suspended [] _ two_suspended
              1 (Ev (int_event 6)) TypeError
              (runnable_source_of _) two_blocked_run_exec eq_refl two_blocked_fails
              eq_refl (threads_exec_nil _) eq_refl eq_refl)
    as (s' & Hput & Hraise & _ & Hfull).
  eexists _, s'. split; [exact two_blocked_run_exec|].
  split; [exact two_blocked_fails|]. split; [exact Hput|]. split; [exact Hraise|].
  intros tr'' s'' prs'' Hexec. unfold q_put.
  rewrite (Hfull ltac:(inversion Hput as [? ? ? ? ? ? ? Hi Hstep]; subst;
                       simpl in Hi; injection Hi as <-;
                       inversion Hstep as [| |? ? ? Hq| | | | |]; subst;
                       unfold q_put in Hq; simpl in Hq; injection Hq as <-;
                       reflexivity) _ _ _ _ Hexec).
  reflexivity.
Defined.

(** * [JoinWithHttp] *)

Module JoinWithHttpFacts.
Import JoinWithHttp.

Lemma omap_ext_Forall {A B} (f g : A -> option B) l :
  Forall (fun x => f x = g x) l -> omap f l = omap g l.
Proof.
  induction 1 as [|x l Hx _ IH]; [reflexivity|].
  csimpl. rewrite Hx, IH. reflexivity.
Qed.

Lemma joined_event_ext s s' job :
  tasks s' !! job.1 = tasks s !! job.1 ->
  _join_from_response s' = _join_from_response s ->
  joined_event s' job = joined_event s job.
Proof. intros Ht Hj. unfold joined_event. rewrite Ht, Hj. reflexivity. Qed.

Lemma requests_in_app q1 q2 : requests_in (q1 ++ q2) = requests_in q1 ++ requests_in q2.
Proof. apply omap_app. Qed.

Lemma alive_not_done w outcome : alive w -> w <> Done outcome.
Proof. intros Ha ->. exact Ha. Qed.

(** The histories of consumed jobs do not depend on anything a step
    changes but [tasks], and only pending tasks change. *)
Lemma consumed_jobs_stable s s' :
  Forall (resolved s) (take (consumed s) (issued s)) ->
  _join_from_response s' = _join_from_response s ->
  (forall i outcome, tasks s !! i = Some (Some outcome) ->
                     tasks s' !! i = Some (Some outcome)) ->
  omap (joined_event s') (take (consumed s) (issued s)) =
  omap (joined_event s) (take (consumed s) (issued s)) /\
  Forall (resolved s') (take (consumed s) (issued s)).
Proof.
  intros Hres Hj Ht. split.
  - apply omap_ext_Forall. eapply Forall_impl; [exact Hres|].
    intros job (outcome & Hjob). apply joined_event_ext; [|exact Hj].
    rewrite (Ht _ _ Hjob), Hjob. reflexivity.
  - eapply Forall_impl; [exact Hres|]. intros job (outcome & Hjob).
    exists outcome. apply Ht. exact Hjob.
Qed.

Lemma invariant_initial position rb jfr mif comb outlets st :
  invariant (__init__ position rb jfr mif comb outlets st) NoCall.
Proof.
  constructor; simpl; auto; try discriminate.
  intros _. constructor.
Qed.

Lemma invariant_resolve s c request outcome s' :
  invariant s c -> resolve s request outcome = Some s' -> invariant s' c.
Proof.
  intros [Hinit Hfwd Hres Hle Hpend Hmark Hclosed Hdrained] H.
  unfold resolve in H. destruct (tasks s !! request) as [[o|]|] eqn:Hreq; try discriminate.
  injection H as <-.
  destruct (consumed_jobs_stable s
              (with_tasks s (<[request := Some outcome]> (tasks s))) Hres eq_refl)
    as [Hfwd' Hres'].
  { intros i o Hi. simpl. rewrite list_lookup_insert_ne; [exact Hi|].
    intros <-. rewrite Hreq in Hi. discriminate. }
  constructor; simpl; auto. rewrite Hfwd. symmetry. exact Hfwd'.
Qed.

Lemma invariant_resume_after_worker s c s' o :
  invariant s c -> resume_after_worker s c = Some (s', o) ->
  invariant s' (caller_of o).
Proof.
  intros [Hinit Hfwd Hres Hle Hpend Hmark Hclosed Hdrained] H.
  unfold resume_after_worker in H.
  destruct c; try discriminate.
  destruct (_worker_awaitable s) as [| |[[]|ex]] eqn:Hw; try discriminate.
  - destruct (Hdrained eq_refl) as (Hq & Hc & Hm & _).
    destruct (_do_downstream _ _ _ _ _) as [[r st]|ex]; injection H as <- <-;
      (constructor; simpl; rewrite ?Hw; auto; try contradiction);
      intros Hn; destruct (Hinit Hn) as (_ & Hg & _); discriminate.
  - injection H as <- <-.
    constructor; simpl; rewrite ?Hw; auto; try contradiction; try discriminate.
    intros Hn. destruct (Hinit Hn) as (_ & Hg & _). discriminate.
Qed.

Lemma marker_front front rest :
  front ++ [Marker] = Marker :: rest -> marker_free front -> front = [] /\ rest = [].
Proof.
  intros H Hfree. destruct front as [|job front]; simpl in H.
  - injection H as <-. auto.
  - injection H as -> _. apply Forall_cons in Hfree as [Hne _]. congruence.
Qed.

Lemma request_front front event request rest :
  front ++ [Marker] = Request event request :: rest -> marker_free front ->
  exists front', rest = front' ++ [Marker] /\ marker_free front'.
Proof.
  intros H Hfree. destruct front as [|job front]; simpl in H; [discriminate|].
  injection H as -> <-. apply Forall_cons in Hfree as [_ Hfree]. eauto.
Qed.

Lemma session_closes s :
  _client_session s <> None -> _client_session (close_session s) = Some true.
Proof. unfold close_session. simpl. destruct (_client_session s); congruence. Qed.

Lemma invariant_worker_get s c s' :
  invariant s c -> worker_get s = Some s' -> invariant s' c.
Proof.
  intros [Hinit Hfwd Hres Hle Hpend Hmark Hclosed Hdrained] H.
  unfold worker_get in H.
  destruct (_worker_awaitable s) eqn:Hw; try discriminate.
  destruct (_q s) as [|[|event request] rest] eqn:Hq; try discriminate;
    injection H as <-.
  - (* the marker *)
    specialize (Hpend I). specialize (Hmark I). simpl in Hpend.
    assert (Hc : c = AwaitingWorker /\ rest = [] /\ 1 <= markers s).
    { destruct c; try (apply Forall_cons in Hmark as [Hne _]; congruence).
      destruct Hmark as (front & Hfront & Hfree & Hm). symmetry in Hfront.
      destruct (marker_front _ _ Hfront Hfree) as [_ ->]. auto. }
    destruct Hc as (-> & -> & Hm). simpl in Hpend.
    assert (Hsession : _client_session s <> None).
    { intros Hnone. destruct (Hinit Hnone) as [Hq' _]. discriminate. }
    assert (Hall : consumed s = length (issued s)).
    { symmetry in Hpend. apply (f_equal length) in Hpend.
      rewrite length_drop in Hpend. simpl in Hpend. lia. }
    constructor; simpl; auto; try contradiction.
    + intros Hnone. destruct (_client_session s); [discriminate | congruence].
    + intros outcome _. destruct (_client_session s); congruence.
  - (* a request *)
    specialize (Hpend I). specialize (Hmark I). simpl in Hpend.
    constructor; simpl; auto; try discriminate.
    + intros Hnone. destruct (Hinit Hnone) as [Hq' _]. discriminate.
    + intros _. destruct c.
      * apply Forall_cons in Hmark as [_ Hmark]. exact Hmark.
      * apply Forall_cons in Hmark as [_ Hmark]. exact Hmark.
      * destruct Hmark as (front & Hfront & Hfree & Hm). symmetry in Hfront.
        destruct (request_front _ _ _ _ Hfront Hfree) as (front' & -> & Hfree').
        eauto.
Qed.

Lemma next_job {A} (x : A) rest n l :
  x :: rest = drop n l ->
  l !! n = Some x /\ drop (S n) l = rest /\ take (S n) l = take n l ++ [x].
Proof.
  intros H.
  assert (Hx : l !! n = Some x).
  { rewrite <- (Nat.add_0_r n), <- lookup_drop, <- H. reflexivity. }
  split; [exact Hx|]. split.
  - rewrite (drop_S _ _ _ Hx) in H. injection H as <-. reflexivity.
  - apply take_S_r. exact Hx.
Qed.

Lemma events_keep_termination_out comb (p : path) outlets e st0 r st :
  _do_downstream comb p outlets (Ev e) st0 = Ok (r, st) ->
  saw_termination st -> saw_termination st0.
Proof.
  intros H Hsaw.
  apply (downstream_adds comb p outlets (Ev e)) in H; [|apply all_calls_ok].
  destruct H as (new & E & F). unfold saw_termination in *. rewrite E in Hsaw.
  apply Exists_app in Hsaw as [Hsaw | Hsaw]; [exact Hsaw|].
  exfalso. apply Exists_exists in Hsaw as (c & Hc & Hterm).
  rewrite Forall_forall in F. destruct (F c Hc) as [_ Hk]. simpl in Hk. congruence.
Qed.

(** The worker leaves the body of its loop for the job it held. *)
Lemma invariant_after_consume s c event request s' :
  invariant s c ->
  _worker_awaitable s = Awaiting event request ->
  resolved s (request, event) ->
  tasks s' = tasks s -> issued s' = issued s ->
  _join_from_response s' = _join_from_response s ->
  markers s' = markers s ->
  consumed s' = S (consumed s) ->
  forwarded s' = forwarded s ++ option_list (joined_event s (request, event)) ->
  (_worker_awaitable s' = Getting /\ _q s' = _q s /\
   _client_session s' = _client_session s) \/
  (exists ex, _worker_awaitable s' = Done (Raise ex) /\
              _client_session s' = Some true) ->
  invariant s' c.
Proof.
  intros [Hinit Hfwd Hres Hle Hpend Hmark Hclosed Hdrained]
    Hw Hjob Htasks Hissued Hjoin Hmarkers Hconsumed Hforwarded Hend.
  rewrite Hw in Hpend, Hmark. specialize (Hpend I). specialize (Hmark I).
  simpl in Hpend. destruct (next_job _ _ _ _ Hpend) as (Hlook & Hdrop & Htake).
  assert (Hsame : forall job, joined_event s' job = joined_event s job).
  { intros job. apply joined_event_ext; [rewrite Htasks; reflexivity | exact Hjoin]. }
  assert (Hfwd' : forwarded s' = omap (joined_event s') (take (consumed s') (issued s'))).
  { rewrite Hforwarded, Hconsumed, Hissued, Htake, omap_app, Hfwd.
    rewrite (omap_ext_Forall (joined_event s') (joined_event s));
      [|apply Forall_forall; intros; apply Hsame].
    f_equal. csimpl. rewrite Hsame. destruct (joined_event s _); reflexivity. }
  assert (Hres' : Forall (resolved s') (take (consumed s') (issued s'))).
  { rewrite Hconsumed, Hissued, Htake. apply Forall_app. split.
    - eapply Forall_impl; [exact Hres|]. intros job (o & Ho). exists o.
      rewrite Htasks. exact Ho.
    - constructor; [|constructor]. destruct Hjob as (o & Ho). exists o.
      rewrite Htasks. exact Ho. }
  assert (Hle' : consumed s' <= length (issued s')).
  { rewrite Hconsumed, Hissued. apply lookup_lt_Some in Hlook. lia. }
  destruct Hend as [(Hw' & Hq' & Hsession') | (ex & Hw' & Hsession')].
  - constructor.
    + intros Hnone. rewrite Hsession' in Hnone. destruct (Hinit Hnone) as (_ & Hg & _).
      congruence.
    + exact Hfwd'.
    + exact Hres'.
    + exact Hle'.
    + intros _. rewrite Hw', Hq', Hconsumed, Hissued. simpl. symmetry. exact Hdrop.
    + intros _. rewrite Hq', Hmarkers. exact Hmark.
    + intros outcome Ho. rewrite Hw' in Ho. discriminate.
    + intros Ho. rewrite Hw' in Ho. discriminate.
  - constructor.
    + intros Hnone. rewrite Hsession' in Hnone. discriminate.
    + exact Hfwd'.
    + exact Hres'.
    + exact Hle'.
    + rewrite Hw'. intros [].
    + rewrite Hw'. intros [].
    + intros outcome _. exact Hsession'.
    + rewrite Hw'. discriminate.
Qed.

Lemma invariant_worker_consume s c s' :
  invariant s c -> worker_consume s = Some s' -> invariant s' c.
Proof.
  intros Hinv H. pose proof Hinv as [Hinit _ _ _ _ _ _ _].
  unfold worker_consume in H.
  destruct (_worker_awaitable s) as [|event request|] eqn:Hw; try discriminate.
  destruct (tasks s !! request) as [[[response|ex]|]|] eqn:Ht; try discriminate.
  all: assert (Hsession : exists closed, _client_session s = Some closed)
    by (destruct (_client_session s) as [closed|] eqn:Hs;
        [eauto | destruct (Hinit eq_refl) as (_ & Hg & _); congruence]).
  all: destruct Hsession as (closed & Hsession).
  all: assert (Hjob : resolved s (request, event)) by (eexists; exact Ht).
  - destruct (_join_from_response s (element event) response) as [v|ex] eqn:Hj.
    + destruct v;
        try (destruct (_do_downstream _ _ _ _ _) as [[r st]|ex] eqn:Hdown);
        injection H as <-;
        (eapply (invariant_after_consume s c event request);
         [exact Hinv | exact Hw | exact Hjob | reflexivity | reflexivity
         | reflexivity | reflexivity | reflexivity
         | simpl; unfold joined_event; simpl; rewrite Ht, Hj; simpl;
           rewrite ?app_nil_r; reflexivity
         | simpl; rewrite ?Hsession; eauto]).
    + injection H as <-.
      eapply (invariant_after_consume s c event request);
        [exact Hinv | exact Hw | exact Hjob | reflexivity | reflexivity
        | reflexivity | reflexivity | reflexivity
        | simpl; unfold joined_event; simpl; rewrite Ht, Hj; simpl;
          rewrite ?app_nil_r; reflexivity
        | simpl; rewrite ?Hsession; eauto].
  - injection H as <-.
    eapply (invariant_after_consume s c event request);
      [exact Hinv | exact Hw | exact Hjob | reflexivity | reflexivity
      | reflexivity | reflexivity | reflexivity
      | simpl; unfold joined_event; simpl; rewrite Ht; simpl;
        rewrite ?app_nil_r; reflexivity
      | simpl; rewrite ?Hsession; eauto].
Qed.

Lemma invariant_after_enqueue s job :
  invariant s (BlockedInPut job) ->
  invariant (after_put (enqueue s job) job).1
            (caller_of (after_put (enqueue s job) job).2).
Proof.
  intros [Hinit Hfwd Hres Hle Hpend Hmark Hclosed Hdrained].
  assert (Hnot_drained : _worker_awaitable s <> Done (Ok tt)).
  { intros Hd. destruct (Hdrained Hd) as (_ & _ & _ & [Hc | Hc]); discriminate. }
  destruct job as [|event request].
  - simpl. constructor; simpl.
    + intros Hn. destruct (Hinit Hn) as (_ & _ & Hc). discriminate.
    + exact Hfwd.
    + exact Hres.
    + exact Hle.
    + intros Ha. specialize (Hpend Ha). rewrite requests_in_app. simpl in *.
      rewrite !app_nil_r in *. exact Hpend.
    + intros Ha. exists (_q s). split; [reflexivity|]. split; [exact (Hmark Ha) | lia].
    + exact Hclosed.
    + intros Hd. contradiction.
  - unfold after_put. simpl.
    assert (Hinv : invariant (enqueue s (Request event request)) NoCall).
    { constructor; simpl.
      + intros Hn. destruct (Hinit Hn) as (_ & _ & Hc). discriminate.
      + exact Hfwd.
      + exact Hres.
      + exact Hle.
      + intros Ha. specialize (Hpend Ha). rewrite requests_in_app. simpl in *.
        rewrite app_nil_r. exact Hpend.
      + intros Ha. apply Forall_app. split; [exact (Hmark Ha)|].
        constructor; [discriminate | constructor].
      + exact Hclosed.
      + intros Hd. contradiction. }
    destruct (_worker_awaitable s) as [| |[u|ex]]; exact Hinv.
Qed.

Lemma invariant_put s job :
  invariant s (BlockedInPut job) ->
  invariant (put s job).1 (caller_of (put s job).2).
Proof.
  intros Hinv. unfold put. destruct (queue_full _ _); [exact Hinv|].
  apply invariant_after_enqueue. exact Hinv.
Qed.

Lemma invariant_resume_put s c s' o :
  invariant s c -> resume_put s c = Some (s', o) -> invariant s' (caller_of o).
Proof.
  intros Hinv H. unfold resume_put in H. destruct c as [|job|]; try discriminate.
  destruct (queue_full _ _); [discriminate|]. injection H as H.
  pose proof (invariant_after_enqueue _ _ Hinv) as Hp. rewrite H in Hp. exact Hp.
Qed.

Lemma invariant_lazy_init s :
  invariant s NoCall -> _client_session s = None -> invariant (_lazy_init s) NoCall.
Proof.
  intros [Hinit Hfwd Hres Hle Hpend Hmark Hclosed Hdrained] Hn.
  destruct (Hinit Hn) as (Hq & Hw & _). rewrite Hw in *. rewrite Hq in *.
  constructor; simpl; auto; try discriminate.
Qed.

Lemma invariant_block_marker s :
  invariant s NoCall -> alive (_worker_awaitable s) -> _client_session s <> None ->
  invariant s (BlockedInPut Marker).
Proof.
  intros [Hinit Hfwd Hres Hle Hpend Hmark Hclosed Hdrained] Ha Hsession.
  constructor; auto.
  - intros Hn. contradiction.
  - intros Hd. rewrite Hd in Ha. contradiction.
Qed.

Lemma invariant_issue s event :
  invariant s NoCall -> alive (_worker_awaitable s) -> _client_session s <> None ->
  invariant (note_issued (with_tasks s (tasks s ++ [None])) (length (tasks s)) event)
            (BlockedInPut (Request event (length (tasks s)))).
Proof.
  intros [Hinit Hfwd Hres Hle Hpend Hmark Hclosed Hdrained] Ha Hsession.
  set (s' := note_issued (with_tasks s (tasks s ++ [None])) (length (tasks s)) event).
  assert (Htake : take (consumed s) (issued s ++ [(length (tasks s), event)])
                  = take (consumed s) (issued s)).
  { apply take_app_le. exact Hle. }
  destruct (consumed_jobs_stable s s' Hres eq_refl) as [Hfwd' Hres'].
  { intros i o Hi. simpl. apply lookup_app_l_Some. exact Hi. }
  constructor; simpl.
  - intros Hn. contradiction.
  - rewrite Htake, Hfwd. symmetry. exact Hfwd'.
  - rewrite Htake. exact Hres'.
  - rewrite length_app. simpl. lia.
  - intros _. specialize (Hpend Ha). simpl in Hpend. rewrite app_nil_r in Hpend.
    rewrite drop_app_le by exact Hle. rewrite <- Hpend, <- app_assoc. reflexivity.
  - intros _. exact (Hmark Ha).
  - exact Hclosed.
  - intros Hd. rewrite Hd in Ha. contradiction.
Qed.

Lemma invariant_call s event s' o :
  invariant s NoCall -> _do s event = (s', o) -> invariant s' (caller_of o).
Proof.
  intros Hinv H. unfold _do in H.
  set (s1 := match _client_session s with None => _lazy_init s | Some _ => s end) in H.
  assert (H1 : invariant s1 NoCall /\ _client_session s1 <> None).
  { unfold s1. destruct (_client_session s) as [closed|] eqn:Hs.
    - split; [exact Hinv | congruence].
    - split; [apply invariant_lazy_init; assumption | discriminate]. }
  clearbody s1. destruct H1 as [H1 Hsession].
  destruct (_worker_awaitable s1) as [| |[u|ex]] eqn:Hw;
    try (injection H as <- <-; exact H1).
  all: assert (Ha : alive (_worker_awaitable s1)) by (rewrite Hw; exact I).
  all: destruct event as [|event].
  all: try (pose proof (invariant_put _ _ (invariant_block_marker _ H1 Ha Hsession)) as Hp;
            rewrite H in Hp; exact Hp).
  all: destruct (_request_builder s1 (element event)) as [req|ex];
    [|injection H as <- <-; exact H1].
  all: pose proof (invariant_put _ _ (invariant_issue _ event H1 Ha Hsession)) as Hp;
    rewrite H in Hp; exact Hp.
Qed.

Lemma invariant_step s c l s' c' :
  invariant s c -> step (s, c) l (s', c') -> invariant s' c'.
Proof.
  intros Hinv Hstep. inversion Hstep; subst.
  - eapply invariant_call; eassumption.
  - eapply invariant_resume_put; eassumption.
  - eapply invariant_resume_after_worker; eassumption.
  - eapply invariant_resolve; eassumption.
  - eapply invariant_worker_get; eassumption.
  - eapply invariant_worker_consume; eassumption.
Qed.

Lemma invariant_exec c0 tr c1 :
  exec c0 tr c1 -> invariant c0.1 c0.2 -> invariant c1.1 c1.2.
Proof.
  induction 1 as [c | c tr c' l c'' _ IH Hstep]; intros H0; [exact H0|].
  destruct c' as [s c'], c'' as [s'' c'']. eapply invariant_step; [apply IH, H0 | exact Hstep].
Qed.

(** ** The termination signal is forwarded only after the worker's exit *)

Lemma after_put_keeps s job :
  nodes (after_put (enqueue s job) job).1 = nodes s /\
  _worker_awaitable (after_put (enqueue s job) job).1 = _worker_awaitable s.
Proof.
  destruct job as [|event request]; [simpl; auto|].
  unfold after_put. simpl.
  destruct (_worker_awaitable s) as [| |[u|ex]] eqn:Hw; simpl; auto.
Qed.

Lemma put_keeps s job :
  nodes (put s job).1 = nodes s /\
  _worker_awaitable (put s job).1 = _worker_awaitable s.
Proof.
  unfold put. destruct (queue_full _ _); [auto | apply after_put_keeps].
Qed.

Lemma call_keeps s event s' o :
  invariant s NoCall -> _do s event = (s', o) ->
  nodes s' = nodes s /\ _worker_awaitable s' = _worker_awaitable s.
Proof.
  intros [Hinit _ _ _ _ _ _ _] H. unfold _do in H.
  set (s1 := match _client_session s with None => _lazy_init s | Some _ => s end) in H.
  assert (H1 : nodes s1 = nodes s /\ _worker_awaitable s1 = _worker_awaitable s).
  { unfold s1. destruct (_client_session s) as [closed|] eqn:Hs; [auto|].
    destruct (Hinit eq_refl) as (_ & Hg & _). simpl. auto. }
  clearbody s1. destruct H1 as [Hn Hw]. rewrite <- Hn, <- Hw.
  destruct (_worker_awaitable s1) as [| |[u|ex]] eqn:Hw1;
    try (injection H as <- <-; auto).
  all: destruct event as [|event].
  all: try (pose proof (put_keeps s1 Marker) as Hk; rewrite H in Hk; simpl in Hk;
            rewrite Hw1 in Hk; exact Hk).
  all: destruct (_request_builder s1 (element event)) as [req|ex];
    [|injection H as <- <-; auto].
  all: match type of H with put ?s2 ?job = _ =>
         pose proof (put_keeps s2 job) as Hk; rewrite H in Hk; simpl in Hk;
         rewrite Hw1 in Hk; exact Hk
       end.
Qed.

Lemma termination_after_exit_step s c l s' c' :
  invariant s c -> termination_after_exit s -> step (s, c) l (s', c') ->
  termination_after_exit s'.
Proof.
  intros Hinv Hterm Hstep. unfold termination_after_exit in *.
  inversion Hstep as
    [s1 event s2 o H | s1 c1 s2 o H | s1 c1 s2 o H
    | s1 c1 request outcome s2 H | s1 c1 s2 H | s1 c1 s2 H]; subst.
  - destruct (call_keeps _ _ _ _ Hinv H) as [-> ->]. exact Hterm.
  - unfold resume_put in H. destruct c as [|job|]; try discriminate.
    destruct (queue_full _ _); [discriminate|]. injection H as H.
    destruct (after_put_keeps s job) as [Hn Hw]. rewrite H in Hn, Hw. simpl in Hn, Hw.
    rewrite Hn, Hw. exact Hterm.
  - unfold resume_after_worker in H. destruct c; try discriminate.
    destruct (_worker_awaitable s) as [| |[[]|ex]] eqn:Hw; try discriminate.
    + destruct (_do_downstream _ _ _ _ _) as [[r st]|ex]; injection H as <- _;
        simpl; rewrite ?Hw; auto.
    + injection H as <- _. rewrite Hw. exact Hterm.
  - unfold resolve in H. destruct (tasks s !! request) as [[o|]|]; try discriminate.
    injection H as <-. exact Hterm.
  - unfold worker_get in H.
    destruct (_worker_awaitable s) eqn:Hw; try discriminate.
    destruct (_q s) as [|[|event request] rest]; try discriminate;
      injection H as <-; simpl; intros Hsaw; specialize (Hterm Hsaw); discriminate.
  - unfold worker_consume in H.
    destruct (_worker_awaitable s) as [|event request|] eqn:Hw; try discriminate.
    assert (Hnot : ~ saw_termination (nodes s))
      by (intros Hs; specialize (Hterm Hs); discriminate).
    destruct (tasks s !! request) as [[[response|ex]|]|]; try discriminate.
    + destruct (_join_from_response s (element event) response) as [v|ex].
      * destruct v;
          try (destruct (_do_downstream _ _ _ _ _) as [[r st]|ex] eqn:Hdown);
          injection H as <-; simpl; intros Hsaw; exfalso; apply Hnot;
          try exact Hsaw; eapply events_keep_termination_out; eassumption.
      * injection H as <-. simpl. intros Hsaw. contradiction.
    + injection H as <-. simpl. intros Hsaw. contradiction.
Qed.

Lemma termination_after_exit_exec c0 tr c1 :
  exec c0 tr c1 -> invariant c0.1 c0.2 -> termination_after_exit c0.1 ->
  termination_after_exit c1.1.
Proof.
  induction 1 as [c | c tr c' l c'' Hexec IH Hstep]; intros H0 Ht0; [exact Ht0|].
  pose proof (invariant_exec _ _ _ Hexec H0) as Hinv.
  destruct c' as [s c'], c'' as [s'' c''].
  eapply termination_after_exit_step; [exact Hinv | apply IH; assumption | exact Hstep].
Qed.

Lemma do_label_step sc l sc' : do_label sc l = Some sc' -> step sc l sc'.
Proof.
  destruct sc as [s c]. unfold do_label. destruct l as [event| | |request outcome| |].
  - destruct c; try discriminate. destruct (_do s event) as [s' o] eqn:H.
    intros [= <-]. apply step_call. exact H.
  - destruct (resume_put s c) as [[s' o]|] eqn:H; [|discriminate].
    intros [= <-]. apply step_resume_put. exact H.
  - destruct (resume_after_worker s c) as [[s' o]|] eqn:H; [|discriminate].
    intros [= <-]. apply step_resume_after_worker. exact H.
  - destruct (resolve s request outcome) as [s'|] eqn:H; [|discriminate].
    intros [= <-]. apply step_resolve. exact H.
  - destruct (worker_get s) as [s'|] eqn:H; [|discriminate].
    intros [= <-]. apply step_worker_get. exact H.
  - destruct (worker_consume s) as [s'|] eqn:H; [|discriminate].
    intros [= <-]. apply step_worker_consume. exact H.
Qed.

Lemma join_exec_app c tr c' tr' c'' :
  exec c tr c' -> exec c' tr' c'' -> exec c (tr ++ tr') c''.
Proof.
  intros H1 H2. induction H2 as [c' | c' tr' c2 l c3 _ IH Hstep].
  - rewrite app_nil_r. exact H1.
  - rewrite app_assoc. eapply exec_snoc; [apply IH, H1 | exact Hstep].
Qed.

Lemma run_labels_exec tr : forall sc sc', run_labels sc tr = Some sc' -> exec sc tr sc'.
Proof.
  induction tr as [|l tr IH]; intros sc sc' H; simpl in H.
  - injection H as <-. apply exec_nil.
  - destruct (do_label sc l) as [sc1|] eqn:Hl; [|discriminate].
    change (l :: tr) with ([l] ++ tr). eapply join_exec_app; [|apply IH, H].
    change [l] with ([] ++ [l]). eapply exec_snoc; [apply exec_nil|].
    apply do_label_step. exact Hl.
Qed.

(** C6: the termination signal reaches the outlets of the node only
    when a marker has been put on the queue and the worker has left its
    loop normally, the queue empty and every request issued consumed
    (the call of [_do] awaits the worker before it runs
    [_do_downstream(_termination_obj)]); and whenever the worker is
    done, with or without an exception, the client session is closed. *)
Theorem termination_after_drain
    (position : path) (request_builder : PyVal -> Res HttpRequest.t)
    (join_from_response : PyVal -> HttpResponse.t -> Res PyVal)
    (max_in_flight : Z) (comb : Combiner) (outlets : list Flow) (st0 : Store)
    (tr : list Label) (s : t) (c : Caller) :
  ~ saw_termination st0 ->
  exec (__init__ position request_builder join_from_response max_in_flight
          comb outlets st0, NoCall) tr (s, c) ->
  (forall outcome,
      _worker_awaitable s = Done outcome -> _client_session s = Some true) /\
  (saw_termination (nodes s) -> _worker_awaitable s = Done (Ok tt)) /\
  (_worker_awaitable s = Done (Ok tt) ->
   1 <= markers s /\ _q s = [] /\ consumed s = length (issued s)) /\
  (forall s' r,
      resume_after_worker s c = Some (s', Returns (Ok r)) ->
      _worker_awaitable s = Done (Ok tt) /\
      _do_downstream (_termination_result_fn s) (JoinWithHttp.position s) (_outlets s)
        _termination_obj (nodes s) = Ok (r, nodes s')).
Proof.
  intros Hst Hexec.
  pose proof (termination_after_exit_exec _ _ _ Hexec
                (invariant_initial _ _ _ _ _ _ _)
                (fun H => False_ind _ (Hst H))) as Hterm.
  pose proof (invariant_exec _ _ _ Hexec (invariant_initial _ _ _ _ _ _ _))
    as [Hinit Hfwd Hres Hle Hpend Hmark Hclosed Hdrained].
  simpl in *. split; [exact Hclosed|]. split; [exact Hterm|]. split.
  - intros Hd. destruct (Hdrained Hd) as (Hq & Hc & Hm & _). auto.
  - intros s' r H. unfold resume_after_worker in H.
    destruct c; try discriminate.
    destruct (_worker_awaitable s) as [| |[[]|ex]] eqn:Hw; try discriminate.
    split; [reflexivity|].
    destruct (_do_downstream _ _ _ _ _) as [[r' st]|ex]; [|discriminate].
    injection H as <- <-. reflexivity.
Qed.

Lemma termination_after_drain_witness :
  exists s c,
    exec (JoinExample.example_node, NoCall) JoinExample.example_trace (s, c) /\
    saw_termination (nodes s) /\
    _client_session s = Some true /\ _q s = [] /\ consumed s = length (issued s).
Proof.
  destruct (run_labels (JoinExample.example_node, NoCall) JoinExample.example_trace)
    as [[s c]|] eqn:Hrun; [|vm_compute in Hrun; discriminate].
  pose proof (run_labels_exec _ _ _ Hrun) as Hexec.
  destruct (termination_after_drain [0] JoinExample.example_builder
              JoinExample.example_join 3 default_termination_result_fn
              [Reduce (PyList []) list_append] empty_store
              JoinExample.example_trace s c
              ltac:(vm_compute; intros H; inversion H) Hexec)
    as (Hclosed & Hterm & Hdrained & _).
  assert (Hsaw : saw_termination (nodes s)).
  { vm_compute in Hrun. injection Hrun as <- _. unfold saw_termination. simpl.
    repeat first [apply Exists_cons_hd; reflexivity | apply Exists_cons_tl]. }
  destruct (Hdrained (Hterm Hsaw)) as (_ & Hq & Hc).
  exists s, c. split; [exact Hexec|]. split; [exact Hsaw|].
  split; [exact (Hclosed _ (Hterm Hsaw))|]. split; [exact Hq | exact Hc].
Defined.

End JoinWithHttpFacts.

(** * More about the runs of a [JoinWithHttp] node *)

Module JoinWithHttpRunFacts.
Import JoinWithHttp JoinWithHttpFacts JoinWithHttpRuns.

(** ** The cases of a call of [_do] and of a step of the worker *)

Lemma call_cases s event s' o :
  _do s event = (s', o) ->
  let s1 := match _client_session s with None => _lazy_init s | Some _ => s end in
  (s' = s1 /\
   exists ex, o = Returns (Raise ex) /\
     (_worker_awaitable s1 = Done (Raise ex) \/
      (exists u, _worker_awaitable s1 = Done (Ok u)) /\ ex = AssertionError \/
      alive (_worker_awaitable s1) /\
      exists e, event = Ev e /\ _request_builder s1 (element e) = Raise ex)) \/
  (alive (_worker_awaitable s1) /\ event = _termination_obj /\
   put s1 Marker = (s', o)) \/
  (alive (_worker_awaitable s1) /\
   exists e req,
     event = Ev e /\ _request_builder s1 (element e) = Ok req /\
     put (note_issued (with_tasks s1 (tasks s1 ++ [None])) (length (tasks s1)) e)
         (Request e (length (tasks s1))) = (s', o)).
Proof.
  intros H s1. unfold _do in H. fold s1 in H.
  destruct (_worker_awaitable s1) as [| |[u|ex]] eqn:Hw.
  3: { left. injection H as <- <-. split; [reflexivity|]. eauto 10. }
  3: { left. injection H as <- <-. split; [reflexivity|]. eauto 10. }
  all: destruct event as [|e].
  all: try (right; left; split; [exact I|]; split; [reflexivity | exact H]).
  all: destruct (_request_builder s1 (element e)) as [req|ex] eqn:Hb.
  all: try (right; right; split; [exact I|]; exists e, req; auto).
  all: left; injection H as <- <-; split; [reflexivity|]; exists ex;
    split; [reflexivity|]; right; right; split; [exact I|]; eauto.
Qed.

Lemma consume_cases s s' :
  worker_consume s = Some s' ->
  exists event request,
    _worker_awaitable s = Awaiting event request /\
    ((exists ex, tasks s !! request = Some (Some (Raise ex)) /\ s' = worker_fails s ex) \/
     exists response,
       tasks s !! request = Some (Some (Ok response)) /\
       ((exists ex, _join_from_response s (element event) response = Raise ex /\
                    s' = worker_fails s ex) \/
        (_join_from_response s (element event) response = Ok PyNone /\
         s' = with_worker (note_consumed s) Getting) \/
        exists v,
          _join_from_response s (element event) response = Ok v /\ v <> PyNone /\
          ((exists r st,
              _do_downstream (_termination_result_fn s) (position s) (_outlets s)
                (Ev (mkEvent v (key event) (time event))) (nodes s) = Ok (r, st) /\
              s' = with_worker
                     (note_consumed
                        (with_nodes
                           (note_forwarded s (mkEvent v (key event) (time event))) st))
                     Getting) \/
           (exists ex,
              _do_downstream (_termination_result_fn s) (position s) (_outlets s)
                (Ev (mkEvent v (key event) (time event))) (nodes s) = Raise ex /\
              s' = worker_fails
                     (note_forwarded s (mkEvent v (key event) (time event))) ex)))).
Proof.
  intros H. unfold worker_consume in H.
  destruct (_worker_awaitable s) as [|event request|] eqn:Hw; try discriminate.
  exists event, request. split; [reflexivity|].
  destruct (tasks s !! request) as [[[response|ex]|]|] eqn:Ht; try discriminate.
  - right. exists response. split; [reflexivity|].
    destruct (_join_from_response s (element event) response) as [v|ex] eqn:Hj.
    + destruct v.
      1: { right. left. injection H as <-. auto. }
      all: right; right; eexists; split; [reflexivity|]; split; [discriminate|].
      all: simpl in H.
      all: destruct (_do_downstream _ _ _ _ _) as [[r st]|ex] eqn:Hdown;
        injection H as <-; [left; eauto | right; eauto].
    + left. injection H as <-. eauto.
  - left. injection H as <-. eauto.
Qed.

(** ** What [__init__] sets stays *)

Lemma wiring_after_put s job : wiring (after_put (enqueue s job) job).1 = wiring s.
Proof.
  destruct job as [|event request]; [reflexivity|].
  unfold after_put. simpl. destruct (_worker_awaitable s) as [| |[u|ex]]; reflexivity.
Qed.

Lemma wiring_put s job : wiring (put s job).1 = wiring s.
Proof.
  unfold put. destruct (queue_full _ _); [reflexivity | apply wiring_after_put].
Qed.

Lemma wiring_step s c l s' c' : step (s, c) l (s', c') -> wiring s' = wiring s.
Proof.
  intros Hstep. inversion Hstep as
    [s1 event s2 o H | s1 c1 s2 o H | s1 c1 s2 o H
    | s1 c1 request outcome s2 H | s1 c1 s2 H | s1 c1 s2 H]; subst.
  - assert (H1 : wiring (match _client_session s with
                         | None => _lazy_init s | Some _ => s end) = wiring s)
      by (destruct (_client_session s); reflexivity).
    destruct (call_cases _ _ _ _ H) as [(-> & _) | [(_ & _ & Hp) | (_ & e & req & _ & _ & Hp)]].
    + exact H1.
    + rewrite <- H1.
      match type of Hp with put ?s2 ?job = _ =>
        pose proof (wiring_put s2 job) as Hw; rewrite Hp in Hw; exact Hw end.
    + rewrite <- H1.
      match type of Hp with put ?s2 ?job = _ =>
        pose proof (wiring_put s2 job) as Hw; rewrite Hp in Hw; exact Hw end.
  - unfold resume_put in H. destruct c as [|job|]; try discriminate.
    destruct (queue_full _ _); [discriminate|]. injection H as H.
    pose proof (wiring_after_put s job) as Hw. rewrite H in Hw. exact Hw.
  - unfold resume_after_worker in H. destruct c; try discriminate.
    destruct (_worker_awaitable s) as [| |[u|ex]]; try discriminate.
    + destruct (_do_downstream _ _ _ _ _) as [[r st]|ex]; injection H as <- _; reflexivity.
    + injection H as <- _. reflexivity.
  - unfold resolve in H. destruct (tasks s !! request) as [[o|]|]; try discriminate.
    injection H as <-. reflexivity.
  - unfold worker_get in H. destruct (_worker_awaitable s); try discriminate.
    destruct (_q s) as [|[|event request] rest]; try discriminate;
      injection H as <-; reflexivity.
  - destruct (consume_cases _ _ H) as (event & request & _ & Hcases).
    destruct Hcases as [(ex & _ & ->) | (response & _ & [(ex & _ & ->) | [(_ & ->) |
      (v & _ & _ & [(r & st & _ & ->) | (ex & _ & ->)])]])]; reflexivity.
Qed.

Lemma wiring_exec c0 tr c1 : exec c0 tr c1 -> wiring c1.1 = wiring c0.1.
Proof.
  induction 1 as [c | c tr c' l c'' _ IH Hstep]; [reflexivity|].
  destruct c' as [s c'], c'' as [s'' c'']. rewrite <- IH.
  eapply wiring_step. exact Hstep.
Qed.

Lemma wiring_fields s s' :
  wiring s' = wiring s ->
  position s' = position s /\ _join_from_response s' = _join_from_response s /\
  _max_in_flight s' = _max_in_flight s /\
  _termination_result_fn s' = _termination_result_fn s /\ _outlets s' = _outlets s.
Proof. unfold wiring. intros [= -> _ -> -> -> ->]. auto. Qed.

(** ** The bound of the queue *)

Lemma after_put_state s job :
  (after_put s job).1 = s /\ forall j, caller_of (after_put s job).2 <> BlockedInPut j.
Proof.
  destruct job as [|event request]; [split; [reflexivity | discriminate]|].
  unfold after_put. destruct (_worker_awaitable s) as [| |[u|ex]];
    (split; [reflexivity | discriminate]).
Qed.

Lemma bounded_shrink s c s' c' :
  bounded s c ->
  _max_in_flight s' = _max_in_flight s -> length (_q s') <= length (_q s) ->
  (forall job, c' = BlockedInPut job -> c = BlockedInPut job) ->
  bounded s' c'.
Proof.
  intros [Hq Hc] Hm Hlen Hsame. unfold bounded. rewrite Hm. split.
  - intros Hpos. specialize (Hq Hpos). lia.
  - intros Hle job Hjob. apply (Hc Hle job). apply Hsame. exact Hjob.
Qed.

Lemma bounded_after_enqueue s c job :
  bounded s c -> queue_full (_max_in_flight s) (_q s) = false ->
  bounded (after_put (enqueue s job) job).1
          (caller_of (after_put (enqueue s job) job).2).
Proof.
  intros [Hq _] Hfull. destruct (after_put_state (enqueue s job) job) as [-> Hc].
  split.
  - assert (Hm : _max_in_flight (enqueue s job) = _max_in_flight s)
      by (destruct job; reflexivity).
    assert (Hl : _q (enqueue s job) = _q s ++ [job]) by (destruct job; reflexivity).
    rewrite Hm, Hl, length_app. simpl. intros Hpos.
    unfold queue_full in Hfull. apply andb_false_iff in Hfull as [Hf | Hf].
    + apply Z.ltb_ge in Hf. lia.
    + apply Z.leb_gt in Hf. lia.
  - intros _. exact Hc.
Qed.

Lemma bounded_put s c job :
  bounded s c -> bounded (put s job).1 (caller_of (put s job).2).
Proof.
  intros Hb. unfold put. destruct (queue_full _ _) eqn:Hfull.
  - simpl. destruct Hb as [Hq _]. split; [exact Hq|]. intros Hle.
    unfold queue_full in Hfull. apply andb_true_iff in Hfull as [Hf _].
    apply Z.ltb_lt in Hf. lia.
  - eapply bounded_after_enqueue; eassumption.
Qed.

Lemma bounded_step s c l s' c' :
  bounded s c -> step (s, c) l (s', c') -> bounded s' c'.
Proof.
  intros Hb Hstep. inversion Hstep as
    [s1 event s2 o H | s1 c1 s2 o H | s1 c1 s2 o H
    | s1 c1 request outcome s2 H | s1 c1 s2 H | s1 c1 s2 H]; subst.
  - assert (H1 : bounded (match _client_session s with
                          | None => _lazy_init s | Some _ => s end) NoCall).
    { destruct (_client_session s); [exact Hb|]. split; [simpl; lia | discriminate]. }
    destruct (call_cases _ _ _ _ H)
      as [(-> & ex & -> & _) | [(_ & _ & Hp) | (_ & e & req & _ & _ & Hp)]].
    + exact H1.
    + match type of Hp with put ?s2 ?job = _ =>
        pose proof (bounded_put s2 NoCall job H1) as Hw; rewrite Hp in Hw; exact Hw end.
    + match type of Hp with put ?s2 ?job = _ =>
        pose proof (bounded_put s2 NoCall job) as Hw; rewrite Hp in Hw; apply Hw end.
      eapply bounded_shrink; [exact H1 | reflexivity | reflexivity | auto].
  - unfold resume_put in H. destruct c as [|job|]; try discriminate.
    destruct (queue_full _ _) eqn:Hfull; [discriminate|]. injection H as H.
    pose proof (bounded_after_enqueue s _ job Hb Hfull) as Hw. rewrite H in Hw. exact Hw.
  - unfold resume_after_worker in H. destruct c; try discriminate.
    destruct (_worker_awaitable s) as [| |[u|ex]]; try discriminate.
    + destruct (_do_downstream _ _ _ _ _) as [[r st]|ex]; injection H as <- <-;
        (eapply bounded_shrink; [exact Hb | reflexivity | reflexivity | discriminate]).
    + injection H as <- <-.
      eapply bounded_shrink; [exact Hb | reflexivity | reflexivity | discriminate].
  - unfold resolve in H. destruct (tasks s !! request) as [[o|]|]; try discriminate.
    injection H as <-.
    eapply bounded_shrink; [exact Hb | reflexivity | reflexivity | auto].
  - unfold worker_get in H. destruct (_worker_awaitable s); try discriminate.
    destruct (_q s) as [|[|event request] rest] eqn:Hq; try discriminate;
      injection H as <-;
      (eapply bounded_shrink; [exact Hb | reflexivity | rewrite Hq; simpl; lia | auto]).
  - destruct (consume_cases _ _ H) as (event & request & _ & Hcases).
    destruct Hcases as [(ex & _ & ->) | (response & _ & [(ex & _ & ->) | [(_ & ->) |
      (v & _ & _ & [(r & st & _ & ->) | (ex & _ & ->)])]])];
      (eapply bounded_shrink;
       [exact Hb | reflexivity | simpl; destruct (_q s); simpl; lia | auto]).
Qed.

Lemma bounded_exec c0 tr c1 :
  exec c0 tr c1 -> bounded c0.1 c0.2 -> bounded c1.1 c1.2.
Proof.
  induction 1 as [c | c tr c' l c'' _ IH Hstep]; intros H0; [exact H0|].
  destruct c' as [s c'], c'' as [s'' c'']. eapply bounded_step; [apply IH, H0 | exact Hstep].
Qed.

Lemma length_requests_in q : length (requests_in q) <= length q.
Proof.
  unfold requests_in. induction q as [|job q IH]; [reflexivity|].
  csimpl. destruct (request_of job); simpl; lia.
Qed.

(** Whatever the order of the steps: a positive [max_in_flight] bounds
    the queue of the node, and as long as the worker runs at most
    [max_in_flight + 2] requests are issued and not consumed (those
    queued, the one the worker awaits and the one of a call suspended in
    [put], whose request task is created before the put); a
    [max_in_flight] that is not positive bounds nothing, and no call is
    ever suspended in [put]. *)
Theorem queue_and_in_flight_bounded
    (position : path) (request_builder : PyVal -> Res HttpRequest.t)
    (join_from_response : PyVal -> HttpResponse.t -> Res PyVal)
    (max_in_flight : Z) (comb : Combiner) (outlets : list Flow) (st0 : Store)
    (tr : list Label) (s : t) (c : Caller) :
  exec (__init__ position request_builder join_from_response max_in_flight
          comb outlets st0, NoCall) tr (s, c) ->
  ((0 < max_in_flight)%Z ->
   (Z.of_nat (length (_q s)) <= max_in_flight)%Z /\
   (alive (_worker_awaitable s) ->
    (Z.of_nat (length (issued s)) <= Z.of_nat (consumed s) + max_in_flight + 2)%Z)) /\
  ((max_in_flight <= 0)%Z -> forall job, c <> BlockedInPut job).
Proof.
  intros Hexec.
  pose proof (wiring_fields _ _ (wiring_exec _ _ _ Hexec)) as (_ & _ & Hm & _).
  simpl in Hm.
  assert (Hb : bounded s c).
  { apply (bounded_exec _ _ _ Hexec). split; [simpl; lia | discriminate]. }
  destruct Hb as [Hq Hc]. rewrite Hm in Hq, Hc. split; [|exact Hc].
  intros Hpos. split; [exact (Hq Hpos)|]. intros Ha.
  pose proof (invariant_exec _ _ _ Hexec (invariant_initial _ _ _ _ _ _ _))
    as [_ _ _ Hle Hpend _ _ _].
  simpl in Hle, Hpend. specialize (Hpend Ha). apply (f_equal length) in Hpend.
  rewrite length_drop, !length_app in Hpend.
  pose proof (length_requests_in (_q s)).
  assert (length (held (_worker_awaitable s)) <= 1)
    by (destruct (_worker_awaitable s); simpl; lia).
  assert (length (blocked c) <= 1)
    by (destruct c as [|[|event request]|]; simpl; lia).
  specialize (Hq Hpos). lia.
Qed.

Lemma queue_and_in_flight_bounded_witness :
  exists s c,
    exec (narrow_node, NoCall) crowded_trace (s, c) /\
    (Z.of_nat (length (_q s)) <= 1)%Z /\
    length (issued s) = 3 /\ consumed s = 0.
Proof.
  destruct (run_labels (narrow_node, NoCall) crowded_trace) as [[s c]|] eqn:Hrun;
    [|vm_compute in Hrun; discriminate].
  pose proof (run_labels_exec _ _ _ Hrun) as Hexec.
  destruct (queue_and_in_flight_bounded [0] JoinExample.example_builder
              JoinExample.example_join 1 default_termination_result_fn
              [Reduce (PyList []) list_append] empty_store crowded_trace s c Hexec)
    as (Hpos & _).
  destruct (Hpos ltac:(lia)) as (Hq & _).
  exists s, c. split; [exact Hexec|]. split; [exact Hq|].
  vm_compute in Hrun. injection Hrun as <- _. split; reflexivity.
Defined.


(** ** What a call of [_do] leaves alone *)

Lemma history_after_put s job :
  history (after_put (enqueue s job) job).1 = history s.
Proof.
  destruct (after_put_state (enqueue s job) job) as [-> _].
  destruct job; reflexivity.
Qed.

Lemma history_put s job : history (put s job).1 = history s.
Proof.
  unfold put. destruct (queue_full _ _); [reflexivity | apply history_after_put].
Qed.

Lemma history_lazy_init s c :
  invariant s c ->
  history (match _client_session s with None => _lazy_init s | Some _ => s end)
  = history s.
Proof.
  intros [Hinit _ _ _ _ _ _ _]. destruct (_client_session s); [reflexivity|].
  destruct (Hinit eq_refl) as (_ & Hg & _). unfold history. simpl. rewrite Hg.
  reflexivity.
Qed.

Lemma history_fields s s' :
  history s' = history s ->
  tasks s' = tasks s /\ nodes s' = nodes s /\ issued s' = issued s /\
  consumed s' = consumed s /\ forwarded s' = forwarded s /\
  _worker_awaitable s' = _worker_awaitable s.
Proof. unfold history. intros [= -> -> -> -> -> ->]. auto 10. Qed.

(** A call of [_do] changes the histories only by the request task it
    creates. *)
Lemma call_history s event s' o :
  invariant s NoCall -> _do s event = (s', o) ->
  history s' = history s \/
  exists e,
    event = Ev e /\ alive (_worker_awaitable s) /\
    history s' =
    (tasks s ++ [None], nodes s, issued s ++ [(length (tasks s), e)], consumed s,
     forwarded s, _worker_awaitable s).
Proof.
  intros Hinv H. pose proof (history_lazy_init _ _ Hinv) as H1.
  destruct (history_fields _ _ H1) as (Ht & Hn & Hi & Hc & Hf & Hw).
  destruct (call_cases _ _ _ _ H)
    as [(-> & _) | [(_ & _ & Hp) | (Ha & e & req & -> & _ & Hp)]].
  - left. exact H1.
  - left. rewrite <- H1.
    match type of Hp with put ?s2 ?job = _ =>
      pose proof (history_put s2 job) as Hh; rewrite Hp in Hh; exact Hh end.
  - right. exists e. split; [reflexivity|]. rewrite Hw in Ha. split; [exact Ha|].
    match type of Hp with put ?s2 ?job = _ =>
      pose proof (history_put s2 job) as Hh; rewrite Hp in Hh; simpl in Hh;
      rewrite Hh end.
    unfold history. simpl. rewrite Ht, Hn, Hi, Hc, Hf, Hw. reflexivity.
Qed.

(** ** A failure of the worker is final *)

Lemma failed_worker_call s ex event :
  _worker_awaitable s = Done (Raise ex) -> _client_session s <> None ->
  _do s event = (s, Returns (Raise ex)).
Proof.
  intros Hw Hs. unfold _do. destruct (_client_session s); [|congruence].
  rewrite Hw. reflexivity.
Qed.

Lemma failed_worker_step s c l s' c' ex :
  _worker_awaitable s = Done (Raise ex) -> _client_session s <> None ->
  step (s, c) l (s', c') ->
  _worker_awaitable s' = Done (Raise ex) /\ _client_session s' <> None /\
  nodes s' = nodes s /\ forwarded s' = forwarded s /\
  consumed s' = consumed s /\ issued s' = issued s /\
  l <> WorkerGet /\ l <> WorkerConsume.
Proof.
  intros Hw Hs Hstep. inversion Hstep as
    [s1 event s2 o H | s1 c1 s2 o H | s1 c1 s2 o H
    | s1 c1 request outcome s2 H | s1 c1 s2 H | s1 c1 s2 H]; subst.
  - rewrite (failed_worker_call _ _ event Hw Hs) in H. injection H as <- _.
    repeat split; auto; discriminate.
  - unfold resume_put in H. destruct c as [|job|]; try discriminate.
    destruct (queue_full _ _); [discriminate|]. injection H as H.
    destruct (after_put_state (enqueue s job) job) as [Hst _]. rewrite H in Hst.
    simpl in Hst. subst s'. destruct job; repeat split; auto; discriminate.
  - unfold resume_after_worker in H. destruct c; try discriminate.
    rewrite Hw in H. injection H as <- _. repeat split; auto; discriminate.
  - unfold resolve in H. destruct (tasks s !! request) as [[o|]|]; try discriminate.
    injection H as <-. repeat split; auto; discriminate.
  - unfold worker_get in H. rewrite Hw in H. discriminate.
  - unfold worker_consume in H. rewrite Hw in H. discriminate.
Qed.

Lemma failed_worker_exec c0 tr c1 ex :
  exec c0 tr c1 ->
  _worker_awaitable c0.1 = Done (Raise ex) -> _client_session c0.1 <> None ->
  _worker_awaitable c1.1 = Done (Raise ex) /\ _client_session c1.1 <> None /\
  nodes c1.1 = nodes c0.1 /\ forwarded c1.1 = forwarded c0.1 /\
  consumed c1.1 = consumed c0.1 /\ issued c1.1 = issued c0.1 /\
  Forall (fun l => l <> WorkerGet /\ l <> WorkerConsume) tr.
Proof.
  induction 1 as [c | c tr c' l c'' _ IH Hstep]; intros Hw Hs; [auto 10|].
  destruct (IH Hw Hs) as (Hw' & Hs' & Hn & Hf & Hc & Hi & Hall).
  destruct c' as [s c'], c'' as [s'' c''].
  destruct (failed_worker_step _ _ _ _ _ _ Hw' Hs' Hstep)
    as (Hw'' & Hs'' & Hn' & Hf' & Hc' & Hi' & Hl1 & Hl2).
  simpl in *. rewrite Hn', Hf', Hc', Hi'.
  repeat split; auto. apply Forall_app. split; [exact Hall|]. repeat constructor; auto.
Qed.

(** Once the worker of a node has failed with [ex] it stays failed:
    whatever happens afterwards, the worker takes and consumes nothing,
    nothing more is forwarded to the outlets (the termination signal
    included), no request is issued, and every call of [_do], with an
    event or with the termination signal, raises [ex] and changes
    nothing. *)
Theorem worker_failure_is_final
    (position : path) (request_builder : PyVal -> Res HttpRequest.t)
    (join_from_response : PyVal -> HttpResponse.t -> Res PyVal)
    (max_in_flight : Z) (comb : Combiner) (outlets : list Flow) (st0 : Store)
    (tr : list Label) (s : t) (c : Caller) (ex : Exn)
    (tr' : list Label) (s' : t) (c' : Caller) :
  exec (__init__ position request_builder join_from_response max_in_flight
          comb outlets st0, NoCall) tr (s, c) ->
  _worker_awaitable s = Done (Raise ex) ->
  exec (s, c) tr' (s', c') ->
  _worker_awaitable s' = Done (Raise ex) /\
  nodes s' = nodes s /\ forwarded s' = forwarded s /\
  consumed s' = consumed s /\ issued s' = issued s /\
  Forall (fun l => l <> WorkerGet /\ l <> WorkerConsume) tr' /\
  (forall event, _do s' event = (s', Returns (Raise ex))).
Proof.
  intros Hexec Hw Hexec'.
  pose proof (invariant_exec _ _ _ Hexec (invariant_initial _ _ _ _ _ _ _))
    as [_ _ _ _ _ _ Hclosed _].
  simpl in Hclosed.
  assert (Hs : _client_session s <> None) by (rewrite (Hclosed _ Hw); discriminate).
  destruct (failed_worker_exec _ _ _ ex Hexec' Hw Hs)
    as (Hw' & Hs' & Hn & Hf & Hc & Hi & Hall).
  simpl in *. repeat split; auto.
  intros event. apply failed_worker_call; assumption.
Qed.

Lemma worker_failure_is_final_witness :
  exists s c s' c',
    exec (JoinExample.example_node, NoCall) broken_trace (s, c) /\
    _worker_awaitable s = Done (Raise (Exception "ClientError")) /\
    exec (s, c) after_broken_trace (s', c') /\
    forwarded s' = [] /\ issued s' = issued s.
Proof.
  destruct (run_labels (JoinExample.example_node, NoCall) broken_trace)
    as [[s c]|] eqn:Hrun; [|vm_compute in Hrun; discriminate].
  pose proof (run_labels_exec _ _ _ Hrun) as Hexec.
  assert (Hw : _worker_awaitable s = Done (Raise (Exception "ClientError")) /\
               forwarded s = []).
  { vm_compute in Hrun. injection Hrun as <- _. split; reflexivity. }
  destruct Hw as [Hw Hnil].
  destruct (run_labels (s, c) after_broken_trace) as [[s' c']|] eqn:Hrun';
    [|vm_compute in Hrun; injection Hrun as <- <-; vm_compute in Hrun'; discriminate].
  pose proof (run_labels_exec _ _ _ Hrun') as Hexec'.
  destruct (worker_failure_is_final [0] JoinExample.example_builder
              JoinExample.example_join 3 default_termination_result_fn
              [Reduce (PyList []) list_append] empty_store
              broken_trace s c _ after_broken_trace s' c' Hexec Hw Hexec')
    as (_ & _ & Hf & _ & Hi & _).
  exists s, c, s', c'. rewrite Hf. auto.
Defined.

(** ** After the normal end of the worker *)

Lemma ended_worker_call s event :
  _worker_awaitable s = Done (Ok tt) -> _client_session s <> None ->
  _do s event = (s, Returns (Raise AssertionError)).
Proof.
  intros Hw Hs. unfold _do. destruct (_client_session s); [|congruence].
  rewrite Hw. reflexivity.
Qed.

Lemma ended_worker_step s c l s' c' :
  _worker_awaitable s = Done (Ok tt) -> _client_session s <> None ->
  (c = NoCall \/ c = AwaitingWorker) ->
  step (s, c) l (s', c') ->
  _worker_awaitable s' = Done (Ok tt) /\ _client_session s' <> None /\
  (c' = NoCall \/ c' = AwaitingWorker) /\
  _q s' = _q s /\ forwarded s' = forwarded s /\
  consumed s' = consumed s /\ issued s' = issued s /\
  (c = NoCall -> c' = NoCall /\ nodes s' = nodes s).
Proof.
  intros Hw Hs Hc Hstep. inversion Hstep as
    [s1 event s2 o H | s1 c1 s2 o H | s1 c1 s2 o H
    | s1 c1 request outcome s2 H | s1 c1 s2 H | s1 c1 s2 H]; subst.
  - rewrite (ended_worker_call _ event Hw Hs) in H. injection H as <- <-.
    simpl. auto 10.
  - unfold resume_put in H. destruct Hc as [-> | ->]; discriminate.
  - unfold resume_after_worker in H. destruct c; try discriminate.
    rewrite Hw in H.
    destruct (_do_downstream _ _ _ _ _) as [[r st]|ex]; injection H as <- <-;
      simpl; repeat split; auto; discriminate.
  - unfold resolve in H. destruct (tasks s !! request) as [[o|]|]; try discriminate.
    injection H as <-. simpl. auto 10.
  - unfold worker_get in H. rewrite Hw in H. discriminate.
  - unfold worker_consume in H. rewrite Hw in H. discriminate.
Qed.

Lemma ended_worker_exec c0 tr c1 :
  exec c0 tr c1 ->
  _worker_awaitable c0.1 = Done (Ok tt) -> _client_session c0.1 <> None ->
  (c0.2 = NoCall \/ c0.2 = AwaitingWorker) ->
  _worker_awaitable c1.1 = Done (Ok tt) /\ _client_session c1.1 <> None /\
  (c1.2 = NoCall \/ c1.2 = AwaitingWorker) /\
  _q c1.1 = _q c0.1 /\ forwarded c1.1 = forwarded c0.1 /\
  consumed c1.1 = consumed c0.1 /\ issued c1.1 = issued c0.1 /\
  (c0.2 = NoCall -> c1.2 = NoCall /\ nodes c1.1 = nodes c0.1).
Proof.
  induction 1 as [c | c tr c' l c'' _ IH Hstep]; intros Hw Hs Hc; [auto 10|].
  destruct (IH Hw Hs Hc) as (Hw' & Hs' & Hc' & Hq & Hf & Hcons & Hi & Hn).
  destruct c' as [s c'], c'' as [s'' c''].
  destruct (ended_worker_step _ _ _ _ _ Hw' Hs' Hc' Hstep)
    as (Hw'' & Hs'' & Hc'' & Hq' & Hf' & Hcons' & Hi' & Hn').
  simpl in *. rewrite Hq', Hf', Hcons', Hi'.
  split; [exact Hw''|]. split; [exact Hs''|]. split; [exact Hc''|].
  split; [exact Hq|]. split; [exact Hf|]. split; [exact Hcons|]. split; [exact Hi|].
  intros H0. destruct (Hn H0) as [Hc0 Hn0]. destruct (Hn' Hc0) as [Hc1 ->]. auto.
Qed.

(** Once the worker of a node has left its loop normally (the
    termination signal was put and everything before it consumed), the
    node is finished for good: the queue stays empty, nothing more is
    issued or forwarded, every further call of [_do] (with an event or
    with a second termination signal) raises [AssertionError] and
    changes nothing, and once the call that carried the termination
    signal is over the outlets receive nothing any more. *)
Theorem ended_node_rejects_items
    (position : path) (request_builder : PyVal -> Res HttpRequest.t)
    (join_from_response : PyVal -> HttpResponse.t -> Res PyVal)
    (max_in_flight : Z) (comb : Combiner) (outlets : list Flow) (st0 : Store)
    (tr : list Label) (s : t) (c : Caller)
    (tr' : list Label) (s' : t) (c' : Caller) :
  exec (__init__ position request_builder join_from_response max_in_flight
          comb outlets st0, NoCall) tr (s, c) ->
  _worker_awaitable s = Done (Ok tt) ->
  exec (s, c) tr' (s', c') ->
  _worker_awaitable s' = Done (Ok tt) /\
  _q s' = [] /\ forwarded s' = forwarded s /\ issued s' = issued s /\
  consumed s' = length (issued s') /\
  (forall event, _do s' event = (s', Returns (Raise AssertionError))) /\
  (c = NoCall -> c' = NoCall /\ nodes s' = nodes s).
Proof.
  intros Hexec Hw Hexec'.
  pose proof (invariant_exec _ _ _ Hexec (invariant_initial _ _ _ _ _ _ _))
    as [_ _ _ _ _ _ Hclosed Hdrained].
  simpl in Hclosed, Hdrained.
  assert (Hs : _client_session s <> None) by (rewrite (Hclosed _ Hw); discriminate).
  destruct (Hdrained Hw) as (Hq & Hall & _ & Hc).
  destruct (ended_worker_exec _ _ _ Hexec' Hw Hs Hc)
    as (Hw' & Hs' & _ & Hq' & Hf & Hcons & Hi & Hn).
  simpl in *. rewrite Hq', Hcons, Hi.
  split; [exact Hw'|]. split; [exact Hq|]. split; [exact Hf|].
  split; [reflexivity|]. split; [exact Hall|].
  split; [|exact Hn].
  intros event. apply ended_worker_call; assumption.
Qed.

Lemma ended_node_rejects_items_witness :
  exists s c s' c',
    exec (JoinExample.example_node, NoCall) JoinExample.example_trace (s, c) /\
    _worker_awaitable s = Done (Ok tt) /\
    exec (s, c) after_example_trace (s', c') /\
    nodes s' = nodes s /\ issued s' = issued s.
Proof.
  destruct (run_labels (JoinExample.example_node, NoCall) JoinExample.example_trace)
    as [[s c]|] eqn:Hrun; [|vm_compute in Hrun; discriminate].
  pose proof (run_labels_exec _ _ _ Hrun) as Hexec.
  assert (Hw : _worker_awaitable s = Done (Ok tt) /\ c = NoCall).
  { vm_compute in Hrun. injection Hrun as <- <-. split; reflexivity. }
  destruct Hw as [Hw Hc].
  destruct (run_labels (s, c) after_example_trace) as [[s' c']|] eqn:Hrun';
    [|vm_compute in Hrun; injection Hrun as <- <-; vm_compute in Hrun'; discriminate].
  pose proof (run_labels_exec _ _ _ Hrun') as Hexec'.
  destruct (ended_node_rejects_items [0] JoinExample.example_builder
              JoinExample.example_join 3 default_termination_result_fn
              [Reduce (PyList []) list_append] empty_store
              JoinExample.example_trace s c after_example_trace s' c' Hexec Hw Hexec')
    as (_ & _ & _ & Hi & _ & _ & Hn).
  destruct (Hn Hc) as [_ Hnodes].
  exists s, c, s', c'. auto.
Defined.


(** ** What the outlets receive *)

Lemma delivered_keep st0 s c s' c' :
  delivered st0 s c ->
  position s' = position s -> _outlets s' = _outlets s ->
  nodes s' = nodes s -> forwarded s' = forwarded s ->
  (~ failed (_worker_awaitable s') -> ~ failed (_worker_awaitable s)) ->
  (_worker_awaitable s = Done (Ok tt) -> c = NoCall ->
   _worker_awaitable s' = Done (Ok tt) /\ c' = NoCall) ->
  delivered st0 s' c'.
Proof.
  intros Hd Hp Ho Hn Hf Hnf Hend Hnf' j Hj. rewrite Hp, Hn, Hf. rewrite Ho in Hj.
  destruct (Hd (Hnf Hnf') j Hj) as (tail & E & [-> | (-> & Hw & Hc)]).
  - exists []. auto.
  - exists [_termination_obj]. split; [exact E|]. right.
    destruct (Hend Hw Hc). auto.
Qed.

Lemma not_failed_alive w : alive w -> ~ failed w.
Proof. intros Ha (ex & ->). exact Ha. Qed.

Lemma delivered_step st0 s c l s' c' :
  invariant s c -> delivered st0 s c -> step (s, c) l (s', c') ->
  delivered st0 s' c'.
Proof.
  intros Hinv Hd Hstep.
  destruct (wiring_fields _ _ (wiring_step _ _ _ _ _ Hstep)) as (Hp & _ & _ & _ & Ho).
  pose proof Hinv as [_ _ _ _ _ _ Hclosed _].
  inversion Hstep as
    [s1 event s2 o H | s1 c1 s2 o H | s1 c1 s2 o H
    | s1 c1 request outcome s2 H | s1 c1 s2 H | s1 c1 s2 H]; subst.
  - (* a call *)
    assert (Hh : nodes s' = nodes s /\ forwarded s' = forwarded s /\
                 _worker_awaitable s' = _worker_awaitable s).
    { destruct (call_history _ _ _ _ Hinv H) as [Hh | (e & _ & _ & Hh)].
      - apply history_fields in Hh as (_ & ? & _ & _ & ? & ?). auto.
      - unfold history in Hh. injection Hh as _ ? _ _ ? ?. auto. }
    destruct Hh as (Hn & Hf & Hw).
    eapply delivered_keep; try eassumption.
    + rewrite Hw. auto.
    + intros Hend _. rewrite Hw. split; [exact Hend|].
      rewrite (ended_worker_call s event Hend) in H.
      * injection H as _ <-. reflexivity.
      * rewrite (Hclosed _ Hend). discriminate.
  - (* a put goes through *)
    unfold resume_put in H. destruct c as [|job|]; try discriminate.
    destruct (queue_full _ _); [discriminate|]. injection H as H.
    pose proof (history_after_put s job) as Hh. rewrite H in Hh. simpl in Hh.
    apply history_fields in Hh as (_ & Hn & _ & _ & Hf & Hw).
    eapply delivered_keep; try eassumption.
    + rewrite Hw. auto.
    + discriminate.
  - (* the call that carried the termination signal goes on *)
    unfold resume_after_worker in H. destruct c; try discriminate.
    destruct (_worker_awaitable s) as [| |[[]|ex]] eqn:Hw; try discriminate.
    + destruct (_do_downstream _ _ _ _ _) as [[r st]|ex] eqn:Hdown; injection H as <- <-.
      * intros _ j Hj. simpl in *. unfold delivered in Hd. rewrite Hw in Hd.
        destruct (Hd ltac:(intros (ex & Hex); discriminate) j Hj)
          as (tail & E & [-> | (_ & _ & Hc)]); [|discriminate].
        exists [_termination_obj]. split; [|right; rewrite Hw; auto].
        rewrite (downstream_termination_received _ _ _ _ _ _ Hdown j Hj), E.
        rewrite !app_nil_r, <- app_assoc. reflexivity.
      * eapply delivered_keep; try eassumption; try reflexivity; [auto | discriminate].
    + injection H as <- <-.
      eapply delivered_keep; try eassumption; try reflexivity; [auto | discriminate].
  - (* the transport *)
    unfold resolve in H. destruct (tasks s !! request) as [[o|]|]; try discriminate.
    injection H as <-.
    eapply delivered_keep; try eassumption; try reflexivity; auto.
  - (* the worker takes a job *)
    unfold worker_get in H. destruct (_worker_awaitable s) eqn:Hw; try discriminate.
    destruct (_q s) as [|[|event request] rest]; try discriminate; injection H as <-;
      (eapply delivered_keep; try eassumption; try reflexivity;
       [rewrite Hw; intros _ (ex & Hex); discriminate | rewrite Hw; discriminate]).
  - (* the worker consumes a response *)
    destruct (consume_cases _ _ H) as (event & request & Hw & Hcases).
    assert (Hbefore : forall j, j < length (_outlets s) ->
              received (position s ++ [j]) (nodes s) =
              received (position s ++ [j]) st0 ++ map Ev (forwarded s)).
    { intros j Hj. unfold delivered in Hd. rewrite Hw in Hd.
      destruct (Hd ltac:(intros (ex & Hex); discriminate) j Hj)
        as (tail & E & [-> | (_ & Hdone & _)]); [|discriminate].
      rewrite app_nil_r in E. exact E. }
    destruct Hcases as [(ex & _ & ->) | (response & _ & [(ex & _ & ->) | [(_ & ->) |
      (v & _ & _ & [(r & st & Hdown & ->) | (ex & _ & ->)])]])].
    + intros Hnf. exfalso. apply Hnf. eexists. reflexivity.
    + intros Hnf. exfalso. apply Hnf. eexists. reflexivity.
    + intros _ j Hj. exists []. simpl. split; [|auto].
      rewrite app_nil_r. apply Hbefore, Hj.
    + intros _ j Hj. exists []. simpl. split; [|auto].
      rewrite (downstream_event_received _ _ _ _ _ _ _ Hdown j Hj), (Hbefore j Hj).
      rewrite map_app, app_nil_r, <- app_assoc. reflexivity.
    + intros Hnf. exfalso. apply Hnf. eexists. reflexivity.
Qed.

Lemma delivered_exec st0 c0 tr c1 :
  exec c0 tr c1 -> invariant c0.1 c0.2 -> delivered st0 c0.1 c0.2 ->
  delivered st0 c1.1 c1.2.
Proof.
  induction 1 as [c | c tr c' l c'' Hexec IH Hstep]; intros H0 Hd0; [exact Hd0|].
  pose proof (invariant_exec _ _ _ Hexec H0) as Hinv.
  destruct c' as [s c'], c'' as [s'' c''].
  eapply delivered_step; [exact Hinv | apply IH; assumption | exact Hstep].
Qed.

(** As long as the worker of a node has not failed, each outlet of the
    node has received, since the node was built, exactly the events the
    worker forwarded (the joined events of the requests consumed, in the
    order of issue), in this order, followed by the termination signal
    once the call of [_do] that carried it has returned, and by nothing
    else: the termination signal is never followed by an event. *)
Theorem outlets_receive_forwarded_then_termination
    (position : path) (request_builder : PyVal -> Res HttpRequest.t)
    (join_from_response : PyVal -> HttpResponse.t -> Res PyVal)
    (max_in_flight : Z) (comb : Combiner) (outlets : list Flow) (st0 : Store)
    (tr : list Label) (s : t) (c : Caller) (j : nat) :
  exec (__init__ position request_builder join_from_response max_in_flight
          comb outlets st0, NoCall) tr (s, c) ->
  (forall ex, _worker_awaitable s <> Done (Raise ex)) ->
  j < length outlets ->
  exists tail,
    received (position ++ [j]) (nodes s) =
    received (position ++ [j]) st0 ++ map Ev (forwarded s) ++ tail /\
    (tail = [] \/
     tail = [_termination_obj] /\ _worker_awaitable s = Done (Ok tt) /\ c = NoCall).
Proof.
  intros Hexec Hnf Hj.
  destruct (wiring_fields _ _ (wiring_exec _ _ _ Hexec)) as (Hp & _ & _ & _ & Ho).
  simpl in Hp, Ho.
  assert (Hd : delivered st0 s c).
  { apply (delivered_exec st0 _ _ _ Hexec (invariant_initial _ _ _ _ _ _ _)).
    intros _ i Hi. exists []. simpl. rewrite app_nil_r. auto. }
  unfold delivered in Hd. rewrite Hp, Ho in Hd. apply Hd; [|exact Hj].
  intros (ex & Hex). exact (Hnf ex Hex).
Qed.

Lemma outlets_receive_forwarded_then_termination_witness :
  exists s c,
    exec (JoinExample.example_node, NoCall) JoinExample.example_trace (s, c) /\
    received [0; 0] (nodes s) =
    [Ev (JoinExample.joined_with "a"); Ev (JoinExample.joined_with "b");
     Ev (JoinExample.joined_with "c"); _termination_obj].
Proof.
  destruct (run_labels (JoinExample.example_node, NoCall) JoinExample.example_trace)
    as [[s c]|] eqn:Hrun; [|vm_compute in Hrun; discriminate].
  pose proof (run_labels_exec _ _ _ Hrun) as Hexec.
  assert (Hs : _worker_awaitable s = Done (Ok tt) /\
               forwarded s = [JoinExample.joined_with "a"; JoinExample.joined_with "b";
                              JoinExample.joined_with "c"] /\
               exists e, last (received [0; 0] (nodes s)) = Some e /\ e = _termination_obj).
  { vm_compute in Hrun. injection Hrun as <- _.
    split; [reflexivity|]. split; [reflexivity|]. eexists. split; reflexivity. }
  destruct Hs as (Hw & Hf & e & Hlast & ->).
  destruct (outlets_receive_forwarded_then_termination [0] JoinExample.example_builder
              JoinExample.example_join 3 default_termination_result_fn
              [Reduce (PyList []) list_append] empty_store
              JoinExample.example_trace s c 0 Hexec
              ltac:(rewrite Hw; discriminate) ltac:(simpl; lia))
    as (tail & E & Htail).
  exists s, c. split; [exact Hexec|].
  change ([0] ++ [0]) with ([0; 0] : path) in E. rewrite E, Hf.
  destruct Htail as [-> | (-> & _)]; [|reflexivity].
  rewrite E, Hf in Hlast. discriminate.
Defined.


(** ** A worker that runs has joined every response it consumed *)

Lemma survived_keep s s' :
  survived s ->
  take (consumed s') (issued s') = take (consumed s) (issued s) ->
  (forall i outcome, tasks s !! i = Some (Some outcome) ->
                     tasks s' !! i = Some (Some outcome)) ->
  _join_from_response s' = _join_from_response s ->
  (~ failed (_worker_awaitable s') -> ~ failed (_worker_awaitable s)) ->
  survived s'.
Proof.
  intros Hs Htake Ht Hj Hnf Hnf'. rewrite Htake.
  eapply Forall_impl; [exact (Hs (Hnf Hnf'))|].
  intros job (response & v & Hjob & Hv). exists response, v.
  rewrite Hj. split; [apply Ht, Hjob | exact Hv].
Qed.

Lemma survived_consume s c s' event request response v :
  invariant s c -> survived s ->
  _worker_awaitable s = Awaiting event request ->
  tasks s !! request = Some (Some (Ok response)) ->
  _join_from_response s (element event) response = Ok v ->
  tasks s' = tasks s -> issued s' = issued s -> consumed s' = S (consumed s) ->
  _join_from_response s' = _join_from_response s ->
  survived s'.
Proof.
  intros [_ _ _ _ Hpend _ _ _] Hs Hw Ht Hv Htasks Hissued Hconsumed Hj _.
  rewrite Hw in Hpend. specialize (Hpend I). simpl in Hpend.
  destruct (next_job _ _ _ _ Hpend) as (_ & _ & Htake).
  rewrite Hconsumed, Hissued, Htake. apply Forall_app. split.
  - eapply Forall_impl;
      [apply Hs; rewrite Hw; intros (ex & Hex); discriminate|].
    intros job (response0 & v0 & Hjob & Hv0). exists response0, v0.
    rewrite Htasks, Hj. auto.
  - constructor; [|constructor]. exists response, v. rewrite Htasks, Hj. auto.
Qed.

Lemma survived_step s c l s' c' :
  invariant s c -> survived s -> step (s, c) l (s', c') -> survived s'.
Proof.
  intros Hinv Hs Hstep.
  destruct (wiring_fields _ _ (wiring_step _ _ _ _ _ Hstep)) as (_ & Hj & _).
  pose proof Hinv as [_ _ _ Hle _ _ _ _].
  inversion Hstep as
    [s1 event s2 o H | s1 c1 s2 o H | s1 c1 s2 o H
    | s1 c1 request outcome s2 H | s1 c1 s2 H | s1 c1 s2 H]; subst.
  - destruct (call_history _ _ _ _ Hinv H) as [Hh | (e & _ & _ & Hh)].
    + apply history_fields in Hh as (Ht & _ & Hi & Hc & _ & Hw).
      eapply survived_keep; [exact Hs | | | exact Hj |].
      * rewrite Hc, Hi. reflexivity.
      * intros i o0 Hi0. rewrite Ht. exact Hi0.
      * rewrite Hw. auto.
    + unfold history in Hh. injection Hh as Ht _ Hi Hc _ Hw.
      eapply survived_keep; [exact Hs | | | exact Hj |].
      * rewrite Hc, Hi. apply take_app_le. exact Hle.
      * intros i o0 Hi0. rewrite Ht. apply lookup_app_l_Some. exact Hi0.
      * rewrite Hw. auto.
  - unfold resume_put in H. destruct c as [|job|]; try discriminate.
    destruct (queue_full _ _); [discriminate|]. injection H as H.
    pose proof (history_after_put s job) as Hh. rewrite H in Hh. simpl in Hh.
    apply history_fields in Hh as (Ht & _ & Hi & Hc & _ & Hw).
    eapply survived_keep; [exact Hs | | | exact Hj |].
    + rewrite Hc, Hi. reflexivity.
    + intros i o0 Hi0. rewrite Ht. exact Hi0.
    + rewrite Hw. auto.
  - unfold resume_after_worker in H. destruct c; try discriminate.
    destruct (_worker_awaitable s) as [| |[u|ex]] eqn:Hw; try discriminate.
    + destruct (_do_downstream _ _ _ _ _) as [[r st]|ex]; injection H as <- _;
        (eapply survived_keep; [exact Hs | reflexivity | auto | reflexivity |]);
        simpl; rewrite Hw; auto.
    + injection H as <- _. exact Hs.
  - unfold resolve in H. destruct (tasks s !! request) as [[o|]|] eqn:Hreq;
      try discriminate.
    injection H as <-.
    eapply survived_keep; [exact Hs | reflexivity | | reflexivity | auto].
    intros i o Hi. simpl. rewrite list_lookup_insert_ne; [exact Hi|].
    intros <-. rewrite Hreq in Hi. discriminate.
  - unfold worker_get in H. destruct (_worker_awaitable s) eqn:Hw; try discriminate.
    destruct (_q s) as [|[|event request] rest]; try discriminate; injection H as <-;
      (eapply survived_keep; [exact Hs | reflexivity | auto | reflexivity |]);
      rewrite Hw; intros _ (ex & Hex); discriminate.
  - destruct (consume_cases _ _ H) as (event & request & Hw & Hcases).
    destruct Hcases as [(ex & _ & ->) | (response & Ht & [(ex & _ & ->) | [(Hv & ->) |
      (v & Hv & _ & [(r & st & Hdown & ->) | (ex & _ & ->)])]])].
    + intros Hnf. exfalso. apply Hnf. eexists. reflexivity.
    + intros Hnf. exfalso. apply Hnf. eexists. reflexivity.
    + eapply (survived_consume s); try eassumption; reflexivity.
    + eapply (survived_consume s); try eassumption; reflexivity.
    + intros Hnf. exfalso. apply Hnf. eexists. reflexivity.
Qed.

Lemma survived_exec c0 tr c1 :
  exec c0 tr c1 -> invariant c0.1 c0.2 -> survived c0.1 -> survived c1.1.
Proof.
  induction 1 as [c | c tr c' l c'' Hexec IH Hstep]; intros H0 Hs0; [exact Hs0|].
  pose proof (invariant_exec _ _ _ Hexec H0) as Hinv.
  destruct c' as [s c'], c'' as [s'' c''].
  eapply survived_step; [exact Hinv | apply IH; assumption | exact Hstep].
Qed.

(** A failure is never passed over: as long as the worker of a node has
    not failed, every request it has consumed was answered by the
    transport without an exception, and [join_from_response] returned
    for its response without raising. *)
Theorem running_worker_joined_every_response
    (position : path) (request_builder : PyVal -> Res HttpRequest.t)
    (join_from_response : PyVal -> HttpResponse.t -> Res PyVal)
    (max_in_flight : Z) (comb : Combiner) (outlets : list Flow) (st0 : Store)
    (tr : list Label) (s : t) (c : Caller) :
  exec (__init__ position request_builder join_from_response max_in_flight
          comb outlets st0, NoCall) tr (s, c) ->
  (forall ex, _worker_awaitable s <> Done (Raise ex)) ->
  Forall (fun job : nat * Event =>
            exists response v,
              tasks s !! job.1 = Some (Some (Ok response)) /\
              join_from_response (element job.2) response = Ok v)
         (take (consumed s) (issued s)).
Proof.
  intros Hexec Hnf.
  destruct (wiring_fields _ _ (wiring_exec _ _ _ Hexec)) as (_ & Hj & _).
  simpl in Hj.
  assert (Hs : survived s).
  { apply (survived_exec _ _ _ Hexec (invariant_initial _ _ _ _ _ _ _)).
    intros _. constructor. }
  eapply Forall_impl; [apply Hs; intros (ex & Hex); exact (Hnf ex Hex)|].
  intros job (response & v & Hjob & Hv). exists response, v.
  rewrite <- Hj. auto.
Qed.

Lemma running_worker_joined_every_response_witness :
  exists s c,
    exec (JoinExample.example_node, NoCall) JoinExample.example_events_trace (s, c) /\
    consumed s = 3 /\
    Forall (fun job : nat * Event =>
              exists response v,
                tasks s !! job.1 = Some (Some (Ok response)) /\
                JoinExample.example_join (element job.2) response = Ok v)
           (take (consumed s) (issued s)).
Proof.
  destruct (run_labels (JoinExample.example_node, NoCall)
              JoinExample.example_events_trace) as [[s c]|] eqn:Hrun;
    [|vm_compute in Hrun; discriminate].
  pose proof (run_labels_exec _ _ _ Hrun) as Hexec.
  assert (Hs : _worker_awaitable s = Getting /\ consumed s = 3).
  { vm_compute in Hrun. injection Hrun as <- _. split; reflexivity. }
  destruct Hs as [Hw Hc].
  exists s, c. split; [exact Hexec|]. split; [exact Hc|].
  apply (running_worker_joined_every_response [0] JoinExample.example_builder
           JoinExample.example_join 3 default_termination_result_fn
           [Reduce (PyList []) list_append] empty_store
           JoinExample.example_events_trace s c Hexec).
  rewrite Hw. discriminate.
Defined.

(** ** The outlets receive the joined events in the order of issue *)

(** C5: whatever the bound [max_in_flight] and whatever the order in
    which the transport resolves the requests, the worker has consumed a
    response for each of the first [consumed s] requests issued and for
    no other, the job it holds, if any, being the next one issued; the
    events it has handed to [_do_downstream] are those joined from these
    requests, in the order of issue (the jobs whose response yields
    nothing left out); and, as long as the worker has not failed, these
    are the events each outlet of the node has received since the node
    was built, in this order, followed by nothing but the termination
    signal. *)
Theorem forwarded_in_issuance_order
    (position : path) (request_builder : PyVal -> Res HttpRequest.t)
    (join_from_response : PyVal -> HttpResponse.t -> Res PyVal)
    (max_in_flight : Z) (comb : Combiner) (outlets : list Flow) (st0 : Store)
    (tr : list Label) (s : t) (c : Caller) :
  exec (__init__ position request_builder join_from_response max_in_flight
          comb outlets st0, NoCall) tr (s, c) ->
  forwarded s = omap (joined_event s) (take (consumed s) (issued s)) /\
  Forall (resolved s) (take (consumed s) (issued s)) /\
  consumed s <= length (issued s) /\
  (forall event request,
      _worker_awaitable s = Awaiting event request ->
      issued s !! consumed s = Some (request, event)) /\
  ((forall ex, _worker_awaitable s <> Done (Raise ex)) ->
   forall j, j < length outlets ->
     exists tail,
       received (position ++ [j]) (nodes s) =
       received (position ++ [j]) st0 ++
       map Ev (omap (joined_event s) (take (consumed s) (issued s))) ++ tail /\
       (tail = [] \/ tail = [_termination_obj])).
Proof.
  intros Hexec.
  pose proof (invariant_exec _ _ _ Hexec (invariant_initial _ _ _ _ _ _ _))
    as [Hinit Hfwd Hres Hle Hpend Hmark Hclosed Hdrained].
  simpl in *. split; [exact Hfwd|]. split; [exact Hres|]. split; [exact Hle|].
  split.
  - intros event request Hw. rewrite Hw in Hpend. specialize (Hpend I).
    simpl in Hpend. destruct (next_job _ _ _ _ Hpend) as (Hlook & _). exact Hlook.
  - intros Hnf j Hj.
    destruct (wiring_fields _ _ (wiring_exec _ _ _ Hexec)) as (Hp & _ & _ & _ & Ho).
    simpl in Hp, Ho.
    assert (Hd : delivered st0 s c).
    { apply (delivered_exec st0 _ _ _ Hexec (invariant_initial _ _ _ _ _ _ _)).
      intros _ i Hi. exists []. simpl. rewrite app_nil_r. auto. }
    unfold delivered in Hd. rewrite Hp, Ho, Hfwd in Hd.
    destruct (Hd ltac:(intros (ex & Hex); exact (Hnf ex Hex)) j Hj)
      as (tail & E & Htail).
    exists tail. split; [exact E|]. destruct Htail as [-> | (-> & _)]; auto.
Qed.

Lemma forwarded_in_issuance_order_witness :
  exists s c,
    exec (JoinExample.example_node, NoCall) JoinExample.example_events_trace (s, c) /\
    forwarded s = [JoinExample.joined_with "a"; JoinExample.joined_with "b";
                   JoinExample.joined_with "c"] /\
    received [0; 0] (nodes s) =
    [Ev (JoinExample.joined_with "a"); Ev (JoinExample.joined_with "b");
     Ev (JoinExample.joined_with "c")].
Proof.
  destruct (run_labels (JoinExample.example_node, NoCall)
              JoinExample.example_events_trace) as [[s c]|] eqn:Hrun;
    [|vm_compute in Hrun; discriminate].
  pose proof (run_labels_exec _ _ _ Hrun) as Hexec.
  assert (Hs : _worker_awaitable s = Getting /\
               forwarded s = [JoinExample.joined_with "a"; JoinExample.joined_with "b";
                              JoinExample.joined_with "c"] /\
               length (received [0; 0] (nodes s)) = 3).
  { vm_compute in Hrun. injection Hrun as <- _.
    split; [reflexivity|]. split; reflexivity. }
  destruct Hs as (Hw & Hf & Hlen).
  destruct (forwarded_in_issuance_order [0] JoinExample.example_builder
              JoinExample.example_join 3 default_termination_result_fn
              [Reduce (PyList []) list_append] empty_store
              JoinExample.example_events_trace s c Hexec)
    as (Hfwd & _ & _ & _ & Hrecv).
  destruct (Hrecv ltac:(rewrite Hw; discriminate) 0 ltac:(simpl; lia))
    as (tail & E & Htail).
  exists s, c. split; [exact Hexec|]. split; [exact Hf|].
  change ([0] ++ [0]) with ([0; 0] : path) in E. rewrite <- Hfwd, Hf in E.
  destruct Htail as [-> | ->].
  - rewrite E. reflexivity.
  - rewrite E in Hlen. discriminate.
Defined.

(** ** The termination signal and the requests in flight *)


(** ** A call that is suspended is not stuck while the worker has not failed *)

Lemma issued_exist_step s c l s' c' :
  invariant s c -> issued_exist s -> step (s, c) l (s', c') -> issued_exist s'.
Proof.
  unfold issued_exist. intros Hinv Hi Hstep.
  inversion Hstep as
    [s1 event s2 o H | s1 c1 s2 o H | s1 c1 s2 o H
    | s1 c1 request outcome s2 H | s1 c1 s2 H | s1 c1 s2 H]; subst.
  - destruct (call_history _ _ _ _ Hinv H) as [Hh | (e & _ & _ & Hh)].
    + apply history_fields in Hh as (-> & _ & -> & _). exact Hi.
    + unfold history in Hh. injection Hh as -> _ -> _ _ _.
      rewrite length_app. simpl. apply Forall_app. split.
      * eapply Forall_impl; [exact Hi|]. intros job Hjob. simpl in *. lia.
      * constructor; [simpl; lia | constructor].
  - unfold resume_put in H. destruct c as [|job|]; try discriminate.
    destruct (queue_full _ _); [discriminate|]. injection H as H.
    pose proof (history_after_put s job) as Hh. rewrite H in Hh. simpl in Hh.
    apply history_fields in Hh as (-> & _ & -> & _). exact Hi.
  - unfold resume_after_worker in H. destruct c; try discriminate.
    destruct (_worker_awaitable s) as [| |[u|ex]]; try discriminate.
    + destruct (_do_downstream _ _ _ _ _) as [[r st]|ex]; injection H as <- _;
        exact Hi.
    + injection H as <- _. exact Hi.
  - unfold resolve in H. destruct (tasks s !! request) as [[o|]|]; try discriminate.
    injection H as <-. simpl. rewrite length_insert. exact Hi.
  - unfold worker_get in H. destruct (_worker_awaitable s); try discriminate.
    destruct (_q s) as [|[|event request] rest]; try discriminate;
      injection H as <-; exact Hi.
  - destruct (consume_cases _ _ H) as (event & request & _ & Hcases).
    destruct Hcases as [(ex & _ & ->) | (response & _ & [(ex & _ & ->) | [(_ & ->) |
      (v & _ & _ & [(r & st & _ & ->) | (ex & _ & ->)])]])]; exact Hi.
Qed.

Lemma issued_exist_exec c0 tr c1 :
  exec c0 tr c1 -> invariant c0.1 c0.2 -> issued_exist c0.1 -> issued_exist c1.1.
Proof.
  induction 1 as [c | c tr c' l c'' Hexec IH Hstep]; intros H0 Hi0; [exact Hi0|].
  pose proof (invariant_exec _ _ _ Hexec H0) as Hinv.
  destruct c' as [s c'], c'' as [s'' c''].
  eapply issued_exist_step; [exact Hinv | apply IH; assumption | exact Hstep].
Qed.

Lemma awaited_task_exists s c event request :
  invariant s c -> issued_exist s ->
  _worker_awaitable s = Awaiting event request ->
  exists task, tasks s !! request = Some task.
Proof.
  intros [_ _ _ _ Hpend _ _ _] Hi Hw. rewrite Hw in Hpend. specialize (Hpend I).
  simpl in Hpend. destruct (next_job _ _ _ _ Hpend) as (Hlook & _).
  unfold issued_exist in Hi. rewrite Forall_forall in Hi.
  apply (lookup_lt_is_Some_2 (tasks s) request).
  apply (Hi (request, event)). eapply list_elem_of_lookup_2. exact Hlook.
Qed.

Lemma worker_can_go_on s c :
  invariant s c -> issued_exist s -> _q s <> [] -> alive (_worker_awaitable s) ->
  (exists s', worker_get s = Some s' \/ worker_consume s = Some s') \/
  (exists event request,
      _worker_awaitable s = Awaiting event request /\ tasks s !! request = Some None).
Proof.
  intros Hinv Hi Hq Ha. destruct (_worker_awaitable s) as [|event request|] eqn:Hw.
  - left. unfold worker_get. rewrite Hw.
    destruct (_q s) as [|[|e r] rest]; [congruence | eauto | eauto].
  - destruct (awaited_task_exists _ _ _ _ Hinv Hi Hw) as ([outcome|] & Ht).
    + left. unfold worker_consume. rewrite Hw, Ht.
      destruct outcome as [response|ex]; [|eauto].
      destruct (_join_from_response s (element event) response) as [v|ex]; [|eauto].
      destruct v; try (destruct (_do_downstream _ _ _ _ _) as [[r st]|ex]); eauto.
    + right. eauto.
  - destruct Ha.
Qed.

(** As long as the worker of a node has not failed, a call of [_do] that
    is suspended, in [put] or waiting for the worker, is not stuck:
    either the call itself can go on, or the worker can take a job or
    consume a response, or the worker awaits a request that the
    transport has not answered yet.  (A call suspended in [put] finds
    the queue full, so the worker has a job to take; a call waiting for
    the worker has put the marker, which the worker will reach.) *)
Theorem suspended_call_goes_on_while_worker_runs
    (position : path) (request_builder : PyVal -> Res HttpRequest.t)
    (join_from_response : PyVal -> HttpResponse.t -> Res PyVal)
    (max_in_flight : Z) (comb : Combiner) (outlets : list Flow) (st0 : Store)
    (tr : list Label) (s : t) (c : Caller) :
  exec (__init__ position request_builder join_from_response max_in_flight
          comb outlets st0, NoCall) tr (s, c) ->
  c <> NoCall ->
  (forall ex, _worker_awaitable s <> Done (Raise ex)) ->
  (exists s' o, resume_put s c = Some (s', o) \/
                resume_after_worker s c = Some (s', o)) \/
  (exists s', worker_get s = Some s' \/ worker_consume s = Some s') \/
  (exists event request,
      _worker_awaitable s = Awaiting event request /\ tasks s !! request = Some None).
Proof.
  intros Hexec Hc Hnf.
  pose proof (invariant_exec _ _ _ Hexec (invariant_initial _ _ _ _ _ _ _)) as Hinv.
  pose proof (issued_exist_exec _ _ _ Hexec (invariant_initial _ _ _ _ _ _ _)
                ltac:(constructor)) as Hi.
  simpl in Hinv, Hi.
  pose proof Hinv as [_ _ _ _ _ Hmark _ Hdrained].
  assert (Hcases : alive (_worker_awaitable s) \/ _worker_awaitable s = Done (Ok tt)).
  { destruct (_worker_awaitable s) as [| |[[]|ex]] eqn:Hw; simpl; auto.
    destruct (Hnf ex eq_refl). }
  destruct c as [|job|]; [congruence| |].
  - (* suspended in [put] *)
    destruct Hcases as [Ha | Hw];
      [|destruct (Hdrained Hw) as (_ & _ & _ & [Hn | Hn]); discriminate].
    destruct (queue_full (_max_in_flight s) (_q s)) eqn:Hfull.
    + right. apply (worker_can_go_on s _ Hinv Hi); [|exact Ha].
      intros Hq. rewrite Hq, queue_not_full_empty in Hfull. discriminate.
    + left. unfold resume_put. rewrite Hfull. destruct (after_put _ _). eauto.
  - (* waiting for the worker *)
    destruct Hcases as [Ha | Hw].
    + right. apply (worker_can_go_on s _ Hinv Hi); [|exact Ha].
      destruct (Hmark Ha) as (front & -> & _). destruct front; discriminate.
    + left. unfold resume_after_worker. rewrite Hw.
      destruct (_do_downstream _ _ _ _ _) as [[r st]|ex]; eauto.
Qed.

Lemma suspended_call_goes_on_while_worker_runs_witness :
  exists s c,
    exec (narrow_node, NoCall) suspended_trace (s, c) /\
    c = BlockedInPut Marker /\
    _worker_awaitable s = Awaiting (int_event 10) 0 /\
    tasks s !! 0 = Some None.
Proof.
  destruct (run_labels (narrow_node, NoCall) suspended_trace) as [[s c]|] eqn:Hrun;
    [|vm_compute in Hrun; discriminate].
  pose proof (run_labels_exec _ _ _ Hrun) as Hexec.
  assert (Hs : c = BlockedInPut Marker /\
               _worker_awaitable s = Awaiting (int_event 10) 0 /\
               resume_put s c = None /\ worker_get s = None /\
               worker_consume s = None).
  { vm_compute in Hrun. injection Hrun as <- <-. repeat split. }
  destruct Hs as (Hc & Hw & Hput & Hget & Hconsume).
  destruct (suspended_call_goes_on_while_worker_runs [0] JoinExample.example_builder
              JoinExample.example_join 1 default_termination_result_fn
              [Reduce (PyList []) list_append] empty_store suspended_trace s c Hexec
              ltac:(rewrite Hc; discriminate) ltac:(rewrite Hw; discriminate))
    as [(s' & o & [H | H]) | [(s' & [H | H]) | (event & request & Hw' & Ht)]].
  - rewrite Hput in H. discriminate.
  - rewrite Hc in H. discriminate.
  - rewrite Hget in H. discriminate.
  - rewrite Hconsume in H. discriminate.
  - rewrite Hw in Hw'. injection Hw' as <- <-.
    exists s, c. auto.
Defined.

End JoinWithHttpRunFacts.

(** * [NeedsV3ioAccess] and [JoinWithV3IOTable] *)

Module NeedsV3ioAccessFacts.
Import NeedsV3ioAccess.

Lemma startswith_append (s w : string) : String.prefix s (s +:+ w) = true.
Proof.
  induction s as [|a s IH]; simpl.
  - destruct w; reflexivity.
  - destruct (Ascii.ascii_dec a a); [exact IH | congruence].
Qed.

Lemma has_scheme_given (webapi : string) :
  has_scheme webapi = true -> given (Some webapi) = true.
Proof. destruct webapi; [discriminate | reflexivity]. Qed.

Lemma init_Ok environ webapi access_key o :
  __init__ environ webapi access_key = Ok o ->
  exists w k,
    effective environ webapi "V3IO_API" w /\
    effective environ access_key "V3IO_ACCESS_KEY" k /\
    o = mk (if has_scheme w then w else "http://" +:+ w)
          (<["X-v3io-function" := "GetItem"]> (<["X-v3io-session-key" := k]> ∅))
          (<["X-v3io-function" := "PutItem"]> (<["X-v3io-session-key" := k]> ∅)).
Proof.
  unfold __init__, effective. intros H.
  destruct (or_getenv environ webapi "V3IO_API") as [[|a w]|]; try discriminate.
  destruct (or_getenv environ access_key "V3IO_ACCESS_KEY") as [[|b k]|];
    try discriminate.
  injection H as <-. exists (String a w), (String b k). repeat split; discriminate.
Qed.

Lemma init_Raise environ webapi access_key ex :
  __init__ environ webapi access_key = Raise ex ->
  ex = AssertionError /\
  ((forall w, ~ effective environ webapi "V3IO_API" w) \/
   (forall k, ~ effective environ access_key "V3IO_ACCESS_KEY" k)).
Proof.
  unfold __init__, effective. intros H.
  destruct (or_getenv environ webapi "V3IO_API") as [[|a w]|].
  - injection H as <-. split; [reflexivity|]. left. intros w [[= <-] Hne]. congruence.
  - destruct (or_getenv environ access_key "V3IO_ACCESS_KEY") as [[|b k]|];
      try discriminate; injection H as <-; (split; [reflexivity|]); right;
      intros k0 [Hk Hne]; congruence.
  - injection H as <-. split; [reflexivity|]. left. intros w [[=] _].
Qed.

Lemma normalised_has_scheme (w : string) :
  has_scheme (if has_scheme w then w else "http://" +:+ w) = true.
Proof.
  destruct (has_scheme w) eqn:Hs; [exact Hs|].
  unfold has_scheme. rewrite startswith_append. reflexivity.
Qed.

(** [NeedsV3ioAccess.__init__] succeeds exactly when a non-empty web API
    address and a non-empty access key are given, each as an argument or,
    when the argument is [None] or empty, by its environment variable,
    and raises [AssertionError] otherwise.  The URL it stores always
    starts with [http://] or [https://]: it is the address itself when
    that has one of the two schemes, and the address after [http://]
    otherwise; both header sets carry the access key; and building again
    from the stored URL stores the same URL and the same headers. *)
Theorem webapi_url_is_normalised
    (environ : gmap string string) (webapi access_key : option string) :
  match __init__ environ webapi access_key with
  | Ok o =>
      exists w k,
        effective environ webapi "V3IO_API" w /\
        effective environ access_key "V3IO_ACCESS_KEY" k /\
        has_scheme (_webapi_url o) = true /\
        _webapi_url o = (if has_scheme w then w else "http://" +:+ w) /\
        _get_item_headers o !! "X-v3io-session-key" = Some k /\
        _put_item_headers o !! "X-v3io-session-key" = Some k /\
        _get_item_headers o !! "X-v3io-function" = Some "GetItem" /\
        _put_item_headers o !! "X-v3io-function" = Some "PutItem" /\
        __init__ environ (Some (_webapi_url o)) access_key = Ok o
  | Raise ex =>
      ex = AssertionError /\
      ((forall w, ~ effective environ webapi "V3IO_API" w) \/
       (forall k, ~ effective environ access_key "V3IO_ACCESS_KEY" k))
  end.
Proof.
  destruct (__init__ environ webapi access_key) as [o|ex] eqn:H;
    [|exact (init_Raise _ _ _ _ H)].
  destruct (init_Ok _ _ _ _ H) as (w & k & Hw & Hk & ->). exists w, k.
  pose proof (normalised_has_scheme w) as Hurl. simpl.
  split; [exact Hw|]. split; [exact Hk|]. split; [exact Hurl|].
  split; [reflexivity|]. split; [reflexivity|]. split; [reflexivity|].
  split; [reflexivity|]. split; [reflexivity|].
  destruct Hk as [Hk Hkne]. unfold __init__.
  set (url := if has_scheme w then w else "http://" +:+ w) in *.
  unfold or_getenv at 1. rewrite (has_scheme_given _ Hurl).
  destruct url as [|c url'] eqn:Eurl; [discriminate|].
  rewrite Hurl, Hk. destruct k as [|b k]; [congruence | reflexivity].
Qed.

Lemma address_without_scheme :
  exists o,
    __init__ {["V3IO_ACCESS_KEY" := "secret"]} (Some "host:8081") None = Ok o /\
    _webapi_url o = "http://host:8081" /\
    _get_item_headers o !! "X-v3io-session-key" = Some "secret".
Proof. eexists. split; [vm_compute; reflexivity|]. split; reflexivity. Qed.

End NeedsV3ioAccessFacts.

Module JoinWithV3IOTableFacts.
Import JoinWithHttp JoinWithHttpFacts JoinWithHttpRuns JoinWithHttpRunFacts.

Section Table.
Variable access : NeedsV3ioAccess.t.
Variable ResponseObject : Type.
Variable _v3io_parse_response : string -> Res ResponseObject.
Variable key_extractor : PyVal -> Res PyVal.
Variable join_function : PyVal -> ResponseObject -> Res PyVal.
Variable table_path request_body : string.
Variable format : PyVal -> string.

Local Abbreviation join_from_response :=
  (JoinWithV3IOTable.join_from_response ResponseObject _v3io_parse_response
     join_function).

Local Abbreviation table position max_in_flight comb outlets st0 :=
  (JoinWithV3IOTable.__init__ access ResponseObject _v3io_parse_response
     key_extractor join_function table_path request_body format
     position max_in_flight comb outlets st0).

Lemma join_from_response_Ok x response v :
  join_from_response x response = Ok v ->
  (HttpResponse.status response = 404%Z /\ v = PyNone) \/
  (HttpResponse.status response = 200%Z /\
   exists response_object,
     _v3io_parse_response (HttpResponse.body response) = Ok response_object /\
     join_function x response_object = Ok v).
Proof.
  unfold JoinWithV3IOTable.join_from_response. intros H.
  destruct (HttpResponse.status response =? 200)%Z eqn:E200.
  - right. apply Z.eqb_eq in E200. split; [exact E200|].
    destruct (_v3io_parse_response _) as [response_object|ex]; [|discriminate].
    eauto.
  - destruct (HttpResponse.status response =? 404)%Z eqn:E404; [|discriminate].
    left. apply Z.eqb_eq in E404. injection H as <-. auto.
Qed.

Lemma join_from_response_other x response :
  HttpResponse.status response <> 200%Z -> HttpResponse.status response <> 404%Z ->
  exists msg, join_from_response x response = Raise (V3ioError msg).
Proof.
  intros H200 H404. unfold JoinWithV3IOTable.join_from_response.
  apply Z.eqb_neq in H200, H404. rewrite H200, H404. eauto.
Qed.

(** A [JoinWithV3IOTable] node whose worker has not failed has consumed
    only responses of status 200 or 404: for a 404 (no such item) the
    event is dropped, for a 200 the worker has forwarded what
    [join_function] returned for the parsed item under the key and the
    time of the event, unless that was [None]; the events forwarded are
    exactly these, in the order of the requests.  A response of any
    other status makes the worker fail with [V3ioError], close the
    session and forward nothing. *)
Theorem table_join_goes_by_status
    (position : path) (max_in_flight : Z) (comb : Combiner) (outlets : list Flow)
    (st0 : Store) (tr : list Label) (s : t) (c : Caller) :
  exec (table position max_in_flight comb outlets st0, NoCall) tr (s, c) ->
  ((forall ex, _worker_awaitable s <> Done (Raise ex)) ->
   Forall (JoinWithV3IOTable.answered ResponseObject _v3io_parse_response
             join_function s)
          (take (consumed s) (issued s)) /\
   forwarded s = omap (joined_event s) (take (consumed s) (issued s))) /\
  (forall event request response,
      _worker_awaitable s = Awaiting event request ->
      tasks s !! request = Some (Some (Ok response)) ->
      HttpResponse.status response <> 200%Z ->
      HttpResponse.status response <> 404%Z ->
      exists s' msg,
        worker_consume s = Some s' /\
        _worker_awaitable s' = Done (Raise (V3ioError msg)) /\
        _client_session s' = Some true /\
        forwarded s' = forwarded s).
Proof.
  intros Hexec.
  destruct (wiring_fields _ _ (wiring_exec _ _ _ Hexec)) as (_ & Hj & _).
  simpl in Hj.
  pose proof (invariant_exec _ _ _ Hexec (invariant_initial _ _ _ _ _ _ _)) as Hinv.
  simpl in Hinv. split.
  - intros Hnf. destruct Hinv as [_ Hfwd _ _ _ _ _ _]. split; [|exact Hfwd].
    assert (Hs : survived s).
    { apply (survived_exec _ _ _ Hexec (invariant_initial _ _ _ _ _ _ _)).
      intros _. constructor. }
    eapply Forall_impl; [apply Hs; intros (ex & Hex); exact (Hnf ex Hex)|].
    intros job (response & v & Hjob & Hv). exists response. split; [exact Hjob|].
    unfold joined_event. rewrite Hjob, Hv. rewrite Hj in Hv.
    destruct (join_from_response_Ok _ _ _ Hv)
      as [(H404 & ->) | (H200 & response_object & Hparse & Hjoin)].
    + left. auto.
    + right. split; [exact H200|]. exists response_object, v.
      split; [exact Hparse|]. split; [exact Hjoin|]. destruct v; reflexivity.
  - intros event request response Hw Ht H200 H404.
    destruct (join_from_response_other (element event) response H200 H404)
      as (msg & Hraise).
    exists (worker_fails s (V3ioError msg)), msg.
    unfold worker_consume. rewrite Hw, Ht, Hj, Hraise.
    split; [reflexivity|]. split; [reflexivity|]. split; [|reflexivity].
    destruct Hinv as [Hinit _ _ _ _ _ _ _]. simpl.
    destruct (_client_session s) as [closed|] eqn:Hsession; [reflexivity|].
    destruct (Hinit eq_refl) as (_ & Hg & _). congruence.
Qed.

End Table.

Lemma table_join_goes_by_status_witness :
  exists s c,
    exec (JoinWithV3IOTable.example_table, NoCall)
      JoinWithV3IOTable.example_table_trace (s, c) /\
    consumed s = 2 /\
    forwarded s = [mkEvent (PyStr "one") PyNone (PyInt 0)] /\
    forwarded s = omap (joined_event s) (take (consumed s) (issued s)).
Proof.
  destruct (run_labels (JoinWithV3IOTable.example_table, NoCall)
              JoinWithV3IOTable.example_table_trace) as [[s c]|] eqn:Hrun;
    [|vm_compute in Hrun; discriminate].
  pose proof (run_labels_exec _ _ _ Hrun) as Hexec.
  assert (Hs : _worker_awaitable s = Getting /\ consumed s = 2 /\
               forwarded s = [mkEvent (PyStr "one") PyNone (PyInt 0)]).
  { vm_compute in Hrun. injection Hrun as <- _. repeat split. }
  destruct Hs as (Hw & Hc & Hf).
  destruct (table_join_goes_by_status (NeedsV3ioAccess.mk "http://host" ∅ ∅) PyVal
              (fun body => Ok (PyStr body)) (fun x => Ok x) (fun _ item => Ok item)
              "table" "{}" (fun _ => "key") [0] 3 default_termination_result_fn
              [Reduce (PyList []) list_append] empty_store
              JoinWithV3IOTable.example_table_trace s c Hexec) as (Hrunning & _).
  destruct (Hrunning ltac:(rewrite Hw; discriminate)) as (_ & Hfwd).
  exists s, c. auto.
Defined.

End JoinWithV3IOTableFacts.

(** * [build_flow] *)

Lemma Steps_nested_ind (P : Steps -> Prop) :
  P Empty ->
  (forall first rest,
      Forall (fun step => match step with Node _ => True | Branch steps => P steps end)
             rest ->
      P (Pipeline first rest)) ->
  forall steps, P steps.
Proof.
  intros Hempty Hpipeline.
  fix IH 1. intros [|first rest]; [exact Hempty|].
  apply Hpipeline. induction rest as [|step rest IHrest]; constructor.
  - destruct step as [n|steps]; [exact I | apply IH].
  - exact IHrest.
Qed.

(** ** The number of nodes *)

Lemma length_positions n : forall p q : path, length (positions n p) = length (positions n q).
Proof.
  induction n as [cls fn comb outlets IH | inital_value fn] using Flow_nested_ind;
    intros p q; [|reflexivity].
  rewrite !positions_unary. simpl. f_equal. generalize 0 as i.
  induction IH as [|o outlets Ho _ IHo]; intros i; [reflexivity|].
  simpl. rewrite !length_app, (Ho (p ++ [i]) (q ++ [i])), (IHo (S i)). reflexivity.
Qed.

Lemma length_positions_from (p : path) outlets :
  forall i, length (positions_from p outlets i) = sum_list (map node_count outlets).
Proof.
  induction outlets as [|o outlets IH]; intros i; [reflexivity|].
  simpl. rewrite length_app, IH. f_equal. apply length_positions.
Qed.

Lemma node_count_unary cls fn comb outlets :
  node_count (UnaryFunctionFlow cls fn comb outlets) =
  S (sum_list (map node_count outlets)).
Proof.
  unfold node_count at 1. rewrite positions_unary. simpl.
  rewrite length_positions_from. reflexivity.
Qed.

Lemma sum_list_snoc (l : list nat) (x : nat) : sum_list (l ++ [x]) = sum_list l + x.
Proof. induction l as [|y l IH]; simpl; lia. Qed.

Lemma node_count_to n outlet n' :
  Flow_to n outlet = Ok n' -> node_count n' = node_count n + node_count outlet.
Proof.
  destruct n as [cls fn comb outlets | inital_value fn]; [|discriminate].
  intros [= <-]. rewrite !node_count_unary, map_app. simpl map.
  rewrite sum_list_snoc. lia.
Qed.

Lemma to_raises n outlet ex : Flow_to n outlet = Raise ex -> ex = ValueError.
Proof. destruct n; [discriminate|]. intros [= <-]. reflexivity. Qed.

Lemma wire_builds_given rest :
  branches_build_given rest ->
  forall cur_step,
    match wire build_flow cur_step rest with
    | Ok flow => node_count flow = node_count cur_step + given_in given rest
    | Raise ex => ex = IndexError \/ ex = ValueError
    end.
Proof.
  induction 1 as [|step rest Hstep _ IH]; intros cur_step; simpl; [lia|].
  destruct step as [next_step|next_steps].
  - destruct (Flow_to cur_step next_step) as [cur_step'|ex] eqn:Hto;
      [|right; eapply to_raises; exact Hto].
    specialize (IH next_step).
    destruct (wire build_flow next_step rest) as [next_step'|ex]; [|exact IH].
    destruct (Flow_to cur_step next_step') as [flow|ex] eqn:Hto';
      [|right; eapply to_raises; exact Hto'].
    rewrite (node_count_to _ _ _ Hto'), IH. lia.
  - unfold builds_given in Hstep.
    destruct (build_flow next_steps) as [outlet|ex]; [|exact Hstep].
    destruct (Flow_to cur_step outlet) as [cur_step'|ex] eqn:Hto;
      [|right; eapply to_raises; exact Hto].
    specialize (IH cur_step').
    destruct (wire build_flow cur_step' rest) as [flow|ex]; [|exact IH].
    rewrite IH, (node_count_to _ _ _ Hto). lia.
Qed.

Lemma build_flow_builds_given steps : builds_given steps.
Proof.
  induction steps as [|first rest IH] using Steps_nested_ind; unfold builds_given.
  - simpl. auto.
  - simpl. apply (wire_builds_given rest IH first).
Qed.

(** [build_flow] of an empty list raises [IndexError], and [build_flow]
    raises nothing but [IndexError] (an empty nested list) and
    [ValueError] (a step after a [Reduce]); when it returns, the flow it
    returns has as many nodes as the steps give, nested lists included:
    every step is wired into the flow, once. *)
Theorem build_flow_wires_every_step (steps : Steps) :
  build_flow Empty = Raise IndexError /\
  match build_flow steps with
  | Ok flow => node_count flow = given steps
  | Raise ex => ex = IndexError \/ ex = ValueError
  end.
Proof. split; [reflexivity | apply build_flow_builds_given]. Qed.

Lemma branch_then_node_example :
  build_flow
    (Pipeline (UnaryFunctionFlow Map identity default_termination_result_fn [])
       [Branch (Pipeline (UnaryFunctionFlow Filter positive
                            default_termination_result_fn [])
                  [Node (Reduce (PyList []) list_append)]);
        Node (Reduce (PyInt 0) py_add)])
  = Ok (UnaryFunctionFlow Map identity default_termination_result_fn
          [UnaryFunctionFlow Filter positive default_termination_result_fn
             [Reduce (PyList []) list_append];
           Reduce (PyInt 0) py_add]).
Proof. reflexivity. Qed.

(** ** A row built by [build_flow] *)

Lemma wire_row comb k inital_value g :
  wire build_flow (UnaryFunctionFlow Map identity comb [])
    (row_steps comb k inital_value g)
  = Ok (identity_maps comb (S k) (Reduce inital_value g)).
Proof.
  induction k as [|k IH]; [reflexivity|].
  change (row_steps comb (S k) inital_value g) with
    (Node (UnaryFunctionFlow Map identity comb []) :: row_steps comb k inital_value g).
  cbn [wire Flow_to]. rewrite IH. reflexivity.
Qed.

Lemma build_flow_source_row source comb k inital_value g :
  build_flow_source source (row_steps comb k inital_value g)
  = Ok (to source (identity_maps comb k (Reduce inital_value g))).
Proof.
  destruct k as [|k]; [reflexivity|].
  change (row_steps comb (S k) inital_value g) with
    (Node (UnaryFunctionFlow Map identity comb []) :: row_steps comb k inital_value g).
  cbn [build_flow_source]. rewrite wire_row. reflexivity.
Qed.

(** [build_flow([Source(buffer_size), Map(lambda x: x), ...,
    Reduce(inital_value, g)])], with [k] identity [Map] steps, returns
    the source with the row wired below it; and every run of that flow
    in which the producer has emitted [events] and terminated, and whose
    thread has ended with no failure recorded, makes [await_termination]
    return the left fold of [g] over the payloads from [inital_value]. *)
Theorem build_flow_row_folds
    (size : Z) (comb0 comb : Combiner) (k : nat) (inital_value : PyVal)
    (g : PyVal -> PyVal -> Res PyVal) (source : Source) (events : list Event) :
  Source__init__ size comb0 = Ok source ->
  exists s0,
    build_flow_source source (row_steps comb k inital_value g) = Ok s0 /\
    _outlets s0 = [identity_maps comb k (Reduce inital_value g)] /\
    forall tr s pr,
      exec (run s0, Idle) tr (s, pr) ->
      puts tr = map Ev events ++ [_termination_obj] ->
      thread s = Finished -> _ex s = None ->
      exists v s',
        fold_res g inital_value (map element events) = Ok v /\
        await_termination s = Some (s', Ok v).
Proof.
  intros Hinit. unfold Source__init__ in Hinit.
  destruct (0 <? size)%Z; [|discriminate]. injection Hinit as <-.
  eexists. split; [apply build_flow_source_row|]. split; [reflexivity|].
  intros tr s pr Hexec Hputs Hthread Hex.
  set (s0 := to (mkSource [] comb0 size [] [] None None NotStarted empty_store)
               (identity_maps comb k (Reduce inital_value g))) in *.
  assert (Hrunnable : runnable s0) by (repeat split).
  assert (Hout : _outlets s0 = [identity_maps comb k (Reduce inital_value g)])
    by reflexivity.
  destruct (finished_row_run comb k inital_value g s0 events tr s pr
              Hrunnable Hout Hexec Hputs Hthread Hex)
    as (v & s' & Hfold & Hawait & _).
  exists v, s'. split; [exact Hfold | exact Hawait].
Qed.

Lemma build_flow_row_folds_witness :
  exists source s0 s s',
    Source__init__ 1 default_termination_result_fn = Ok source /\
    build_flow_source source
      (row_steps default_termination_result_fn 2 (PyInt 0) py_add) = Ok s0 /\
    exec (run s0, Idle) (lockstep example_events) (s, Idle) /\
    await_termination s = Some (s', Ok (PyInt 3)).
Proof.
  destruct (build_flow_row_folds 1 default_termination_result_fn
              default_termination_result_fn 2 (PyInt 0) py_add _ example_events
              eq_refl) as (s0 & Hbuild & Hout & Hruns).
  assert (Hs0 : s0 = source_of [identity_maps default_termination_result_fn 2
                                  (Reduce (PyInt 0) py_add)]).
  { vm_compute in Hbuild. injection Hbuild as <-. reflexivity. }
  assert (Hdel : exists st',
             deliver default_termination_result_fn
               [identity_maps default_termination_result_fn 2 (Reduce (PyInt 0) py_add)]
               (map Ev example_events ++ [_termination_obj]) PyNone empty_store
             = Ok (PyInt 3, st')).
  { eexists. vm_compute. reflexivity. }
  destruct Hdel as (st' & Hdel).
  pose proof (lockstep_source_of _ _ _ _ Hdel) as Hexec. rewrite <- Hs0 in Hexec.
  destruct (Hruns _ _ _ Hexec (puts_lockstep _) eq_refl eq_refl)
    as (v & s' & Hfold & Hawait).
  injection Hfold as <-.
  eexists. exists s0. eexists. exists s'.
  split; [reflexivity|]. split; [exact Hbuild|]. split; [exact Hexec | exact Hawait].
Defined.
